(** * mir2pnml_py: MIR text -> Petri net -> PNML

    A shallow embedding of the Python sources under [skills/mir2pnml_py]
    ([mir_model.py], [mir_parser.py], [pn_model.py], [pn_builder.py],
    [pnml_writer.py], [mir2pnml.py]) together with the properties of the
    translation pipeline.

    Conventions of the embedding.
    - Python [str] is [string]; characters are code points below 128 (MIR
      dumps are ASCII).  On those, the classes [\s], [\d], [\w] of the [re]
      module and [str.strip] are the ones defined in [PyStr].
    - Python [int] is [Z]; [str(n)] and the [{n}] of an f-string are stdpp's
      [pretty], which prints the same decimal digits with a leading [-].
    - [dict] is [gmap], [set] is [gset], [list] is [list] ([append] adds at
      the end).
    - [int(s)] raises [ValueError] unless [s] is a decimal literal of at
      most 4300 digits, the interpreter's default limit
      ([sys.get_int_max_str_digits()]); the parser runs in an exception
      monad.
    - The [while] loops of the parser take a fuel argument; the entry points
      pass a bound that is shown to be sufficient. *)

From stdpp Require Import base gmap strings list pretty.
From Stdlib Require Import ZArith Ascii String Lia.

Local Open Scope string_scope.
Local Open Scope Z_scope.
Local Open Scope list_scope.

Set Warnings "-register-all,-clear-no-such-hyp".

(* ===================================================================== *)
(** ** Python string primitives *)
(* ===================================================================== *)

Module PyStr.

(** [str.isspace] on ASCII: TAB, LF, VT, FF, CR, FS, GS, RS, US, SPACE. *)
Definition is_space (c : ascii) : bool :=
  let n := nat_of_ascii c in
  ((9 <=? n) && (n <=? 13) || (28 <=? n) && (n <=? 32))%nat.

Definition is_digit (c : ascii) : bool :=
  let n := nat_of_ascii c in ((48 <=? n) && (n <=? 57))%nat.

Definition is_upper (c : ascii) : bool :=
  let n := nat_of_ascii c in ((65 <=? n) && (n <=? 90))%nat.

Definition is_lower (c : ascii) : bool :=
  let n := nat_of_ascii c in ((97 <=? n) && (n <=? 122))%nat.

(** [\w]: letters, digits and underscore. *)
Definition is_word (c : ascii) : bool :=
  is_upper c || is_lower c || is_digit c || Ascii.eqb c "_".

(** [s.lstrip()], [s.rstrip()], [s.strip()]. *)
Fixpoint lstrip (s : string) : string :=
  match s with
  | String c s' => if is_space c then lstrip s' else s
  | EmptyString => EmptyString
  end.

Fixpoint rstrip (s : string) : string :=
  match s with
  | String c s' =>
      match rstrip s' with
      | EmptyString => if is_space c then EmptyString else String c EmptyString
      | r => String c r
      end
  | EmptyString => EmptyString
  end.

Definition strip (s : string) : string := rstrip (lstrip s).

(** [s.lower()]. *)
Definition lower_char (c : ascii) : ascii :=
  if is_upper c then ascii_of_nat (nat_of_ascii c + 32) else c.

Fixpoint lower (s : string) : string :=
  match s with
  | String c s' => String (lower_char c) (lower s')
  | EmptyString => EmptyString
  end.

(** [needle in hay]. *)
Fixpoint contains (needle hay : string) : bool :=
  if String.prefix needle hay then true
  else match hay with
       | String _ hay' => contains needle hay'
       | EmptyString => false
       end.

(** [s.count("\n")]. *)
Fixpoint count_newlines (s : string) : nat :=
  match s with
  | String c s' =>
      if Ascii.eqb c "010" then S (count_newlines s') else count_newlines s'
  | EmptyString => O
  end.

(** [s.split("\n")]: always at least one piece. *)
Fixpoint split_lines_go (cur : string) (s : string) : list string :=
  match s with
  | String c s' =>
      if Ascii.eqb c "010" then String.rev cur :: split_lines_go "" s'
      else split_lines_go (String c cur) s'
  | EmptyString => [String.rev cur]
  end.

Definition split_lines (s : string) : list string := split_lines_go "" s.

(** [s[a:b]] for [0 <= a], [0 <= b]. *)
Definition slice (s : string) (a b : nat) : string :=
  String.substring a (b - a) s.

(** Python truthiness of a [str] and of an [Optional[str]]. *)
Definition truthy (s : string) : bool :=
  match s with EmptyString => false | _ => true end.

Definition truthy_opt (o : option string) : bool :=
  match o with Some s => truthy s | None => false end.

(** [a or b] on [Optional[str]]. *)
Definition py_or (a b : option string) : option string :=
  if truthy_opt a then a else b.

(** [int(s)] on a string of decimal digits; [None] stands for the
    [ValueError] raised on anything else (the sources only ever convert
    what [\d+] matched, so signs and blanks are left out) and on a string
    of more digits than the interpreter converts. *)
Definition digit_val (c : ascii) : Z := Z.of_nat (nat_of_ascii c) - 48.

(** [sys.get_int_max_str_digits()], at its default. *)
Definition int_max_str_digits : nat := 4300.

(** Number of decimal digits a string starts with. *)
Fixpoint digit_prefix_len (s : string) : nat :=
  match s with
  | String c s' => if is_digit c then S (digit_prefix_len s') else O
  | EmptyString => O
  end.

Fixpoint int_go (acc : Z) (s : string) : option Z :=
  match s with
  | String c s' =>
      if is_digit c then int_go (10 * acc + digit_val c) s' else None
  | EmptyString => Some acc
  end.

Definition py_int (s : string) : option Z :=
  match s with
  | EmptyString => None
  | _ =>
      if (int_max_str_digits <? digit_prefix_len s)%nat then None
      else int_go 0 s
  end.

(** Last character of a string, used to tell identifiers apart. *)
Fixpoint last_char (s : string) : option ascii :=
  match s with
  | String c EmptyString => Some c
  | String _ s' => last_char s'
  | EmptyString => None
  end.

End PyStr.

(* ===================================================================== *)
(** ** The fragment of Python's [re] the parser uses

    A backtracking matcher in continuation-passing style: alternatives are
    tried left to right, quantifiers are greedy, and [search] returns the
    leftmost match, as [re] does.  Quantified sub-patterns of the sources
    are all single character classes. *)
(* ===================================================================== *)

Module Re.
Import PyStr.

Inductive cclass : Type :=
| CSpace                  (* \s *)
| CDigit                  (* \d *)
| CWord                   (* \w *)
| CNot (c : ascii).       (* [^c] *)

Definition cc_test (cc : cclass) (a : ascii) : bool :=
  match cc with
  | CSpace => is_space a
  | CDigit => is_digit a
  | CWord => is_word a
  | CNot c => negb (Ascii.eqb a c)
  end.

Inductive regex : Type :=
| RLit (s : string)              (* literal text *)
| RStar (cc : cclass)            (* cc*  *)
| RPlus (cc : cclass)            (* cc+  *)
| RSeq (r1 r2 : regex)           (* r1r2 *)
| RAlt (r1 r2 : regex)           (* r1|r2 *)
| ROpt (r : regex)               (* (?:r)? *)
| RGroup (n : nat) (r : regex)   (* n-th capturing group *)
| RBos                           (* ^ *)
| RWordB.                        (* \b *)

(** Matcher state: absolute position, the character before it, the text
    still to read and the groups captured so far. *)
Record mstate : Type := MState {
  ms_pos : nat;
  ms_prev : option ascii;
  ms_rest : string;
  ms_groups : list (nat * string)
}.

Definition set_group (n : nat) (s : string) (g : list (nat * string)) :=
  (n, s) :: g.

Fixpoint get_group (n : nat) (g : list (nat * string)) : option string :=
  match g with
  | (k, s) :: g' => if Nat.eqb k n then Some s else get_group n g'
  | [] => None
  end.

Definition is_word_opt (o : option ascii) : bool :=
  match o with Some c => is_word c | None => false end.

Definition next_char (s : string) : option ascii :=
  match s with String c _ => Some c | EmptyString => None end.

Section Matcher.
Context {A : Type}.

Fixpoint lit_go (l : string) (pos : nat) (prev : option ascii)
    (rest : string) (g : list (nat * string))
    (k : mstate → option A) : option A :=
  match l with
  | EmptyString => k (MState pos prev rest g)
  | String c l' =>
      match rest with
      | String a rest' =>
          if Ascii.eqb a c then lit_go l' (S pos) (Some a) rest' g k
          else None
      | EmptyString => None
      end
  end.

Fixpoint star_go (cc : cclass) (pos : nat) (prev : option ascii)
    (rest : string) (g : list (nat * string))
    (k : mstate → option A) : option A :=
  match rest with
  | String a rest' =>
      if cc_test cc a then
        match star_go cc (S pos) (Some a) rest' g k with
        | Some r => Some r
        | None => k (MState pos prev rest g)
        end
      else k (MState pos prev rest g)
  | EmptyString => k (MState pos prev rest g)
  end.

Fixpoint exec (r : regex) (st : mstate) (k : mstate → option A)
    : option A :=
  match r with
  | RLit l => lit_go l (ms_pos st) (ms_prev st) (ms_rest st) (ms_groups st) k
  | RStar cc =>
      star_go cc (ms_pos st) (ms_prev st) (ms_rest st) (ms_groups st) k
  | RPlus cc =>
      match ms_rest st with
      | String a rest' =>
          if cc_test cc a then
            star_go cc (S (ms_pos st)) (Some a) rest' (ms_groups st) k
          else None
      | EmptyString => None
      end
  | RSeq r1 r2 => exec r1 st (λ st1, exec r2 st1 k)
  | RAlt r1 r2 =>
      match exec r1 st k with
      | Some x => Some x
      | None => exec r2 st k
      end
  | ROpt r1 =>
      match exec r1 st k with
      | Some x => Some x
      | None => k st
      end
  | RGroup n r1 =>
      exec r1 st (λ st1,
        k (MState (ms_pos st1) (ms_prev st1) (ms_rest st1)
             (set_group n
                (String.substring 0 (ms_pos st1 - ms_pos st) (ms_rest st))
                (ms_groups st1))))
  | RBos => match ms_prev st with None => k st | Some _ => None end
  | RWordB =>
      if xorb (is_word_opt (ms_prev st))
              (is_word_opt (next_char (ms_rest st)))
      then k st else None
  end.
End Matcher.

(** A match object: [m.start()], [m.end()] and the groups. *)
Record match_obj : Type := MatchObj {
  m_start : nat;
  m_end : nat;
  m_groups : list (nat * string)
}.

Definition group (m : match_obj) (n : nat) : option string :=
  get_group n (m_groups m).

(** Groups that always take part in a match are read with [group_str]. *)
Definition group_str (m : match_obj) (n : nat) : string :=
  default "" (group m n).

Definition match_at (r : regex) (pos : nat) (prev : option ascii)
    (rest : string) : option match_obj :=
  exec r (MState pos prev rest [])
    (λ st, Some (MatchObj pos (ms_pos st) (ms_groups st))).

(** Scan for the leftmost position where [r] matches. *)
Fixpoint search_go (r : regex) (pos : nat) (prev : option ascii)
    (rest : string) : option match_obj :=
  match match_at r pos prev rest with
  | Some m => Some m
  | None =>
      match rest with
      | String a rest' => search_go r (S pos) (Some a) rest'
      | EmptyString => None
      end
  end.

(** [re.match(r, s)] and [re.search(r, s)]. *)
Definition re_match (r : regex) (s : string) : option match_obj :=
  match_at r 0 None s.

Definition re_search (r : regex) (s : string) : option match_obj :=
  search_go r 0 None s.

(** The text from position [pos] on, with the character before it. *)
Fixpoint seek (s : string) (pos : nat) (prev : option ascii)
    : option ascii * string :=
  match pos with
  | O => (prev, s)
  | S pos' =>
      match s with
      | String a s' => seek s' pos' (Some a)
      | EmptyString => (prev, EmptyString)
      end
  end.

(** [pattern.search(s, pos)] for [pos <= len(s)]. *)
Definition re_search_from (r : regex) (s : string) (pos : nat)
    : option match_obj :=
  let '(prev, rest) := seek s pos None in
  search_go r pos prev rest.

(** [re.findall(r, s)] for a pattern with one group whose matches are
    never empty: the group of every match, left to right, each search
    resuming where the previous match ended. *)
Fixpoint findall_go (fuel : nat) (r : regex) (s : string) (pos : nat)
    : list string :=
  match fuel with
  | O => []
  | S fuel' =>
      match re_search_from r s pos with
      | Some m =>
          group_str m 1 ::
          findall_go fuel' r s (if (m_start m <? m_end m)%nat
                                 then m_end m else S (m_end m))
      | None => []
      end
  end.

Definition re_findall (r : regex) (s : string) : list string :=
  findall_go (S (String.length s)) r s 0.

(** Sequencing notation for patterns. *)
Declare Scope re_scope.
Delimit Scope re_scope with re.
Bind Scope re_scope with regex.
Infix "·" := RSeq (at level 60, right associativity) : re_scope.

End Re.

(* ===================================================================== *)
(** ** Exceptions ([mir_parser.py], class [ParseError]) *)
(* ===================================================================== *)

Module Exn.
Import PyStr.

(** [' / '.join(parts)] *)
Fixpoint join (sep : string) (parts : list string) : string :=
  match parts with
  | [] => ""
  | [p] => p
  | p :: ps => p +:+ sep +:+ join sep ps
  end.

Inductive exn : Type :=
| ValueError (msg : string)
| ParseError (full_msg function basic_block : string) (line : Z).

(** [ParseError.__init__] *)
Definition mk_ParseError (message function basic_block : string) (line : Z)
    : exn :=
  let parts :=
    ((if truthy function then ["function " +:+ function] else []) ++
     (if truthy basic_block then ["basic block " +:+ basic_block] else []) ++
     (if negb (line =? 0) then ["near line " +:+ pretty line] else []))%list
  in
  let full_msg :=
    match parts with
    | [] => message
    | _ => message +:+ " (in " +:+ join " / " parts +:+ ")"
    end in
  ParseError full_msg function basic_block line.

(** [str(e)] *)
Definition str_exn (e : exn) : string :=
  match e with
  | ValueError msg => msg
  | ParseError full_msg _ _ _ => full_msg
  end.

(** Result of running a piece of the parser: a value, a raised exception,
    or a loop cut short by its fuel. *)
Inductive outcome (A : Type) : Type :=
| Ret (a : A)
| Raise (e : exn)
| NoFuel.
Global Arguments Ret {A} a.
Global Arguments Raise {A} e.
Global Arguments NoFuel {A}.

Global Instance outcome_ret : MRet outcome := λ A a, Ret a.
Global Instance outcome_bind : MBind outcome := λ A B f m,
  match m with
  | Ret a => f a
  | Raise e => Raise e
  | NoFuel => NoFuel
  end.

(** The message of the [ValueError] for a string of too many digits. *)
Definition int_limit_msg (digits : nat) : string :=
  "Exceeds the limit (" +:+ pretty (Z.of_nat int_max_str_digits)
  +:+ " digits) for integer string conversion: value has "
  +:+ pretty (Z.of_nat digits)
  +:+ " digits; use sys.set_int_max_str_digits() to increase the limit".

(** [int(s)] in the exception monad. *)
Definition int_of (s : string) : outcome Z :=
  match py_int s with
  | Some z => Ret z
  | None =>
      if (int_max_str_digits <? digit_prefix_len s)%nat then
        Raise (ValueError (int_limit_msg (digit_prefix_len s)))
      else
        Raise (ValueError
                 ("invalid literal for int() with base 10: '" +:+ s +:+ "'"))
  end.

(** [[int(x) for x in xs]] *)
Fixpoint ints_of (xs : list string) : outcome (list Z) :=
  match xs with
  | [] => Ret []
  | x :: xs' => z ← int_of x; zs ← ints_of xs'; Ret (z :: zs)
  end.

(** [int(g) if g else None] *)
Definition opt_int_of (g : option string) : outcome (option Z) :=
  if truthy_opt g then z ← int_of (default "" g); Ret (Some z)
  else Ret None.
End Exn.

(* ===================================================================== *)
(** ** [mir_model.py] *)
(* ===================================================================== *)

Record LocalDecl : Type := mkLocalDecl {
  ld_name : string;
  ty_str : string;
  is_mut : bool
}.

Inductive Terminator : Type :=
| TerminatorGoto (target_bb : Z)
| TerminatorReturn
| TerminatorSwitch (targets : list Z)
| TerminatorDrop (local : string) (return_target : Z)
    (unwind_target : option Z)
| TerminatorCall (lhs : option string) (callee args_str : string)
    (return_target : Z) (unwind_target : option Z).

Record BasicBlock : Type := mkBasicBlock {
  bb_id : Z;
  statements : list string;
  terminator : option Terminator;
  is_cleanup : bool;
  line_start : Z
}.

Record MirFunction : Type := mkMirFunction {
  name : string;
  locals : list LocalDecl;
  basic_blocks : list BasicBlock;
  guard_to_mutex_key : gmap string string;
  ref_to_base : gmap string string
}.

(* ===================================================================== *)
(** ** [mir_parser.py] *)
(* ===================================================================== *)

Module MirParser.
Import PyStr Re Exn.
Local Open Scope re_scope.

(** The patterns of the sources are quoted in the layout of [re.VERBOSE]:
    the blanks between their tokens are not part of them. *)

(** [(?: ^ | , ) \s* (?: move \s+ )? ( _ \d+ ) \b] *)
Definition first_local_pattern : regex :=
  RAlt RBos (RLit ",") · RStar CSpace · ROpt (RLit "move" · RPlus CSpace) ·
  RGroup 1 (RLit "_" · RPlus CDigit) · RWordB.

Definition _extract_first_local (args_str : string) : option string :=
  match re_search first_local_pattern (strip args_str) with
  | Some m => group m 1
  | None => None
  end.

(** [ref_to_base.get(local, local)] *)
Definition _resolve_mutex_key (local : string)
    (ref_to_base : gmap string string) : string :=
  default local (ref_to_base !! local).

(** [fn \s+ ( \w+ ) \s* \( [^)]* \) \s* -> \s* [^{]* \{] *)
Definition fn_pattern : regex :=
  RLit "fn" · RPlus CSpace · RGroup 1 (RPlus CWord) · RStar CSpace ·
  RLit "(" · RStar (CNot ")") · RLit ")" · RStar CSpace · RLit "->" ·
  RStar CSpace · RStar (CNot "{") · RLit "{".

(** [let \s+ ( mut \s+ )? ( _ \d+ ) \s* : \s* ( [^;]+ ) ;] *)
Definition let_pattern : regex :=
  RLit "let" · RPlus CSpace · ROpt (RGroup 1 (RLit "mut" · RPlus CSpace)) ·
  RGroup 2 (RLit "_" · RPlus CDigit) · RStar CSpace · RLit ":" ·
  RStar CSpace · RGroup 3 (RPlus (CNot ";")) · RLit ";".

(** [( _ \d+ ) \s* = \s* & ( _ \d+ ) \s* ;] *)
Definition ref_pattern : regex :=
  RGroup 1 (RLit "_" · RPlus CDigit) · RStar CSpace · RLit "=" ·
  RStar CSpace · RLit "&" · RGroup 2 (RLit "_" · RPlus CDigit) ·
  RStar CSpace · RLit ";".

(** [bb ( \d+ ) \s* (?: \(cleanup\) )? \s* : \s* \{] *)
Definition bb_pattern : regex :=
  RLit "bb" · RGroup 1 (RPlus CDigit) · RStar CSpace ·
  ROpt (RLit "(cleanup)") · RStar CSpace · RLit ":" · RStar CSpace ·
  RLit "{".

(** [goto \s* -> \s* bb ( \d+ ) \s* ;] *)
Definition goto_pattern : regex :=
  RLit "goto" · RStar CSpace · RLit "->" · RStar CSpace · RLit "bb" ·
  RGroup 1 (RPlus CDigit) · RStar CSpace · RLit ";".

(** [return \s* ;] *)
Definition return_pattern : regex :=
  RLit "return" · RStar CSpace · RLit ";".

(** The common tail
    [\s* -> \s* \[return: \s* bb ( \d+ )
     (?: , \s* unwind: \s* (?: bb ( \d+ ) | continue | terminate [^]]* ) )?
     \] \s* ;]
    of the drop and call patterns, with its groups numbered [g] and
    [g + 1]. *)
Definition targets_tail (g : nat) : regex :=
  RStar CSpace · RLit "->" · RStar CSpace · RLit "[return:" ·
  RStar CSpace · RLit "bb" · RGroup g (RPlus CDigit) ·
  ROpt (RLit "," · RStar CSpace · RLit "unwind:" · RStar CSpace ·
        RAlt (RLit "bb" · RGroup (S g) (RPlus CDigit))
             (RAlt (RLit "continue")
                   (RLit "terminate" · RStar (CNot "]")))) ·
  RLit "]" · RStar CSpace · RLit ";".

(** [drop \s* \( ( [^)]+ ) \)] followed by the targets tail
    (groups 2, 3). *)
Definition drop_pattern : regex :=
  RLit "drop" · RStar CSpace · RLit "(" · RGroup 1 (RPlus (CNot ")")) ·
  RLit ")" · targets_tail 2.

(** [switchInt \s* \( [^)]+ \) \s* -> \s* \[ ( [^\]]+ ) \] \s* ;] *)
Definition switch_pattern : regex :=
  RLit "switchInt" · RStar CSpace · RLit "(" · RPlus (CNot ")") ·
  RLit ")" · RStar CSpace · RLit "->" · RStar CSpace · RLit "[" ·
  RGroup 1 (RPlus (CNot "]")) · RLit "]" · RStar CSpace · RLit ";".

(** [(?: ( \w+ ) \s* = \s* )? ( [^(]+ ) \( ( [^)]* ) \)] followed by the
    targets tail (groups 4, 5). *)
Definition call_pattern : regex :=
  ROpt (RGroup 1 (RPlus CWord) · RStar CSpace · RLit "=" · RStar CSpace) ·
  RGroup 2 (RPlus (CNot "(")) · RLit "(" · RGroup 3 (RStar (CNot ")")) ·
  RLit ")" · targets_tail 4.

(** [bb ( \d+ )], the pattern of [re.findall] on a switch's target
    list. *)
Definition bb_ref_pattern : regex := RLit "bb" · RGroup 1 (RPlus CDigit).

(** [scope \s+ \d+] and [debug \s+] *)
Definition scope_pattern : regex :=
  RLit "scope" · RPlus CSpace · RPlus CDigit.
Definition debug_pattern : regex := RLit "debug" · RPlus CSpace.

(** [("Mutex" in callee and "lock" in callee)
     or "mutex::lock" in callee.lower()] *)
Definition is_lock_callee (callee : string) : bool :=
  (contains "Mutex" callee && contains "lock" callee)
  || contains "mutex::lock" (lower callee).

(** [("::unwrap" in callee or "::expect" in callee)] *)
Definition is_unwrap_callee (callee : string) : bool :=
  contains "::unwrap" callee || contains "::expect" callee.

(** The guard bookkeeping done on a call terminator (lines 200-211 of
    [mir_parser.py]): a lock-shaped callee binds its [lhs] to the resolved
    key of the first local argument; an [unwrap]/[expect] callee passes
    the key of its first local argument on to its [lhs]. *)
Definition bind_guard (lhs : option string) (callee args_str : string)
    (ref_to_base guard_to_mutex_key : gmap string string)
    : gmap string string :=
  if is_lock_callee callee then
    match _extract_first_local args_str with
    | Some first_arg =>
        if truthy first_arg then
          let mutex_key := _resolve_mutex_key first_arg ref_to_base in
          match lhs with
          | Some l =>
              if truthy l then <[l := mutex_key]> guard_to_mutex_key
              else guard_to_mutex_key
          | None => guard_to_mutex_key
          end
        else guard_to_mutex_key
    | None => guard_to_mutex_key
    end
  else if is_unwrap_callee callee && truthy_opt lhs then
    match _extract_first_local args_str, lhs with
    | Some first_arg, Some l =>
        if truthy first_arg then
          match guard_to_mutex_key !! first_arg with
          | Some key => <[l := key]> guard_to_mutex_key
          | None => guard_to_mutex_key
          end
        else guard_to_mutex_key
    | _, _ => guard_to_mutex_key
    end
  else guard_to_mutex_key.

(** [for bl in reversed(block_lines)]: the last line that matches a
    terminator pattern decides; the patterns are tried in the fixed order
    goto, return, drop, switchInt, call.  (The sources run each search
    twice, in the test and in the assignment; the two agree.) *)
Fixpoint find_terminator (rev_lines : list string)
    (ref_to_base guard_to_mutex_key : gmap string string)
    : outcome (option Terminator * gmap string string) :=
  match rev_lines with
  | [] => Ret (None, guard_to_mutex_key)
  | bl :: rest =>
      let bs := strip bl in
      match re_search goto_pattern bs with
      | Some tm =>
          t ← int_of (group_str tm 1);
          Ret (Some (TerminatorGoto t), guard_to_mutex_key)
      | None =>
      match re_search return_pattern bs with
      | Some _ => Ret (Some TerminatorReturn, guard_to_mutex_key)
      | None =>
      match re_search drop_pattern bs with
      | Some dm =>
          r ← int_of (group_str dm 2);
          u ← opt_int_of (group dm 3);
          Ret (Some (TerminatorDrop (strip (group_str dm 1)) r u),
               guard_to_mutex_key)
      | None =>
      match re_search switch_pattern bs with
      | Some sm =>
          targets ← ints_of (re_findall bb_ref_pattern (group_str sm 1));
          Ret (Some (TerminatorSwitch targets), guard_to_mutex_key)
      | None =>
      match re_search call_pattern bs with
      | Some cm =>
          let lhs := group cm 1 in
          let callee := strip (group_str cm 2) in
          let args_str := strip (group_str cm 3) in
          r ← int_of (group_str cm 4);
          u ← opt_int_of (group cm 5);
          Ret (Some (TerminatorCall lhs callee args_str r u),
               bind_guard lhs callee args_str ref_to_base
                 guard_to_mutex_key)
      | None => find_terminator rest ref_to_base guard_to_mutex_key
      end end end end end
  end.

(** The inner [while j < len(lines)] loop: [tail] is [lines[j:]].  It
    stops in front of the next block header, or just after a bare
    closing brace, and records every reference assignment it passes. *)
Fixpoint scan_block (tail : list string) (j : nat)
    (block_lines : list string) (ref_to_base : gmap string string)
    : list string * gmap string string * nat :=
  match tail with
  | [] => (block_lines, ref_to_base, j)
  | bl :: tail' =>
      let bl_stripped := strip bl in
      if bool_decide (is_Some (re_match bb_pattern bl_stripped)) then
        (block_lines, ref_to_base, j)
      else if String.eqb bl_stripped "}" then
        (block_lines, ref_to_base, S j)
      else
        let ref_to_base' :=
          match re_search ref_pattern bl_stripped with
          | Some ref_m =>
              <[group_str ref_m 1 := group_str ref_m 2]> ref_to_base
          | None => ref_to_base
          end in
        scan_block tail' (S j) (block_lines ++ [bl]) ref_to_base'
  end.

(** The mutable locals of [_parse_function_body]. *)
Record pstate : Type := PState {
  ps_locals : list LocalDecl;
  ps_ref_to_base : gmap string string;
  ps_basic_blocks : list BasicBlock;
  ps_guard_to_mutex_key : gmap string string;
  ps_seen_bb : bool
}.

(** [block_lines[:-1] if terminator and block_lines else block_lines] *)
Definition statements_of (terminator : option Terminator)
    (block_lines : list string) : list string :=
  match terminator, block_lines with
  | Some _, _ :: _ => removelast block_lines
  | _, _ => block_lines
  end.

(** The body of [if bb_m:] in the outer loop: one basic block, starting
    at line [i] (the header [ln]).  Returns the updated locals and the
    index [j] at which the outer loop resumes. *)
Definition parse_block (lines : list string) (fn_start_line : Z) (i : nat)
    (ln : string) (bb_m : match_obj) (st : pstate)
    : outcome (pstate * nat) :=
  bb_id ← int_of (group_str bb_m 1);
  let is_cleanup := contains "(cleanup)" ln in
  let line_start := fn_start_line + Z.of_nat i + 1 in
  let '(block_lines, ref_to_base, j) :=
    scan_block (drop (S i) lines) (S i) [] (ps_ref_to_base st) in
  '(terminator, guard_to_mutex_key) ←
    find_terminator (rev block_lines) ref_to_base
      (ps_guard_to_mutex_key st);
  let bb :=
    mkBasicBlock bb_id (statements_of terminator block_lines) terminator
      is_cleanup line_start in
  Ret (PState (ps_locals st) ref_to_base (ps_basic_blocks st ++ [bb])
         guard_to_mutex_key true,
       j).

(** The outer [while i < len(lines)] loop. *)
Fixpoint parse_lines (fuel : nat) (lines : list string)
    (fn_start_line : Z) (i : nat) (st : pstate) : outcome pstate :=
  match fuel with
  | O => NoFuel
  | S fuel' =>
      match lines !! i with
      | None => Ret st
      | Some ln =>
          let stripped := strip ln in
          if bool_decide (is_Some (re_match scope_pattern stripped))
             || bool_decide (is_Some (re_match debug_pattern stripped))
          then parse_lines fuel' lines fn_start_line (S i) st
          else
            match re_search let_pattern stripped, ps_seen_bb st with
            | Some let_m, false =>
                let decl :=
                  mkLocalDecl (group_str let_m 2)
                    (strip (group_str let_m 3))
                    (bool_decide (is_Some (group let_m 1))) in
                parse_lines fuel' lines fn_start_line (S i)
                  (PState (ps_locals st ++ [decl]) (ps_ref_to_base st)
                     (ps_basic_blocks st) (ps_guard_to_mutex_key st)
                     (ps_seen_bb st))
            | _, _ =>
                match re_match bb_pattern stripped with
                | Some bb_m =>
                    '(st', j) ←
                      parse_block lines fn_start_line i ln bb_m st;
                    parse_lines fuel' lines fn_start_line j st'
                | None => parse_lines fuel' lines fn_start_line (S i) st
                end
            end
      end
  end.

(** Every turn of the outer loop moves [i] forward, so one unit of fuel
    per line, and one for the final test, is enough. *)
Definition _parse_function_body (fn_name body : string) (fn_start_line : Z)
    : outcome MirFunction :=
  let lines := split_lines body in
  st ← parse_lines (S (List.length lines)) lines fn_start_line 0
         (PState [] ∅ [] ∅ false);
  Ret (mkMirFunction fn_name (ps_locals st) (ps_basic_blocks st)
         (ps_guard_to_mutex_key st) (ps_ref_to_base st)).

(** [text[n:]] *)
Fixpoint str_drop (n : nat) (s : string) : string :=
  match n, s with
  | S n', String _ s' => str_drop n' s'
  | _, _ => s
  end.

(** The brace matcher, [while i < len(text) and depth > 0]; [rest] is
    [text[i:]]. *)
Fixpoint brace_scan (rest : string) (i : nat) (depth : Z) : nat :=
  match rest with
  | String c rest' =>
      if depth >? 0 then
        brace_scan rest' (S i)
          (if Ascii.eqb c "{" then depth + 1
           else if Ascii.eqb c "}" then depth - 1
           else depth)
      else i
  | EmptyString => i
  end.

(** The [while True] loop of [parse_mir]. *)
Fixpoint parse_mir_loop (fuel : nat) (text : string) (pos : nat)
    (functions : list MirFunction) : outcome (list MirFunction) :=
  match fuel with
  | O => NoFuel
  | S fuel' =>
      match re_search_from fn_pattern text pos with
      | None => Ret functions
      | Some m =>
          let fn_name := group_str m 1 in
          let fn_start :=
            Z.of_nat (count_newlines (slice text 0 (m_start m))) + 1 in
          let i := brace_scan (str_drop (m_end m) text) (m_end m) 1 in
          let fn_body := slice text (m_end m) (i - 1) in
          match _parse_function_body fn_name fn_body fn_start with
          | Ret func => parse_mir_loop fuel' text i (functions ++ [func])
          | Raise (ParseError _ _ _ _ as e) => Raise e
          | Raise e =>
              Raise (mk_ParseError (str_exn e) fn_name "" fn_start)
          | NoFuel => NoFuel
          end
      end
  end.

(** Each header found lies beyond the previous function, so the number of
    turns is bounded by the length of the text. *)
Definition parse_mir (text : string) : outcome (list MirFunction) :=
  parse_mir_loop (S (String.length text)) text 0 [].

End MirParser.

(* ===================================================================== *)
(** ** [pn_model.py] *)
(* ===================================================================== *)

(** Annotations are a [dict] from keys to values that are only ever
    printed with [str]; they are kept as the list of their items. *)
Record Place : Type := mkPlace {
  p_id : string;
  p_name : string;
  p_kind : string;                      (* cfg, mutex_free, mutex_held *)
  init_tokens : Z;
  capacity : option Z;
  p_annotations : list (string * string)
}.

Record Transition : Type := mkTransition {
  t_id : string;
  t_name : string;
  t_kind : string;                      (* cfg, lock, unlock *)
  op : option string;
  t_annotations : list (string * string)
}.

Record Arc : Type := mkArc {
  a_id : string;
  source : string;
  target : string;
  weight : Z
}.

(** One entry of [net.warnings]. *)
Record Warning : Type := mkWarning {
  w_function : string;
  w_basic_block : string;
  w_line : Z;
  w_reason : string;
  w_callee : option string
}.

Record PetriNet : Type := mkPetriNet {
  places : list Place;
  transitions : list Transition;
  arcs : list Arc;
  initial_marking : gmap string Z;
  warnings : list Warning
}.

(** [PetriNet.place_by_id], [PetriNet.transition_by_id] *)
Definition place_by_id (net : PetriNet) (pid : string) : option Place :=
  List.find (λ p, String.eqb (p_id p) pid) (places net).

Definition transition_by_id (net : PetriNet) (tid : string)
    : option Transition :=
  List.find (λ t, String.eqb (t_id t) tid) (transitions net).

(* ===================================================================== *)
(** ** [pn_builder.py] *)
(* ===================================================================== *)

Module PnBuilder.
Import PyStr.

(** What the closures of [build_petri_net] share: the net under
    construction, the two sets of ids already inserted and the arc
    counter. *)
Record builder : Type := Builder {
  net : PetriNet;
  seen_places : gset string;
  seen_transitions : gset string;
  arc_id_counter : Z
}.

Definition init_builder : builder :=
  Builder (mkPetriNet [] [] [] ∅ []) ∅ ∅ 0.

Definition add_place (place : Place) (b : builder) : builder :=
  if decide (p_id place ∈ seen_places b) then b
  else
    let n := net b in
    Builder
      (mkPetriNet (places n ++ [place]) (transitions n) (arcs n)
         (if init_tokens place >? 0
          then <[p_id place := init_tokens place]> (initial_marking n)
          else initial_marking n)
         (warnings n))
      ({[p_id place]} ∪ seen_places b) (seen_transitions b)
      (arc_id_counter b).

Definition add_transition (t : Transition) (b : builder) : builder :=
  if decide (t_id t ∈ seen_transitions b) then b
  else
    let n := net b in
    Builder
      (mkPetriNet (places n) (transitions n ++ [t]) (arcs n)
         (initial_marking n) (warnings n))
      (seen_places b) ({[t_id t]} ∪ seen_transitions b)
      (arc_id_counter b).

(** [add_arc], with [next_arc_id] inlined. *)
Definition add_arc (source target : string) (weight : Z) (b : builder)
    : builder :=
  let c := arc_id_counter b + 1 in
  let aid := "arc_" +:+ pretty c in
  let n := net b in
  Builder
    (mkPetriNet (places n) (transitions n)
       (arcs n ++ [mkArc aid source target weight])
       (initial_marking n) (warnings n))
    (seen_places b) (seen_transitions b) c.

(** [net.warnings.append({...})] *)
Definition add_warning (w : Warning) (b : builder) : builder :=
  let n := net b in
  Builder
    (mkPetriNet (places n) (transitions n) (arcs n) (initial_marking n)
       (warnings n ++ [w]))
    (seen_places b) (seen_transitions b) (arc_id_counter b).

(** The id scheme. *)
Definition entry_id (f : string) : string := "p_" +:+ f +:+ "_entry".
Definition exit_id (f : string) : string := "p_" +:+ f +:+ "_exit".
Definition bb_place_id (f : string) (k : Z) : string :=
  "p_" +:+ f +:+ "_bb" +:+ pretty k.
Definition mutex_free_id (key : string) : string :=
  "p_mutex_" +:+ key +:+ "_free".
Definition mutex_held_id (key : string) : string :=
  "p_mutex_" +:+ key +:+ "_held".
Definition start_id (f : string) : string := "t_" +:+ f +:+ "_start".
Definition edge_id (f : string) (k m : Z) : string :=
  "t_" +:+ f +:+ "_bb" +:+ pretty k +:+ "_to_bb" +:+ pretty m.
Definition return_id (f : string) (k : Z) : string :=
  "t_" +:+ f +:+ "_bb" +:+ pretty k +:+ "_return".

(** The display name is the id without its two-character prefix. *)
Definition entry_place (f : string) (is_entry : bool) : Place :=
  mkPlace (entry_id f) (f +:+ "_entry") "cfg" (if is_entry then 1 else 0)
    None [].
Definition exit_place (f : string) : Place :=
  mkPlace (exit_id f) (f +:+ "_exit") "cfg" 0 None [].
Definition bb_place (f : string) (k : Z) : Place :=
  mkPlace (bb_place_id f k) (f +:+ "_bb" +:+ pretty k) "cfg" 0 None [].
Definition mutex_free_place (key : string) : Place :=
  mkPlace (mutex_free_id key) ("mutex_" +:+ key +:+ "_free") "mutex_free"
    1 None [].
Definition mutex_held_place (key : string) : Place :=
  mkPlace (mutex_held_id key) ("mutex_" +:+ key +:+ "_held") "mutex_held"
    0 None [].

Definition _extract_first_local := MirParser._extract_first_local.
Definition _resolve_mutex_key := MirParser._resolve_mutex_key.

Definition _ensure_mutex_places (key : string) (b : builder) : builder :=
  add_place (mutex_held_place key) (add_place (mutex_free_place key) b).

(** First loop of [_build_function_net]: a place per non-cleanup block,
    and the table [bb_to_place]. *)
Definition alloc_block (f : string) (acc : gmap Z string * builder)
    (bb : BasicBlock) : gmap Z string * builder :=
  if is_cleanup bb then acc
  else
    let pid := bb_place_id f (bb_id bb) in
    (<[bb_id bb := pid]> (fst acc),
     add_place (bb_place f (bb_id bb)) (snd acc)).

(** [next((b for b in fn.basic_blocks if not b.is_cleanup), None)] *)
Definition first_non_cleanup (bbs : list BasicBlock) : option BasicBlock :=
  List.find (λ b, negb (is_cleanup b)) bbs.

(** The start transition, [entry -> t_start -> first block].  The lookup
    [bb_to_place[first_bb.bb_id]] cannot miss: the first loop entered
    every non-cleanup block. *)
Definition add_start (f : string) (bbs : list BasicBlock)
    (bb_to_place : gmap Z string) (b : builder) : builder :=
  match first_non_cleanup bbs with
  | Some first_bb =>
      let t_start :=
        mkTransition (start_id f) (f +:+ "_start") "cfg" None [] in
      add_arc (t_id t_start) (bb_to_place !!! bb_id first_bb) 1
        (add_arc (entry_id f) (t_id t_start) 1
           (add_transition t_start b))
  | None => b
  end.

(** What the [isinstance] cascade computes for one terminator: the
    successor list, the lock key, the unlock key; warnings go to the
    net. *)
Definition classify (f : string) (fn : MirFunction) (bb : BasicBlock)
    (term : Terminator) (b : builder)
    : list Z * option string * option string * builder :=
  let warn reason callee :=
    add_warning
      (mkWarning f ("bb" +:+ pretty (bb_id bb)) (line_start bb) reason
         callee) b in
  match term with
  | TerminatorGoto target_bb => ([target_bb], None, None, b)
  | TerminatorReturn => ([], None, None, b)
  | TerminatorSwitch targets => (targets, None, None, b)
  | TerminatorDrop local return_target _ =>
      match guard_to_mutex_key fn !! local with
      | Some key => ([return_target], None, Some key, b)
      | None =>
          ([return_target], None, None,
           warn ("drop(" +:+ local +:+ ") not in guard binding table")
             (Some "drop"))
      end
  | TerminatorCall _ callee args_str return_target _ =>
      if MirParser.is_lock_callee callee then
        match _extract_first_local args_str with
        | Some first_arg =>
            if truthy first_arg then
              ([return_target],
               Some (_resolve_mutex_key first_arg (ref_to_base fn)),
               None, b)
            else
              ([return_target], None, None,
               warn "Mutex::lock call but no local in args" (Some callee))
        | None =>
            ([return_target], None, None,
             warn "Mutex::lock call but no local in args" (Some callee))
        end
      else
        ([return_target], None, None,
         warn "unrecognized call, treated as CFG edge" (Some callee))
  end.

(** [if dst_place: add_arc(t.id, dst_place, 1)] *)
Definition add_dst_arc (tid : string) (dst : option string) (b : builder)
    : builder :=
  match dst with
  | Some dst_place =>
      if truthy dst_place then add_arc tid dst_place 1 b else b
  | None => b
  end.

(** [if mutex_lock_key: ...]: the acquisition arcs. *)
Definition add_lock_arcs (tid : string) (mutex_lock_key : option string)
    (b : builder) : builder :=
  match mutex_lock_key with
  | Some key =>
      if truthy key then
        add_arc tid (mutex_held_id key) 1
          (add_arc (mutex_free_id key) tid 1 (_ensure_mutex_places key b))
      else b
  | None => b
  end.

(** [if mutex_unlock_key: ...]: the release arcs. *)
Definition add_unlock_arcs (tid : string) (mutex_unlock_key : option string)
    (b : builder) : builder :=
  match mutex_unlock_key with
  | Some key =>
      if truthy key then
        add_arc tid (mutex_free_id key) 1
          (add_arc (mutex_held_id key) tid 1 (_ensure_mutex_places key b))
      else b
  | None => b
  end.

(** The transition of the edge from [bb] to [target_bb]. *)
Definition edge_transition (f : string) (bb : BasicBlock) (target_bb : Z)
    (mutex_lock_key mutex_unlock_key : option string) : Transition :=
  mkTransition (edge_id f (bb_id bb) target_bb)
    (f +:+ "_bb" +:+ pretty (bb_id bb) +:+ "_to_bb" +:+ pretty target_bb)
    (if truthy_opt mutex_lock_key then "lock"
     else if truthy_opt mutex_unlock_key then "unlock" else "cfg")
    (py_or mutex_lock_key mutex_unlock_key) [].

(** Body of [for target_bb in targets]. *)
Definition add_edge (f : string) (bb : BasicBlock) (src_place : string)
    (bb_to_place : gmap Z string)
    (mutex_lock_key mutex_unlock_key : option string)
    (b : builder) (target_bb : Z) : builder :=
  let t := edge_transition f bb target_bb mutex_lock_key mutex_unlock_key in
  let b := add_transition t b in
  let b := add_arc src_place (t_id t) 1 b in
  let b := add_dst_arc (t_id t) (bb_to_place !! target_bb) b in
  let b := add_lock_arcs (t_id t) mutex_lock_key b in
  add_unlock_arcs (t_id t) mutex_unlock_key b.

(** The exit transition of a [return] block. *)
Definition add_return (f : string) (bb : BasicBlock) (src_place : string)
    (b : builder) : builder :=
  let t_return :=
    mkTransition (return_id f (bb_id bb))
      (f +:+ "_bb" +:+ pretty (bb_id bb) +:+ "_return") "cfg" None [] in
  add_arc (t_id t_return) (exit_id f) 1
    (add_arc src_place (t_id t_return) 1 (add_transition t_return b)).

(** Body of the second loop over [fn.basic_blocks]. *)
Definition process_block (f : string) (fn : MirFunction)
    (bb_to_place : gmap Z string) (b : builder) (bb : BasicBlock)
    : builder :=
  if is_cleanup bb then b
  else
    match bb_to_place !! bb_id bb with
    | None => b
    | Some src_place =>
        if negb (truthy src_place) then b
        else
          match terminator bb with
          | None =>
              add_warning
                (mkWarning f ("bb" +:+ pretty (bb_id bb)) (line_start bb)
                   "no terminator found" None) b
          | Some term =>
              let '(targets, mutex_lock_key, mutex_unlock_key, b) :=
                classify f fn bb term b in
              let b :=
                foldl (add_edge f bb src_place bb_to_place mutex_lock_key
                         mutex_unlock_key) b targets in
              match term with
              | TerminatorReturn => add_return f bb src_place b
              | _ => b
              end
          end
    end.

Definition _build_function_net (fn : MirFunction) (entry_fn : string)
    (b : builder) : builder :=
  let f := name fn in
  let is_entry := bool_decide (f = entry_fn) in
  let b := add_place (entry_place f is_entry) b in
  let b := add_place (exit_place f) b in
  let '(bb_to_place, b) := foldl (alloc_block f) (∅, b) (basic_blocks fn) in
  let b := add_start f (basic_blocks fn) bb_to_place b in
  foldl (process_block f fn bb_to_place) b (basic_blocks fn).

(** [functions[:max_fns]], also for a negative bound. *)
Definition py_take {A} (l : list A) (n : Z) : list A :=
  if 0 <=? n then take (Z.to_nat n) l
  else take (List.length l - Z.to_nat (- n)) l.

Definition fns_to_process (functions : list MirFunction)
    (max_fns : option Z) : list MirFunction :=
  match max_fns with
  | Some n => py_take functions n
  | None => functions
  end.

Definition run_builder (functions : list MirFunction) (entry_fn : string)
    (max_fns : option Z) : builder :=
  foldl (λ b fn, _build_function_net fn entry_fn b) init_builder
    (fns_to_process functions max_fns).

Definition build_petri_net (functions : list MirFunction)
    (entry_fn : string) (max_fns : option Z) : PetriNet :=
  net (run_builder functions entry_fn max_fns).

End PnBuilder.

(* ===================================================================== *)
(** ** [pnml_writer.py] *)
(* ===================================================================== *)

Module PnmlWriter.

(** An [xml.etree.ElementTree.Element]: tag, attributes, text, children. *)
Inductive Element : Type :=
| Elem (tag : string) (attrib : list (string * string))
    (text : option string) (children : list Element).

Definition PNML_NS : string :=
  "http://www.pnml.org/version-2009/grammar/ptnet".

(** [<tag><text>s</text></tag>] *)
Definition text_child (tag s : string) : Element :=
  Elem tag [] None [Elem "text" [] (Some s) []].

Definition _add_toolspecific (annotations : list (string * string))
    : Element :=
  Elem "toolspecific" [("tool", "mir2pnml_py"); ("version", "0.1")] None
    (map (λ kv, Elem (fst kv) [] (Some (snd kv)) []) annotations).

Definition place_elem (p : Place) : Element :=
  Elem "place" [("id", p_id p)] None
    ([text_child "name" (p_name p)]
     ++ (if init_tokens p >? 0
         then [text_child "initialMarking" (pretty (init_tokens p))]
         else [])
     ++ (match p_annotations p with
         | [] => []
         | ann => [_add_toolspecific ann]
         end))%list.

Definition transition_elem (t : Transition) : Element :=
  Elem "transition" [("id", t_id t)] None
    ([text_child "name" (t_name t)]
     ++ (match t_annotations t with
         | [] => []
         | ann => [_add_toolspecific ann]
         end))%list.

Definition arc_elem (a : Arc) : Element :=
  Elem "arc" [("id", a_id a); ("source", source a); ("target", target a)]
    None
    (if negb (weight a =? 1)
     then [text_child "inscription" (pretty (weight a))]
     else []).

(** The element tree [write_pnml] builds and hands to [tree.write];
    [_indent] only sets blank [text] and [tail] strings on it. *)
Definition write_pnml (net : PetriNet) : Element :=
  Elem "pnml" [] None
    [Elem "net" [("id", "mir2pnml_net"); ("type", PNML_NS)] None
       [Elem "page" [("id", "page0")] None
          (map place_elem (places net)
           ++ map transition_elem (transitions net)
           ++ map arc_elem (arcs net))%list]].

(** Number of elements with a given tag in a tree. *)
Fixpoint count_tag (tg : string) (e : Element) : nat :=
  match e with
  | Elem tag _ _ children =>
      ((if String.eqb tag tg then 1 else 0)
       + list_sum (map (count_tag tg) children))%nat
  end.

End PnmlWriter.


(* ===================================================================== *)
(** ** Vocabulary of the properties *)
(* ===================================================================== *)

Module Props.
Import PyStr PnBuilder.

(** Number of arcs into, and out of, the node with a given id. *)
Definition in_degree (net : PetriNet) (i : string) : nat :=
  List.length (filter (λ a, target a = i) (arcs net)).

Definition out_degree (net : PetriNet) (i : string) : nat :=
  List.length (filter (λ a, source a = i) (arcs net)).

(** Number of places, and of transitions, carrying a given id. *)
Definition count_place (net : PetriNet) (i : string) : nat :=
  List.length (filter (λ p, p_id p = i) (places net)).

Definition count_transition (net : PetriNet) (i : string) : nat :=
  List.length (filter (λ t, t_id t = i) (transitions net)).

(** The successor list of a terminator (the [targets] of the builder). *)
Definition successors (term : Terminator) : list Z :=
  match term with
  | TerminatorGoto target_bb => [target_bb]
  | TerminatorReturn => []
  | TerminatorSwitch targets => targets
  | TerminatorDrop _ return_target _ => [return_target]
  | TerminatorCall _ _ _ return_target _ => [return_target]
  end.

(** [fn] has a non-cleanup block numbered [m]. *)
Definition has_block (fn : MirFunction) (m : Z) : bool :=
  existsb (λ bb', negb (is_cleanup bb') && (bb_id bb' =? m))
    (basic_blocks fn).

(** Every successor of every non-cleanup block of [fn] is a non-cleanup
    block of [fn]. *)
Definition targets_closed (fn : MirFunction) : bool :=
  forallb
    (λ bb,
       is_cleanup bb
       || match terminator bb with
          | Some term => forallb (has_block fn) (successors term)
          | None => true
          end)
    (basic_blocks fn).

(** A place whose id has the form [p_{fn}_entry]. *)
Definition is_entry_place (p : Place) : Prop := ∃ f, p_id p = entry_id f.

(** The (id, kind, endpoints) triples of a net: places and transitions
    have no endpoints, arcs have no kind. *)
Definition triples (net : PetriNet)
    : list (string * option string * option (string * string)) :=
  (map (λ p, (p_id p, Some (p_kind p), None)) (places net)
   ++ map (λ t, (t_id t, Some (t_kind t), None)) (transitions net)
   ++ map (λ a, (a_id a, None, Some (source a, target a))) (arcs net))%list.

(** The shapes of place the builder creates; [names] are the names of the
    functions it is run on. *)
Definition place_shape (names : list string) (entry_fn : string)
    (p : Place) : Prop :=
  (∃ f, f ∈ names ∧ p = entry_place f (bool_decide (f = entry_fn)))
  ∨ (∃ f, p = exit_place f)
  ∨ (∃ f k, p = bb_place f k)
  ∨ (∃ key, p = mutex_free_place key)
  ∨ (∃ key, p = mutex_held_place key).

(** Coherence of the builder's bookkeeping. *)
Record Inv (names : list string) (entry_fn : string) (b : builder)
    : Prop := mkInv {
  inv_seen_p : ∀ i, i ∈ seen_places b ↔ i ∈ map p_id (places (net b));
  inv_nodup_p : NoDup (map p_id (places (net b)));
  inv_shape : Forall (place_shape names entry_fn) (places (net b));
  inv_seen_t :
    ∀ i, i ∈ seen_transitions b ↔ i ∈ map t_id (transitions (net b));
  inv_nodup_t : NoDup (map t_id (transitions (net b)));
  inv_weight : Forall (λ a, weight a = 1) (arcs (net b));
  inv_tann : Forall (λ t, t_annotations t = []) (transitions (net b))
}.

(** [b'] was obtained from [b] by inserting more. *)
Record Grows (b b' : builder) : Prop := mkGrows {
  gr_seen_p : seen_places b ⊆ seen_places b';
  gr_seen_t : seen_transitions b ⊆ seen_transitions b';
  gr_places : places (net b) `prefix_of` places (net b');
  gr_transitions : transitions (net b) `prefix_of` transitions (net b');
  gr_arcs : arcs (net b) `prefix_of` arcs (net b')
}.

Definition Ext (names : list string) (entry_fn : string) (b b' : builder)
    : Prop :=
  Grows b b' ∧ (Inv names entry_fn b → Inv names entry_fn b').

(** Mutex places of the lock and unlock transitions are present. *)
Definition MutexOk (b : builder) : Prop :=
  ∀ t key,
    t ∈ transitions (net b) →
    t_kind t = "lock" ∨ t_kind t = "unlock" →
    op t = Some key →
    mutex_free_id key ∈ seen_places b ∧ mutex_held_id key ∈ seen_places b.

(** Every transition has an arc into it; every transition has an arc out
    of it. *)
Definition HasIn (b : builder) : Prop :=
  ∀ t, t ∈ transitions (net b) →
    ∃ a, a ∈ arcs (net b) ∧ target a = t_id t.

Definition HasOut (b : builder) : Prop :=
  ∀ t, t ∈ transitions (net b) →
    ∃ a, a ∈ arcs (net b) ∧ source a = t_id t.

(** The transitions fed by the place [pid]. *)
Definition transitions_from (net : PetriNet) (pid : string)
    : list Transition :=
  filter (λ t, Exists (λ a, source a = pid ∧ target a = t_id t) (arcs net))
    (transitions net).

(** The two components of the first loop of [_build_function_net]. *)
Definition alloc_map (f : string) (m : gmap Z string) (bb : BasicBlock)
    : gmap Z string :=
  if is_cleanup bb then m else <[bb_id bb := bb_place_id f (bb_id bb)]> m.

Definition alloc_places (f : string) (b : builder) (bb : BasicBlock)
    : builder :=
  if is_cleanup bb then b else add_place (bb_place f (bb_id bb)) b.

(** The table [bb_to_place] of a function once the first loop is over. *)
Definition bb_to_place_of (fn : MirFunction) : gmap Z string :=
  foldl (alloc_map (name fn)) ∅ (basic_blocks fn).

End Props.

(* ===================================================================== *)
(** ** Vocabulary of the parser properties *)
(* ===================================================================== *)

Module ParserProps.
Import PyStr Re Exn MirParser.

(** An ordinary line of a block body: not the header of the next block
    and not a bare closing brace. *)
Definition block_line (bl : string) : bool :=
  negb (bool_decide (is_Some (re_match bb_pattern (strip bl))))
  && negb (String.eqb (strip bl) "}").

(** The reference assignment [_i = &_j;] a line contains, if any. *)
Definition ref_binding (bl : string) : option (string * string) :=
  match re_search ref_pattern (strip bl) with
  | Some ref_m => Some (group_str ref_m 1, group_str ref_m 2)
  | None => None
  end.

(** The line rebinds the local [i]. *)
Definition binds (i : string) (bl : string) : bool :=
  match ref_binding bl with
  | Some (i', _) => String.eqb i' i
  | None => false
  end.

(** The depth counter of the brace matcher stays positive to the end of
    the text: the braces opened are never all closed. *)
Fixpoint unbalanced (rest : string) (depth : Z) : bool :=
  match rest with
  | String c rest' =>
      (0 <? depth)
      && unbalanced rest'
           (if Ascii.eqb c "{" then depth + 1
            else if Ascii.eqb c "}" then depth - 1
            else depth)
  | EmptyString => 0 <? depth
  end.

(** The words a pattern matches, captures and anchors left aside. *)
Fixpoint all_in (cc : cclass) (w : string) : bool :=
  match w with
  | String a w' => cc_test cc a && all_in cc w'
  | EmptyString => true
  end.

Fixpoint matches (r : regex) (w : string) : Prop :=
  match r with
  | RLit s => w = s
  | RStar cc => all_in cc w = true
  | RPlus cc => w ≠ "" ∧ all_in cc w = true
  | RSeq r1 r2 => ∃ w1 w2, w = w1 +:+ w2 ∧ matches r1 w1 ∧ matches r2 w2
  | RAlt r1 r2 => matches r1 w ∨ matches r2 w
  | ROpt r1 => w = "" ∨ matches r1 w
  | RGroup _ r1 => matches r1 w
  | RBos => w = ""
  | RWordB => w = ""
  end.

(** The matcher went from [st] to [st'] by reading the word [w]. *)
Definition advances (st st' : mstate) (w : string) : Prop :=
  ms_rest st = w +:+ ms_rest st'
  ∧ ms_pos st' = (ms_pos st + String.length w)%nat.

(** Least number of characters a match of the pattern consumes. *)
Fixpoint min_len (r : regex) : nat :=
  match r with
  | RLit s => String.length s
  | RStar _ => 0
  | RPlus _ => 1
  | RSeq r1 r2 => min_len r1 + min_len r2
  | RAlt r1 r2 => Nat.min (min_len r1) (min_len r2)
  | ROpt _ => 0
  | RGroup _ r1 => min_len r1
  | RBos => 0
  | RWordB => 0
  end.

(** Every group numbered in [D] captures [\d+] and nothing else. *)
Fixpoint digit_groups (D : list nat) (r : regex) : bool :=
  match r with
  | RSeq r1 r2 | RAlt r1 r2 => digit_groups D r1 && digit_groups D r2
  | ROpt r1 => digit_groups D r1
  | RGroup n r1 =>
      if bool_decide (n ∈ D) then
        match r1 with RPlus CDigit => true | _ => false end
      else digit_groups D r1
  | _ => true
  end.

(** The groups every match of the pattern sets. *)
Fixpoint must_set (r : regex) : list nat :=
  match r with
  | RSeq r1 r2 => must_set r1 ++ must_set r2
  | RGroup n r1 => n :: must_set r1
  | _ => []
  end.

(** A non-empty string of decimal digits. *)
Definition is_literal (s : string) : bool :=
  truthy s && all_in CDigit s.

(** The captured groups numbered in [D] are decimal literals. *)
Definition literal_groups (D : list nat) (g : list (nat * string)) : Prop :=
  ∀ n s, n ∈ D → get_group n g = Some s → is_literal s = true.

(** [w] occurs in [s]. *)
Definition infix (w s : string) : Prop := ∃ a b, s = a +:+ w +:+ b.

(** The captured groups are pieces of [s]. *)
Definition groups_in (s : string) (g : list (nat * string)) : Prop :=
  ∀ n w, get_group n g = Some w → infix w s.

(** Length of the longest run of decimal digits in a string. *)
Fixpoint longest_digit_run (s : string) : nat :=
  match s with
  | String _ s' => Nat.max (digit_prefix_len s) (longest_digit_run s')
  | EmptyString => O
  end.

(** No number in [s] has more digits than [int] converts. *)
Definition short_numbers (s : string) : Prop :=
  (longest_digit_run s ≤ int_max_str_digits)%nat.

(** [s] holds a decimal literal of [n] digits. *)
Definition has_number (s : string) (n : nat) : Prop :=
  ∃ w, infix w s ∧ is_literal w = true ∧ String.length w = n.

(** A piece of the parser working on text taken from [s] returns a value
    that satisfies [P], or raises the [ValueError] of [int] on a number of
    [s] with too many digits; it raises nothing else and does not run out
    of fuel. *)
Definition ret_or_limit {A} (s : string) (P : A → Prop) (o : outcome A)
    : Prop :=
  (∃ a, o = Ret a ∧ P a)
  ∨ (∃ n, o = Raise (ValueError (int_limit_msg n))
          ∧ (int_max_str_digits < n)%nat ∧ has_number s n).

End ParserProps.

(* ===================================================================== *)
(** ** Inputs of the scenarios *)
(* ===================================================================== *)

Module Scenarios.
Import Exn.

(** The functions [parse_mir] returns on a text ([[]] if it raises). *)
Definition parsed (text : string) : list MirFunction :=
  match MirParser.parse_mir text with
  | Ret fs => fs
  | _ => []
  end.

(** [MINIMAL_MIR] of [tests/test_parser.py] and
    [tests/test_end_to_end.py]. *)
Definition MINIMAL_MIR : string := "
fn main() -> () {
    let _1: std::sync::Mutex<i32>;
    let _2: std::sync::MutexGuard<'_, i32>;
    bb0: {
        _2 = std::sync::Mutex::<i32>::lock(move _1) -> [return: bb1, unwind: bb2];
    }
    bb1: {
        drop(_2) -> [return: bb2, unwind: bb2];
    }
    bb2: {
        return;
    }
}
".

(** A [switchInt] with a repeated target. *)
Definition mir_switch_dup : string := "fn f() -> () {
    bb0: {
        switchInt(move _1) -> [0: bb1, 1: bb1, otherwise: bb2];
    }
    bb1: {
        return;
    }
    bb2: {
        return;
    }
}
".

(** A [goto] into a cleanup block. *)
Definition mir_goto_cleanup : string := "fn main() -> () {
    bb0: {
        goto -> bb1;
    }
    bb1 (cleanup): {
        resume;
    }
}
".



(** A local bound twice by reference assignments, and a guard bound by
    two lock calls. *)
Definition mir_rebind : string := "fn main() -> () {
    bb0: {
        _3 = &_1;
        _3 = &_2;
        _4 = Mutex::lock(move _1) -> [return: bb1, unwind: bb3];
    }
    bb1: {
        _4 = Mutex::lock(move _2) -> [return: bb2, unwind: bb3];
    }
    bb2: {
        return;
    }
}
".



(** A function around that block, in which [_1] is itself bound by an
    earlier reference assignment. *)
Definition mir_aliasing : string := "fn main() -> () {
    bb0: {
        _1 = &_7;
        goto -> bb1;
    }
    bb1: {
        _3 = &_1;
        _2 = Mutex::lock(move _3) -> [return: bb2, unwind: bb3];
    }
    bb2: {
        return;
    }
}
".

(** A dump without a function called [main]. *)
Definition mir_helper_only : string := "fn helper() -> () {
    bb0: {
        return;
    }
}
".

End Scenarios.

(* ===================================================================== *)
(** ** The builder as a sequence of closure calls *)
(* ===================================================================== *)

Module BuildTrace.
Import PyStr PnBuilder Props.

(** One call of a closure of [build_petri_net] ([add_place],
    [add_transition], [add_arc]) or one [net.warnings.append]. *)
Inductive call : Type :=
| AddPlace (p : Place)
| AddTransition (t : Transition)
| AddArc (source target : string) (weight : Z)
| AddWarning (w : Warning).

Definition run_call (b : builder) (o : call) : builder :=
  match o with
  | AddPlace p => add_place p b
  | AddTransition t => add_transition t b
  | AddArc s t w => add_arc s t w b
  | AddWarning w => add_warning w b
  end.

(** The transitions [_build_function_net] creates besides
    [edge_transition]. *)
Definition start_transition (f : string) : Transition :=
  mkTransition (start_id f) (f +:+ "_start") "cfg" None [].

Definition return_transition (f : string) (k : Z) : Transition :=
  mkTransition (return_id f k) (f +:+ "_bb" +:+ pretty k +:+ "_return")
    "cfg" None [].

Definition transition_shape (t : Transition) : Prop :=
  (∃ f, t = start_transition f)
  ∨ (∃ f bb tgt lk uk, t = edge_transition f bb tgt lk uk)
  ∨ (∃ f k, t = return_transition f k).

(** The four warnings of [_build_function_net]; [names] are the names of
    the functions the builder is run on. *)
Definition warning_shape (names : list string) (w : Warning) : Prop :=
  w_function w ∈ names
  ∧ (∃ k : Z, w_basic_block w = "bb" +:+ pretty k)
  ∧ ((w_reason w = "no terminator found" ∧ w_callee w = None)
     ∨ (∃ local,
          w_reason w = "drop(" +:+ local +:+ ") not in guard binding table"
          ∧ w_callee w = Some "drop")
     ∨ (∃ callee,
          w_reason w = "Mutex::lock call but no local in args"
          ∧ w_callee w = Some callee
          ∧ MirParser.is_lock_callee callee = true)
     ∨ (∃ callee,
          w_reason w = "unrecognized call, treated as CFG edge"
          ∧ w_callee w = Some callee
          ∧ MirParser.is_lock_callee callee = false)).

(** An arc from an inserted place to an inserted transition, or the other
    way round. *)
Definition ends_ok (b : builder) (s t : string) : Prop :=
  (s ∈ seen_places b ∧ t ∈ seen_transitions b)
  ∨ (s ∈ seen_transitions b ∧ t ∈ seen_places b).

(** What every call site of the builder guarantees when it runs. *)
Definition call_ok (names : list string) (entry_fn : string) (b : builder)
    (o : call) : Prop :=
  match o with
  | AddPlace p => place_shape names entry_fn p
  | AddTransition t => transition_shape t
  | AddArc s t w => w = 1 ∧ ends_ok b s t
  | AddWarning w => warning_shape names w
  end.

(** [b'] is reached from [b] by calls that satisfy [call_ok]. *)
Inductive Steps (names : list string) (entry_fn : string) (b : builder)
    : builder → Prop :=
| Steps_refl : Steps names entry_fn b b
| Steps_step b' o :
    Steps names entry_fn b b' →
    call_ok names entry_fn b' o →
    Steps names entry_fn b (run_call b' o).

(** The id [next_arc_id] returns on its [k]-th call. *)
Definition arc_name (k : nat) : string := "arc_" +:+ pretty (Z.of_nat k).

(** First character of an id. *)
Definition first_char (s : string) : option ascii := String.get 0 s.

(** All ids of a net: places, transitions, arcs. *)
Definition all_ids (net : PetriNet) : list string :=
  map p_id (places net) ++ map t_id (transitions net)
  ++ map a_id (arcs net).

(** An arc of the net joins a place and a transition of the net. *)
Definition bipartite (net : PetriNet) (a : Arc) : Prop :=
  (source a ∈ map p_id (places net)
   ∧ target a ∈ map t_id (transitions net))
  ∨ (source a ∈ map t_id (transitions net)
     ∧ target a ∈ map p_id (places net)).

(** There is an arc from [s] to [t]. *)
Definition has_arc (net : PetriNet) (s t : string) : Prop :=
  ∃ a, a ∈ arcs net ∧ source a = s ∧ target a = t.

(** A lock transition takes the free place of its key and fills the held
    place; an unlock transition does the converse. *)
Definition mutex_wired (net : PetriNet) (t : Transition) : Prop :=
  ∀ key, op t = Some key →
    (t_kind t = "lock" →
       has_arc net (mutex_free_id key) (t_id t)
       ∧ has_arc net (t_id t) (mutex_held_id key))
    ∧ (t_kind t = "unlock" →
         has_arc net (mutex_held_id key) (t_id t)
         ∧ has_arc net (t_id t) (mutex_free_id key)).

(** [fn] without its cleanup blocks. *)
Definition without_cleanup (fn : MirFunction) : MirFunction :=
  mkMirFunction (name fn) (locals fn)
    (filter (λ bb, is_cleanup bb = false) (basic_blocks fn))
    (guard_to_mutex_key fn) (ref_to_base fn).

End BuildTrace.

(* ===================================================================== *)
(** ** The calls [_build_function_net] makes *)
(* ===================================================================== *)

(** [_build_function_net] receives the closures as arguments and touches
    the net through them only (and through [net.warnings.append]).  Which
    calls it makes, and in which order, depends on the function alone,
    never on the net under construction. *)
Module BuildCalls.
Import PyStr PnBuilder Props BuildTrace.

Definition ensure_calls (key : string) : list call :=
  [AddPlace (mutex_free_place key); AddPlace (mutex_held_place key)].

Definition dst_arc_calls (tid : string) (dst : option string) : list call :=
  match dst with
  | Some dst_place =>
      if truthy dst_place then [AddArc tid dst_place 1] else []
  | None => []
  end.

Definition lock_arcs_calls (tid : string) (mutex_lock_key : option string)
    : list call :=
  match mutex_lock_key with
  | Some key =>
      if truthy key then
        ensure_calls key
        ++ [AddArc (mutex_free_id key) tid 1;
            AddArc tid (mutex_held_id key) 1]
      else []
  | None => []
  end.

Definition unlock_arcs_calls (tid : string)
    (mutex_unlock_key : option string) : list call :=
  match mutex_unlock_key with
  | Some key =>
      if truthy key then
        ensure_calls key
        ++ [AddArc (mutex_held_id key) tid 1;
            AddArc tid (mutex_free_id key) 1]
      else []
  | None => []
  end.

Definition edge_calls (f : string) (bb : BasicBlock) (src_place : string)
    (bb_to_place : gmap Z string)
    (mutex_lock_key mutex_unlock_key : option string) (target_bb : Z)
    : list call :=
  let t := edge_transition f bb target_bb mutex_lock_key mutex_unlock_key in
  [AddTransition t; AddArc src_place (t_id t) 1]
  ++ dst_arc_calls (t_id t) (bb_to_place !! target_bb)
  ++ lock_arcs_calls (t_id t) mutex_lock_key
  ++ unlock_arcs_calls (t_id t) mutex_unlock_key.

Definition return_calls (f : string) (bb : BasicBlock) (src_place : string)
    : list call :=
  let t_return := return_transition f (bb_id bb) in
  [AddTransition t_return;
   AddArc src_place (t_id t_return) 1;
   AddArc (t_id t_return) (exit_id f) 1].

(** What [classify] computes, with the warnings it appends as calls. *)
Definition classify_calls (f : string) (fn : MirFunction) (bb : BasicBlock)
    (term : Terminator)
    : list Z * option string * option string * list call :=
  let '(targets, mutex_lock_key, mutex_unlock_key, b) :=
    classify f fn bb term init_builder in
  (targets, mutex_lock_key, mutex_unlock_key,
   map AddWarning (warnings (net b))).

Definition block_calls (f : string) (fn : MirFunction)
    (bb_to_place : gmap Z string) (bb : BasicBlock) : list call :=
  if is_cleanup bb then []
  else
    match bb_to_place !! bb_id bb with
    | None => []
    | Some src_place =>
        if negb (truthy src_place) then []
        else
          match terminator bb with
          | None =>
              [AddWarning
                 (mkWarning f ("bb" +:+ pretty (bb_id bb)) (line_start bb)
                    "no terminator found" None)]
          | Some term =>
              let '(targets, mutex_lock_key, mutex_unlock_key, ws) :=
                classify_calls f fn bb term in
              ws
              ++ List.concat
                   (map (edge_calls f bb src_place bb_to_place
                           mutex_lock_key mutex_unlock_key) targets)
              ++ match term with
                 | TerminatorReturn => return_calls f bb src_place
                 | _ => []
                 end
          end
    end.

Definition alloc_calls (f : string) (bb : BasicBlock) : list call :=
  if is_cleanup bb then [] else [AddPlace (bb_place f (bb_id bb))].

Definition start_calls (f : string) (bbs : list BasicBlock)
    (bb_to_place : gmap Z string) : list call :=
  match first_non_cleanup bbs with
  | Some first_bb =>
      let t_start := start_transition f in
      [AddTransition t_start;
       AddArc (entry_id f) (t_id t_start) 1;
       AddArc (t_id t_start) (bb_to_place !!! bb_id first_bb) 1]
  | None => []
  end.

Definition function_calls (fn : MirFunction) (entry_fn : string)
    : list call :=
  let f := name fn in
  let bb_to_place := bb_to_place_of fn in
  [AddPlace (entry_place f (bool_decide (f = entry_fn)));
   AddPlace (exit_place f)]
  ++ List.concat (map (alloc_calls f) (basic_blocks fn))
  ++ start_calls f (basic_blocks fn) bb_to_place
  ++ List.concat (map (block_calls f fn bb_to_place) (basic_blocks fn)).

Definition build_calls (functions : list MirFunction) (entry_fn : string)
    (max_fns : option Z) : list call :=
  List.concat (map (λ fn, function_calls fn entry_fn)
            (fns_to_process functions max_fns)).

End BuildCalls.

(* ===================================================================== *)
(** ** The closures over any representation of a set *)
(* ===================================================================== *)

(** [build_petri_net] keeps the ids it has inserted in two [set]s.  In
    what order the interpreter keeps the elements of a set is its own
    affair (for strings it changes from run to run with the hash seed);
    here the closures are written over any type [T] with an empty set,
    a membership test and an insertion. *)
Module AnySet.
Import PyStr PnBuilder BuildTrace BuildCalls.

Section Representation.
Context {T : Type}.
Variable set_empty : T.
Variable set_mem : string → T → bool.
Variable set_add : string → T → T.

(** What [x in s] answers after [set()] and after [s.add(y)]. *)
Definition set_laws : Prop :=
  (∀ x, set_mem x set_empty = false)
  ∧ (∀ x y s, set_mem x (set_add y s) = bool_decide (x = y) || set_mem x s).

Record sbuilder : Type := SBuilder {
  s_net : PetriNet;
  s_seen_places : T;
  s_seen_transitions : T;
  s_arc_id_counter : Z
}.

Definition s_init : sbuilder :=
  SBuilder (mkPetriNet [] [] [] ∅ []) set_empty set_empty 0.

Definition s_add_place (place : Place) (b : sbuilder) : sbuilder :=
  if set_mem (p_id place) (s_seen_places b) then b
  else
    let n := s_net b in
    SBuilder
      (mkPetriNet (places n ++ [place]) (transitions n) (arcs n)
         (if init_tokens place >? 0
          then <[p_id place := init_tokens place]> (initial_marking n)
          else initial_marking n)
         (warnings n))
      (set_add (p_id place) (s_seen_places b)) (s_seen_transitions b)
      (s_arc_id_counter b).

Definition s_add_transition (t : Transition) (b : sbuilder) : sbuilder :=
  if set_mem (t_id t) (s_seen_transitions b) then b
  else
    let n := s_net b in
    SBuilder
      (mkPetriNet (places n) (transitions n ++ [t]) (arcs n)
         (initial_marking n) (warnings n))
      (s_seen_places b) (set_add (t_id t) (s_seen_transitions b))
      (s_arc_id_counter b).

Definition s_add_arc (source target : string) (weight : Z) (b : sbuilder)
    : sbuilder :=
  let c := s_arc_id_counter b + 1 in
  let aid := "arc_" +:+ pretty c in
  let n := s_net b in
  SBuilder
    (mkPetriNet (places n) (transitions n)
       (arcs n ++ [mkArc aid source target weight])
       (initial_marking n) (warnings n))
    (s_seen_places b) (s_seen_transitions b) c.

Definition s_add_warning (w : Warning) (b : sbuilder) : sbuilder :=
  let n := s_net b in
  SBuilder
    (mkPetriNet (places n) (transitions n) (arcs n) (initial_marking n)
       (warnings n ++ [w]))
    (s_seen_places b) (s_seen_transitions b) (s_arc_id_counter b).

Definition s_run_call (b : sbuilder) (o : call) : sbuilder :=
  match o with
  | AddPlace p => s_add_place p b
  | AddTransition t => s_add_transition t b
  | AddArc s t w => s_add_arc s t w b
  | AddWarning w => s_add_warning w b
  end.

(** [build_petri_net] over this representation. *)
Definition build_with (functions : list MirFunction) (entry_fn : string)
    (max_fns : option Z) : PetriNet :=
  s_net (foldl s_run_call s_init (build_calls functions entry_fn max_fns)).

(** The state over [T] and the state over [gset] agree. *)
Definition agree (sb : sbuilder) (b : builder) : Prop :=
  s_net sb = net b
  ∧ s_arc_id_counter sb = arc_id_counter b
  ∧ (∀ x, set_mem x (s_seen_places sb) = bool_decide (x ∈ seen_places b))
  ∧ (∀ x, set_mem x (s_seen_transitions sb)
          = bool_decide (x ∈ seen_transitions b)).

End Representation.

(** Two representations: a list that grows at the front, and one that
    grows at the back. *)
Definition list_mem (x : string) (s : list string) : bool :=
  existsb (String.eqb x) s.
Definition add_front (x : string) (s : list string) : list string := x :: s.
Definition add_back (x : string) (s : list string) : list string :=
  s ++ [x].

End AnySet.

(* ===================================================================== *)
(** ** More vocabulary for the parser *)
(* ===================================================================== *)

Module ParserMore.
Import PyStr Re Exn MirParser ParserProps.

(** The depth counter of the brace matcher after reading [s]. *)
Fixpoint depth_after (s : string) (depth : Z) : Z :=
  match s with
  | String c s' =>
      depth_after s'
        (if Ascii.eqb c "{" then depth + 1
         else if Ascii.eqb c "}" then depth - 1
         else depth)
  | EmptyString => depth
  end.

(** [body] is the inside of a pair of braces: read from depth 1, the
    counter stays positive and is back at 1 at the end. *)
Definition balanced (body : string) : Prop :=
  unbalanced body 1 = true ∧ depth_after body 1 = 1.

(** The blocks are listed by increasing line number. *)
Definition lines_increasing (bbs : list BasicBlock) : Prop :=
  ∀ i j bb bb',
    (i < j)%nat → bbs !! i = Some bb → bbs !! j = Some bb' →
    line_start bb < line_start bb'.

(** A local name: [_] followed by decimal digits. *)
Definition is_local (s : string) : bool :=
  match s with
  | String "_" d => is_literal d
  | _ => false
  end.

(** Every word a group of the pattern can capture satisfies [G]. *)
Fixpoint groups_ok (G : nat → string → Prop) (r : regex) : Prop :=
  match r with
  | RSeq r1 r2 | RAlt r1 r2 => groups_ok G r1 ∧ groups_ok G r2
  | ROpt r1 => groups_ok G r1
  | RGroup n r1 => (∀ w, matches r1 w → G n w) ∧ groups_ok G r1
  | _ => True
  end.

(** The groups captured so far satisfy [G]. *)
Definition groups_hold (G : nat → string → Prop) (g : list (nat * string))
    : Prop :=
  ∀ n s, get_group n g = Some s → G n s.

(** The two tables of a function hold local names: keys and values of
    [ref_to_base], values of [guard_to_mutex_key]. *)
Definition tables_local (rtb gtm : gmap string string) : Prop :=
  map_Forall (λ k v, is_local k = true ∧ is_local v = true) rtb
  ∧ map_Forall (λ _ v, is_local v = true) gtm.

(** A key is absent or a local name. *)
Definition opt_local (o : option string) : Prop :=
  match o with
  | Some key => is_local key = true
  | None => True
  end.

(** The [op] of a transition is [None] on a [cfg] transition and a local
    name on a [lock] or [unlock] transition. *)
Definition op_local (t : Transition) : Prop :=
  match op t with
  | Some key =>
      is_local key = true ∧ (t_kind t = "lock" ∨ t_kind t = "unlock")
  | None => t_kind t = "cfg"
  end.



(** The stripped line matches one of the five terminator patterns. *)
Definition terminator_line (bs : string) : bool :=
  bool_decide (is_Some (re_search goto_pattern bs))
  || bool_decide (is_Some (re_search return_pattern bs))
  || bool_decide (is_Some (re_search drop_pattern bs))
  || bool_decide (is_Some (re_search switch_pattern bs))
  || bool_decide (is_Some (re_search call_pattern bs)).

End ParserMore.

(* ===================================================================== *)
(** ** [pnml_writer.py]: indentation *)
(* ===================================================================== *)

Module PnmlIndent.
Import PyStr PnmlWriter.

(** An element as [_indent] sees it: an [Element] with its [tail]. *)
Inductive Node : Type :=
| MkNode (tag : string) (attrib : list (string * string))
    (text tail : option string) (children : list Node).

Definition tail_of (n : Node) : option string :=
  match n with MkNode _ _ _ tail _ => tail end.

Definition set_tail (t : option string) (n : Node) : Node :=
  match n with
  | MkNode tag attrib text _ children => MkNode tag attrib text t children
  end.

(** The tree as [write_pnml] has built it when it calls [_indent]: no
    [tail] has been set. *)
Fixpoint of_element (e : Element) : Node :=
  match e with
  | Elem tag attrib text children =>
      MkNode tag attrib text None (map of_element children)
  end.

(** [not s or not s.strip()] on an [Optional[str]]. *)
Definition blank (o : option string) : bool :=
  match o with
  | None => true
  | Some s => negb (truthy s) || negb (truthy (strip s))
  end.

(** [level * "  "] and ["\n" + level * "  "]. *)
Fixpoint spaces (level : nat) : string :=
  match level with
  | O => ""
  | S level' => "  " +:+ spaces level'
  end.

Definition indent_str (level : nat) : string := String "010" (spaces level).

(** The statement after the loop of [_indent]: [child] is then the last
    child. *)
Fixpoint fix_last (i : string) (l : list Node) : list Node :=
  match l with
  | [] => []
  | [child] =>
      [if blank (tail_of child) then set_tail (Some i) child else child]
  | c :: l' => c :: fix_last i l'
  end.

Fixpoint _indent (level : nat) (elem : Node) {struct elem} : Node :=
  let i := indent_str level in
  match elem with
  | MkNode tag attrib text tail children =>
      match children with
      | [] =>
          MkNode tag attrib text
            (if negb (level =? 0)%nat && blank tail then Some i else tail) []
      | _ :: _ =>
          MkNode tag attrib
            (if blank text then Some (i +:+ "  ") else text)
            (if blank tail then Some i else tail)
            (fix_last i (map (_indent (S level)) children))
      end
  end.

(** What a tree says once the layout is forgotten: no [tail], and no
    blank [text] in an element that has children. *)
Fixpoint content (n : Node) : Element :=
  match n with
  | MkNode tag attrib text _ children =>
      Elem tag attrib
        (match children with
         | [] => text
         | _ :: _ => if blank text then None else text
         end)
        (map content children)
  end.

(** Text is only set on elements without children. *)
Fixpoint text_in_leaves (e : Element) : bool :=
  match e with
  | Elem _ _ text children =>
      match children with
      | [] => true
      | _ :: _ => bool_decide (text = None)
      end
      && forallb text_in_leaves children
  end.

(** The text of the [text] child of the first child with tag [tg]:
    [elem.find(tg).find("text").text]. *)
Definition tag_of (e : Element) : string :=
  match e with Elem tag _ _ _ => tag end.

Definition text_of (e : Element) : option string :=
  match e with Elem _ _ text _ => text end.

Definition children_of (e : Element) : list Element :=
  match e with Elem _ _ _ children => children end.

Definition child_text (tg : string) (e : Element) : option string :=
  match List.find (λ c, String.eqb (tag_of c) tg) (children_of e) with
  | Some c =>
      match List.find (λ c', String.eqb (tag_of c') "text") (children_of c)
      with
      | Some c' => text_of c'
      | None => None
      end
  | None => None
  end.

End PnmlIndent.

(* ===================================================================== *)
(** ** [mir2pnml.py] *)
(* ===================================================================== *)

Module Mir2Pnml.
Import PyStr Exn PnmlWriter PnmlIndent.

(** The namespace [parse_args] returns. *)
Record Args : Type := mkArgs {
  mir : string;
  out : string;
  dump_json : option string;
  entry_fn : string;
  rwlock_n : Z;
  max_fns : option Z;
}.

(** What the platform answers to the calls [main] makes, each of them at
    most once: [str(mir_path)], [mir_path.exists()], [read_text] (the
    text, or the message of the [OSError]), and for the two writes [None]
    or the message of the [OSError]. *)
Record Os : Type := mkOs {
  path_str : string → string;
  mir_exists : bool;
  mir_text : string + string;
  pnml_written : option string;
  json_written : option string;
}.

(** What [main] does to the outside: a line on [sys.stderr], the call of
    [tree.write] on the indented tree, the call of [write_text] on the
    dump of the net.  A write is listed whether or not it succeeds. *)
Inductive effect : Type :=
| PrintErr (line : string)
| WritePnml (path : string) (root : Node)
| WriteJson (path : string) (net : PetriNet).

(** The tree [write_pnml] hands to [tree.write]. *)
Definition pnml_tree (net : PetriNet) : Node :=
  _indent 0 (of_element (write_pnml net)).

(** [main] after [parse_args]: the exit code and the effects in order. *)
Definition main (os : Os) (args : Args) : outcome (Z * list effect) :=
  if negb (mir_exists os) then
    Ret (1, [PrintErr ("Error: MIR file not found: "
                       +:+ path_str os (mir args))])
  else
    match mir_text os with
    | inr e => Ret (1, [PrintErr ("Error: cannot read MIR file: " +:+ e)])
    | inl text =>
        match MirParser.parse_mir text with
        | Raise (ParseError _ _ _ _ as e) =>
            Ret (1, [PrintErr ("Parse error: " +:+ str_exn e)])
        | Raise e => Raise e
        | NoFuel => NoFuel
        | Ret functions =>
            match functions with
            | [] => Ret (1, [PrintErr "Error: no functions parsed from MIR"])
            | _ :: _ =>
                let net :=
                  PnBuilder.build_petri_net functions (entry_fn args)
                    (max_fns args) in
                let w := WritePnml (out args) (pnml_tree net) in
                match pnml_written os with
                | Some e =>
                    Ret (1, [w; PrintErr ("Error: cannot write PNML: "
                                          +:+ e)])
                | None =>
                    if truthy_opt (dump_json args) then
                      let d := WriteJson (default "" (dump_json args)) net in
                      match json_written os with
                      | Some e =>
                          Ret (0, [w; d;
                                   PrintErr
                                     ("Warning: cannot write dump-json: "
                                      +:+ e)])
                      | None => Ret (0, [w; d])
                      end
                    else Ret (0, [w])
                end
            end
        end
    end.

(** The document written for a net without places, transitions and arcs. *)
Definition empty_document : Node :=
  MkNode "pnml" [] (Some (String "010" "  ")) (Some (String "010" ""))
    [MkNode "net" [("id", "mir2pnml_net"); ("type", PNML_NS)]
       (Some (String "010" "    ")) (Some (String "010" ""))
       [MkNode "page" [("id", "page0")] None (Some (String "010" "  ")) []]].

End Mir2Pnml.

(* ===================================================================== *)
(** ** Facts about strings and identifiers *)
(* ===================================================================== *)

Module StrFacts.
Import PyStr PnBuilder.

Lemma app_cons a s t : String a s +:+ t = String a (s +:+ t).
Proof. reflexivity. Qed.

Lemma app_empty_l t : "" +:+ t = t.
Proof. reflexivity. Qed.

Lemma app_length s t :
  String.length (s +:+ t) = (String.length s + String.length t)%nat.
Proof.
  induction s as [|a s IH]; [reflexivity|].
  rewrite app_cons. simpl. by rewrite IH.
Qed.

Lemma app_not_empty s t : t ≠ "" → s +:+ t ≠ "".
Proof.
  intros Ht E. apply (f_equal String.length) in E.
  rewrite app_length in E. destruct t; [done|]. simpl in E. lia.
Qed.

Lemma last_char_app s t : t ≠ "" → last_char (s +:+ t) = last_char t.
Proof.
  intros Ht. induction s as [|a s IH]; [reflexivity|].
  rewrite app_cons. simpl. rewrite IH.
  destruct (s +:+ t) eqn:E; [|done].
  by apply app_not_empty in E.
Qed.

(** Cancellation of a common suffix. *)
Lemma app_inj_l s1 s2 t : s1 +:+ t = s2 +:+ t → s1 = s2.
Proof.
  revert s2. induction s1 as [|a s1 IH]; intros [|b s2] E.
  - done.
  - apply (f_equal String.length) in E.
    rewrite app_empty_l, app_cons in E. simpl in E.
    rewrite app_length in E. lia.
  - apply (f_equal String.length) in E.
    rewrite app_empty_l, app_cons in E. simpl in E.
    rewrite app_length in E. lia.
  - rewrite !app_cons in E. injection E as -> E. f_equal. by apply IH.
Qed.

Lemma pretty_N_char_digit x : is_digit (pretty_N_char x) = true.
Proof.
  unfold pretty_N_char. by repeat case_match.
Qed.

Lemma pretty_N_go_last x s :
  s ≠ "" → last_char (pretty_N_go x s) = last_char s.
Proof.
  revert s. induction (N.lt_wf_0 x) as [x _ IH]; intros s Hs.
  destruct (decide (x = 0)%N) as [->|Hx].
  - by rewrite pretty_N_go_0.
  - rewrite pretty_N_go_step by lia.
    rewrite IH; [|apply N.div_lt; lia|done].
    simpl. by destruct s.
Qed.

Lemma last_char_pretty_N (x : N) :
  ∃ c, last_char (pretty x) = Some c ∧ is_digit c = true.
Proof.
  unfold pretty, pretty_N. case_decide as Hx.
  - by exists "0"%char.
  - rewrite pretty_N_go_step by lia.
    rewrite pretty_N_go_last by done.
    eexists. split; [reflexivity|]. apply pretty_N_char_digit.
Qed.

Lemma last_char_pretty (k : Z) :
  ∃ c, last_char (pretty k) = Some c ∧ is_digit c = true.
Proof.
  destruct k as [|p|p].
  - by exists "0"%char.
  - apply (last_char_pretty_N (N.pos p)).
  - change (pretty (Z.neg p)) with ("-" +:+ pretty (N.pos p)).
    destruct (last_char_pretty_N (N.pos p)) as (c & Hc & Hd).
    exists c. split; [|done].
    rewrite last_char_app; [done|]. intros E. by rewrite E in Hc.
Qed.

Ltac last_char_tac :=
  repeat (rewrite last_char_app by (repeat apply app_not_empty; done));
  try reflexivity.

(** The last character tells the five kinds of place id apart. *)
Lemma last_entry_id f : last_char (entry_id f) = Some "y"%char.
Proof. unfold entry_id. last_char_tac. Qed.

Lemma last_exit_id f : last_char (exit_id f) = Some "t"%char.
Proof. unfold exit_id. last_char_tac. Qed.

Lemma last_mutex_free_id k : last_char (mutex_free_id k) = Some "e"%char.
Proof. unfold mutex_free_id. last_char_tac. Qed.

Lemma last_mutex_held_id k : last_char (mutex_held_id k) = Some "d"%char.
Proof. unfold mutex_held_id. last_char_tac. Qed.

Lemma last_bb_place_id f k :
  ∃ c, last_char (bb_place_id f k) = Some c ∧ is_digit c = true.
Proof.
  unfold bb_place_id.
  destruct (last_char_pretty k) as (c & Hc & Hd). exists c. split; [|done].
  assert (pretty k ≠ "") by (intros E; by rewrite E in Hc).
  rewrite !last_char_app; [done|done|by repeat apply app_not_empty..].
Qed.

Lemma entry_id_inj f g : entry_id f = entry_id g → f = g.
Proof.
  unfold entry_id. intros E. apply String.app_inj in E.
  by apply app_inj_l in E.
Qed.

Lemma truthy_bb_place_id f k : truthy (bb_place_id f k) = true.
Proof. reflexivity. Qed.

End StrFacts.

(* ===================================================================== *)
(** ** Facts about the builder *)
(* ===================================================================== *)

Module BuilderFacts.
Import PyStr PnBuilder Props StrFacts.

(** *** What each primitive does to each component *)

Lemma places_add_place p b :
  places (net (add_place p b))
  = places (net b) ++ (if decide (p_id p ∈ seen_places b) then [] else [p]).
Proof. unfold add_place. case_decide; simpl; by rewrite ?app_nil_r. Qed.

Lemma seen_places_add_place p b :
  seen_places (add_place p b) = {[p_id p]} ∪ seen_places b.
Proof.
  unfold add_place. case_decide as Hin; simpl; [|done].
  apply set_eq. intros x. rewrite elem_of_union, elem_of_singleton.
  split; [tauto|]. intros [->|?]; done.
Qed.

Lemma transitions_add_place p b :
  transitions (net (add_place p b)) = transitions (net b).
Proof. unfold add_place. by case_decide. Qed.

Lemma arcs_add_place p b : arcs (net (add_place p b)) = arcs (net b).
Proof. unfold add_place. by case_decide. Qed.

Lemma seen_transitions_add_place p b :
  seen_transitions (add_place p b) = seen_transitions b.
Proof. unfold add_place. by case_decide. Qed.

Lemma transitions_add_transition t b :
  transitions (net (add_transition t b))
  = transitions (net b)
    ++ (if decide (t_id t ∈ seen_transitions b) then [] else [t]).
Proof. unfold add_transition. case_decide; simpl; by rewrite ?app_nil_r. Qed.

Lemma seen_transitions_add_transition t b :
  seen_transitions (add_transition t b) = {[t_id t]} ∪ seen_transitions b.
Proof.
  unfold add_transition. case_decide as Hin; simpl; [|done].
  apply set_eq. intros x. rewrite elem_of_union, elem_of_singleton.
  split; [tauto|]. intros [->|?]; done.
Qed.

Lemma places_add_transition t b :
  places (net (add_transition t b)) = places (net b).
Proof. unfold add_transition. by case_decide. Qed.

Lemma arcs_add_transition t b :
  arcs (net (add_transition t b)) = arcs (net b).
Proof. unfold add_transition. by case_decide. Qed.

Lemma seen_places_add_transition t b :
  seen_places (add_transition t b) = seen_places b.
Proof. unfold add_transition. by case_decide. Qed.

Lemma arcs_add_arc s t w b :
  arcs (net (add_arc s t w b))
  = arcs (net b)
    ++ [mkArc ("arc_" +:+ pretty (arc_id_counter b + 1)) s t w].
Proof. reflexivity. Qed.

Lemma places_add_arc s t w b : places (net (add_arc s t w b)) = places (net b).
Proof. reflexivity. Qed.

Lemma transitions_add_arc s t w b :
  transitions (net (add_arc s t w b)) = transitions (net b).
Proof. reflexivity. Qed.

Lemma seen_places_add_arc s t w b :
  seen_places (add_arc s t w b) = seen_places b.
Proof. reflexivity. Qed.

Lemma seen_transitions_add_arc s t w b :
  seen_transitions (add_arc s t w b) = seen_transitions b.
Proof. reflexivity. Qed.

Lemma places_add_warning w b : places (net (add_warning w b)) = places (net b).
Proof. reflexivity. Qed.

Lemma transitions_add_warning w b :
  transitions (net (add_warning w b)) = transitions (net b).
Proof. reflexivity. Qed.

Lemma arcs_add_warning w b : arcs (net (add_warning w b)) = arcs (net b).
Proof. reflexivity. Qed.

Lemma seen_places_add_warning w b :
  seen_places (add_warning w b) = seen_places b.
Proof. reflexivity. Qed.

Lemma seen_transitions_add_warning w b :
  seen_transitions (add_warning w b) = seen_transitions b.
Proof. reflexivity. Qed.

Lemma counter_add_place p b :
  arc_id_counter (add_place p b) = arc_id_counter b.
Proof. unfold add_place. by case_decide. Qed.

Lemma counter_add_transition t b :
  arc_id_counter (add_transition t b) = arc_id_counter b.
Proof. unfold add_transition. by case_decide. Qed.

Lemma counter_add_arc s t w b :
  arc_id_counter (add_arc s t w b) = arc_id_counter b + 1.
Proof. reflexivity. Qed.

Lemma counter_add_warning w b :
  arc_id_counter (add_warning w b) = arc_id_counter b.
Proof. reflexivity. Qed.

Create Rewrite HintDb bld.
#[export] Hint Rewrite
  places_add_place seen_places_add_place transitions_add_place
  arcs_add_place seen_transitions_add_place
  transitions_add_transition seen_transitions_add_transition
  places_add_transition arcs_add_transition seen_places_add_transition
  arcs_add_arc places_add_arc transitions_add_arc seen_places_add_arc
  seen_transitions_add_arc
  places_add_warning transitions_add_warning arcs_add_warning
  seen_places_add_warning seen_transitions_add_warning
  counter_add_place counter_add_transition counter_add_arc
  counter_add_warning : bld.

(** *** Growth and coherence *)

#[export] Instance Grows_preorder : PreOrder Grows.
Proof.
  split.
  - intros b. by split.
  - intros b1 b2 b3 [] []. split; by etrans.
Qed.

Lemma Ext_refl ns e b : Ext ns e b b.
Proof. split; [reflexivity|done]. Qed.

Lemma Ext_trans ns e b1 b2 b3 : Ext ns e b1 b2 → Ext ns e b2 b3 → Ext ns e b1 b3.
Proof. intros [G1 I1] [G2 I2]. split; [by etrans|auto]. Qed.

Lemma Ext_add_place ns e p b : place_shape ns e p → Ext ns e b (add_place p b).
Proof.
  intros Hp. split.
  - split; autorewrite with bld; try done; [set_solver|by apply prefix_app_r].
  - intros [Hs Hn Hsh Hst Hnt Hw Ha].
    split; autorewrite with bld; try done.
    + intros i. rewrite map_app, elem_of_app, elem_of_union, Hs.
      case_decide as Hin; simpl.
      * rewrite elem_of_singleton, elem_of_nil. split; [|tauto].
        intros [->|?]; [left; by apply Hs|by left].
      * rewrite list_elem_of_singleton, elem_of_singleton. tauto.
    + case_decide as Hin; [by rewrite app_nil_r|].
      rewrite map_app. apply NoDup_app. split_and!; [done| |apply NoDup_singleton].
      intros i Hi ->%list_elem_of_singleton. by apply Hin, Hs.
    + apply Forall_app. split; [done|].
      case_decide; [by constructor|by apply Forall_singleton].
Qed.

Lemma Ext_add_transition ns e t b :
  t_annotations t = [] → Ext ns e b (add_transition t b).
Proof.
  intros Ht. split.
  - split; autorewrite with bld; try done; [set_solver|by apply prefix_app_r].
  - intros [Hs Hn Hsh Hst Hnt Hw Ha].
    split; autorewrite with bld; try done.
    + intros i. rewrite map_app, elem_of_app, elem_of_union, Hst.
      case_decide as Hin; simpl.
      * rewrite elem_of_singleton, elem_of_nil. split; [|tauto].
        intros [->|?]; [left; by apply Hst|by left].
      * rewrite list_elem_of_singleton, elem_of_singleton. tauto.
    + case_decide as Hin; [by rewrite app_nil_r|].
      rewrite map_app. apply NoDup_app. split_and!; [done| |apply NoDup_singleton].
      intros i Hi ->%list_elem_of_singleton. by apply Hin, Hst.
    + apply Forall_app. split; [done|].
      case_decide; [by constructor|by apply Forall_singleton].
Qed.

Lemma Ext_add_arc ns e s t b : Ext ns e b (add_arc s t 1 b).
Proof.
  split.
  - split; autorewrite with bld; try done. by apply prefix_app_r.
  - intros [Hs Hn Hsh Hst Hnt Hw Ha].
    split; autorewrite with bld; try done.
    apply Forall_app. split; [done|]. by apply Forall_singleton.
Qed.

Lemma Ext_add_warning ns e w b : Ext ns e b (add_warning w b).
Proof. split; [by split|]. intros []. by split. Qed.

Lemma Ext_foldl {A} ns e (f : builder → A → builder) l b :
  (∀ b x, x ∈ l → Ext ns e b (f b x)) → Ext ns e b (foldl f b l).
Proof.
  revert b. induction l as [|x l IH]; intros b Hf; simpl.
  - apply Ext_refl.
  - eapply Ext_trans; [apply Hf; left|]. apply IH.
    intros b' y Hy. apply Hf. by right.
Qed.

Lemma Inv_init ns e : Inv ns e init_builder.
Proof.
  split; simpl; try by constructor.
  - intros i. by rewrite elem_of_empty, elem_of_nil.
  - intros i. by rewrite elem_of_empty, elem_of_nil.
Qed.

(** *** The composite steps *)

Lemma foldl_alloc_block f m b bbs :
  foldl (alloc_block f) (m, b) bbs
  = (foldl (alloc_map f) m bbs, foldl (alloc_places f) b bbs).
Proof.
  revert m b. induction bbs as [|bb bbs IH]; intros m b; [done|].
  simpl. unfold alloc_block at 2, alloc_map at 2, alloc_places at 2.
  destruct (is_cleanup bb); simpl; apply IH.
Qed.

Lemma alloc_map_values f bbs m k v :
  (∀ k v, m !! k = Some v → v = bb_place_id f k) →
  foldl (alloc_map f) m bbs !! k = Some v → v = bb_place_id f k.
Proof.
  revert m. induction bbs as [|bb bbs IH]; intros m Hm; simpl; [apply Hm|].
  apply IH. intros k' v'. unfold alloc_map.
  destruct (is_cleanup bb); [apply Hm|].
  rewrite lookup_insert. case_decide; [naive_solver|apply Hm].
Qed.

Lemma alloc_map_mono f bbs m k :
  is_Some (m !! k) → is_Some (foldl (alloc_map f) m bbs !! k).
Proof.
  revert m. induction bbs as [|bb bbs IH]; intros m Hm; simpl; [done|].
  apply IH. unfold alloc_map. destruct (is_cleanup bb); [done|].
  rewrite lookup_insert. by case_decide.
Qed.

Lemma alloc_map_present f bbs m bb :
  bb ∈ bbs → is_cleanup bb = false →
  is_Some (foldl (alloc_map f) m bbs !! bb_id bb).
Proof.
  revert m. induction bbs as [|bb' bbs IH]; intros m Hin Hc.
  - by apply elem_of_nil in Hin.
  - apply elem_of_cons in Hin as [->|Hin]; simpl; [|by apply IH].
    apply alloc_map_mono. unfold alloc_map. rewrite Hc.
    rewrite lookup_insert_eq. by eexists.
Qed.

Lemma alloc_map_lookup f bbs bb :
  bb ∈ bbs → is_cleanup bb = false →
  foldl (alloc_map f) ∅ bbs !! bb_id bb = Some (bb_place_id f (bb_id bb)).
Proof.
  intros Hin Hc.
  destruct (alloc_map_present f bbs ∅ bb Hin Hc) as [v Hv].
  rewrite Hv. f_equal. eapply alloc_map_values; [|done].
  intros k' v'. by rewrite lookup_empty.
Qed.

Lemma classify_spec f fn bb term b tg lk uk b' :
  classify f fn bb term b = (tg, lk, uk, b') →
  tg = successors term ∧ (b' = b ∨ ∃ w, b' = add_warning w b).
Proof.
  unfold classify. intros E.
  destruct term; repeat case_match; simplify_eq; eauto.
Qed.

Lemma Ext_ensure ns e key b : Ext ns e b (_ensure_mutex_places key b).
Proof.
  unfold _ensure_mutex_places.
  eapply Ext_trans; apply Ext_add_place; unfold place_shape; eauto 10.
Qed.

Lemma Ext_alloc_places ns e f bbs b : Ext ns e b (foldl (alloc_places f) b bbs).
Proof.
  apply Ext_foldl. intros b' bb _. unfold alloc_places.
  destruct (is_cleanup bb); [apply Ext_refl|].
  apply Ext_add_place. unfold place_shape. eauto 10.
Qed.

Ltac ext_step :=
  first
    [ apply Ext_refl
    | apply Ext_add_arc
    | apply Ext_add_warning
    | apply Ext_ensure
    | by apply Ext_add_transition
    | eapply Ext_trans; [|apply Ext_add_arc]
    | eapply Ext_trans; [|apply Ext_add_warning]
    | eapply Ext_trans; [|apply Ext_ensure]
    | eapply Ext_trans; [|by apply Ext_add_transition] ].

Lemma Ext_add_start ns e f bbs m b : Ext ns e b (add_start f bbs m b).
Proof. unfold add_start. case_match; repeat ext_step. Qed.

Lemma Ext_add_dst_arc ns e tid dst b : Ext ns e b (add_dst_arc tid dst b).
Proof. unfold add_dst_arc. repeat case_match; repeat ext_step. Qed.

Lemma Ext_add_lock_arcs ns e tid lk b : Ext ns e b (add_lock_arcs tid lk b).
Proof. unfold add_lock_arcs. repeat case_match; repeat ext_step. Qed.

Lemma Ext_add_unlock_arcs ns e tid uk b : Ext ns e b (add_unlock_arcs tid uk b).
Proof. unfold add_unlock_arcs. repeat case_match; repeat ext_step. Qed.

Lemma Ext_add_edge ns e f bb src m lk uk b tgt :
  Ext ns e b (add_edge f bb src m lk uk b tgt).
Proof.
  unfold add_edge.
  eapply Ext_trans; [|apply Ext_add_unlock_arcs].
  eapply Ext_trans; [|apply Ext_add_lock_arcs].
  eapply Ext_trans; [|apply Ext_add_dst_arc].
  repeat ext_step.
Qed.

Lemma Ext_add_return ns e f bb src b : Ext ns e b (add_return f bb src b).
Proof. unfold add_return. repeat ext_step. Qed.

Lemma Ext_process_block ns e f fn m b bb : Ext ns e b (process_block f fn m b bb).
Proof.
  unfold process_block.
  repeat case_match; try apply Ext_refl; try apply Ext_add_warning.
  all: match goal with
       | H : classify _ _ _ _ _ = _ |- _ =>
           apply classify_spec in H as [_ [->|[w ->]]]
       end.
  all: try (eapply Ext_trans; [|apply Ext_add_return]).
  all: try (eapply Ext_trans; [|apply Ext_foldl; intros; apply Ext_add_edge]).
  all: repeat ext_step.
Qed.

Lemma Ext_build_function_net ns e fn b :
  name fn ∈ ns → Ext ns e b (_build_function_net fn e b).
Proof.
  intros Hname. unfold _build_function_net. rewrite foldl_alloc_block.
  eapply Ext_trans; [|apply Ext_foldl; intros; apply Ext_process_block].
  eapply Ext_trans; [|apply Ext_add_start].
  eapply Ext_trans; [|apply Ext_alloc_places].
  eapply Ext_trans; apply Ext_add_place; unfold place_shape; eauto 10.
Qed.

Lemma Ext_run ns e fns b :
  (∀ fn, fn ∈ fns → name fn ∈ ns) →
  Ext ns e b (foldl (λ b fn, _build_function_net fn e b) b fns).
Proof.
  intros Hns. apply Ext_foldl. intros. apply Ext_build_function_net. auto.
Qed.

Lemma Inv_run_builder functions e max_fns :
  Inv (map name (fns_to_process functions max_fns)) e
    (run_builder functions e max_fns).
Proof.
  unfold run_builder. apply Ext_run; [|apply Inv_init].
  intros fn Hfn. by apply list_elem_of_fmap_2.
Qed.

(** *** Generic list facts *)

Lemma foldl_preserves {A B} (P : A → Prop) (f : A → B → A) l a :
  (∀ a x, x ∈ l → P a → P (f a x)) → P a → P (foldl f a l).
Proof.
  revert a. induction l as [|x l IH]; intros a Hf Ha; simpl; [done|].
  apply IH; [|apply Hf; [left|done]].
  intros a' y Hy. apply Hf. by right.
Qed.

(** What holds right after the step for [x] and survives growth holds at
    the end of the loop. *)
Lemma foldl_reached {A} (Q : builder → Prop) (f : builder → A → builder)
    l b x :
  x ∈ l →
  (∀ b y, Grows b (f b y)) →
  (∀ b, Q (f b x)) →
  (∀ b b', Q b → Grows b b' → Q b') →
  Q (foldl f b l).
Proof.
  intros Hx Hg Hq Hmono. revert b.
  induction l as [|y l IH]; intros b; [by apply elem_of_nil in Hx|].
  simpl. apply elem_of_cons in Hx as [<-|Hx]; [|by apply IH].
  eapply Hmono; [apply Hq|].
  apply (foldl_preserves (Grows (f b x))); [|reflexivity].
  intros b' y _ Hb'. etrans; [done|apply Hg].
Qed.

Lemma filter_id_length {A} (g : A → string) (l : list A) (x : A) :
  NoDup (map g l) → x ∈ l →
  List.length (filter (λ y, g y = g x) l) = 1%nat.
Proof.
  induction l as [|y l IH]; intros Hnd Hx; [by apply elem_of_nil in Hx|].
  simpl in Hnd. apply NoDup_cons in Hnd as [Hy Hnd].
  rewrite filter_cons. apply elem_of_cons in Hx as [<-|Hx].
  - rewrite decide_True by done. simpl. f_equal.
    destruct (filter (λ y, g y = g x) l) as [|z k] eqn:E; [done|].
    exfalso. assert (z ∈ filter (λ y, g y = g x) l) as Hz by (rewrite E; left).
    apply list_elem_of_filter in Hz as [Hgz Hz].
    apply Hy. rewrite <- Hgz. by apply list_elem_of_fmap_2.
  - rewrite decide_False; [by apply IH|].
    intros E. apply Hy. rewrite E. by apply list_elem_of_fmap_2.
Qed.

(** *** Growth of the composite steps *)

Lemma Grows_add_place p b : Grows b (add_place p b).
Proof.
  split; autorewrite with bld; try done; [set_solver|by apply prefix_app_r].
Qed.

Lemma Grows_add_transition t b : Grows b (add_transition t b).
Proof.
  split; autorewrite with bld; try done; [set_solver|by apply prefix_app_r].
Qed.

Lemma Grows_add_edge f bb src m lk uk b tgt :
  Grows b (add_edge f bb src m lk uk b tgt).
Proof. apply (Ext_add_edge [] ""). Qed.

Lemma Grows_process_block f fn m b bb : Grows b (process_block f fn m b bb).
Proof. apply (Ext_process_block [] ""). Qed.

Lemma Grows_build_function_net fn e b : Grows b (_build_function_net fn e b).
Proof. apply (Ext_build_function_net [name fn] e). left. Qed.

Lemma prefix_elem {A} (l1 l2 : list A) x : l1 `prefix_of` l2 → x ∈ l1 → x ∈ l2.
Proof. intros [k ->] ?. apply elem_of_app. by left. Qed.

(** *** Mutex places of lock and unlock transitions *)

Lemma MutexOk_intro b b' t :
  MutexOk b →
  seen_places b ⊆ seen_places b' →
  (∀ t', t' ∈ transitions (net b') → t' ∈ transitions (net b) ∨ t' = t) →
  (∀ key, t_kind t = "lock" ∨ t_kind t = "unlock" → op t = Some key →
     mutex_free_id key ∈ seen_places b'
     ∧ mutex_held_id key ∈ seen_places b') →
  MutexOk b'.
Proof.
  intros Hb Hs Ht Hk t' key Hin Hkind Hop.
  destruct (Ht _ Hin) as [Hold| ->]; [|by apply Hk].
  destruct (Hb t' key Hold Hkind Hop). split; by apply Hs.
Qed.

Lemma MutexOk_same b b' :
  MutexOk b →
  seen_places b ⊆ seen_places b' →
  transitions (net b') = transitions (net b) →
  MutexOk b'.
Proof.
  intros Hb Hs Ht t' key Hin. rewrite Ht in Hin.
  intros Hkind Hop. destruct (Hb t' key Hin Hkind Hop). split; by apply Hs.
Qed.

Lemma transitions_add_dst_arc tid dst b :
  transitions (net (add_dst_arc tid dst b)) = transitions (net b).
Proof. unfold add_dst_arc. by repeat case_match. Qed.

Lemma transitions_add_lock_arcs tid lk b :
  transitions (net (add_lock_arcs tid lk b)) = transitions (net b).
Proof.
  unfold add_lock_arcs, _ensure_mutex_places.
  repeat case_match; by autorewrite with bld.
Qed.

Lemma transitions_add_unlock_arcs tid uk b :
  transitions (net (add_unlock_arcs tid uk b)) = transitions (net b).
Proof.
  unfold add_unlock_arcs, _ensure_mutex_places.
  repeat case_match; by autorewrite with bld.
Qed.

Lemma transitions_add_edge f bb src m lk uk b tgt :
  transitions (net (add_edge f bb src m lk uk b tgt))
  = transitions (net (add_transition (edge_transition f bb tgt lk uk) b)).
Proof.
  unfold add_edge.
  by rewrite transitions_add_unlock_arcs, transitions_add_lock_arcs,
    transitions_add_dst_arc.
Qed.

Lemma elem_of_transitions_add_transition t' t b :
  t' ∈ transitions (net (add_transition t b)) →
  t' ∈ transitions (net b) ∨ t' = t.
Proof.
  autorewrite with bld. rewrite elem_of_app.
  intros [?|Hin]; [by left|]. case_decide.
  - by apply elem_of_nil in Hin.
  - apply list_elem_of_singleton in Hin. by right.
Qed.

Lemma seen_places_ensure key b :
  mutex_free_id key ∈ seen_places (_ensure_mutex_places key b)
  ∧ mutex_held_id key ∈ seen_places (_ensure_mutex_places key b).
Proof.
  unfold _ensure_mutex_places. autorewrite with bld. simpl. set_solver.
Qed.

Lemma seen_places_lock_arcs tid key b :
  truthy key = true →
  mutex_free_id key ∈ seen_places (add_lock_arcs tid (Some key) b)
  ∧ mutex_held_id key ∈ seen_places (add_lock_arcs tid (Some key) b).
Proof.
  intros Hk. unfold add_lock_arcs. rewrite Hk. autorewrite with bld.
  apply seen_places_ensure.
Qed.

Lemma seen_places_unlock_arcs tid key b :
  truthy key = true →
  mutex_free_id key ∈ seen_places (add_unlock_arcs tid (Some key) b)
  ∧ mutex_held_id key ∈ seen_places (add_unlock_arcs tid (Some key) b).
Proof.
  intros Hk. unfold add_unlock_arcs. rewrite Hk. autorewrite with bld.
  apply seen_places_ensure.
Qed.

Lemma MutexOk_add_edge f bb src m lk uk b tgt :
  MutexOk b → MutexOk (add_edge f bb src m lk uk b tgt).
Proof.
  intros Hb. eapply MutexOk_intro; [done| | |].
  - apply Grows_add_edge.
  - intros t'. rewrite transitions_add_edge.
    apply elem_of_transitions_add_transition.
  - intros key Hkind Hop. simpl in Hkind, Hop. unfold py_or in Hop.
    unfold add_edge.
    destruct (truthy_opt lk) eqn:Hl.
    + destruct lk as [l|]; [|done]. simplify_eq/=.
      destruct (seen_places_lock_arcs
                  (t_id (edge_transition f bb tgt (Some key) uk)) key
                  (add_dst_arc (t_id (edge_transition f bb tgt (Some key) uk))
                     (m !! tgt)
                     (add_arc src
                        (t_id (edge_transition f bb tgt (Some key) uk)) 1
                        (add_transition
                           (edge_transition f bb tgt (Some key) uk) b))))
        as [H1 H2]; [done|].
      split; eapply (gr_seen_p _ _ (proj1 (Ext_add_unlock_arcs [] "" _ _ _)));
        done.
    + destruct (truthy_opt uk) eqn:Hu;
        [|destruct Hkind; discriminate].
      subst uk. simpl in Hu. by apply seen_places_unlock_arcs.
Qed.

Lemma MutexOk_add_cfg t b :
  t_kind t = "cfg" → MutexOk b → MutexOk (add_transition t b).
Proof.
  intros Hk Hb. apply (MutexOk_intro b _ t); [done| | |].
  - apply Grows_add_transition.
  - autorewrite with bld. intros t'. rewrite elem_of_app.
    intros [?|Hin]; [by left|]. case_decide; set_solver.
  - intros key [E|E]; rewrite Hk in E; discriminate.
Qed.

Lemma MutexOk_add_arc s t w b : MutexOk b → MutexOk (add_arc s t w b).
Proof. intros Hb. by apply (MutexOk_same b). Qed.

Lemma MutexOk_add_warning w b : MutexOk b → MutexOk (add_warning w b).
Proof. intros Hb. by apply (MutexOk_same b). Qed.

Lemma MutexOk_add_place p b : MutexOk b → MutexOk (add_place p b).
Proof.
  intros Hb. apply (MutexOk_same b); autorewrite with bld; [done| |done].
  apply union_subseteq_r.
Qed.

Ltac mutex_same :=
  first [ apply MutexOk_add_arc | apply MutexOk_add_warning
        | apply MutexOk_add_place ].

Lemma MutexOk_add_start f bbs m b : MutexOk b → MutexOk (add_start f bbs m b).
Proof.
  intros Hb. unfold add_start. case_match; [|done].
  do 2 mutex_same. by apply MutexOk_add_cfg.
Qed.

Lemma MutexOk_add_return f bb src b :
  MutexOk b → MutexOk (add_return f bb src b).
Proof.
  intros Hb. unfold add_return. do 2 mutex_same. by apply MutexOk_add_cfg.
Qed.

Lemma MutexOk_process_block f fn m b bb :
  MutexOk b → MutexOk (process_block f fn m b bb).
Proof.
  intros Hb. unfold process_block.
  repeat case_match; try done; try (by mutex_same).
  all: match goal with
       | H : classify _ _ _ _ _ = _ |- _ =>
           apply classify_spec in H as [_ Hc]
       end.
  all: try apply MutexOk_add_return.
  all: apply foldl_preserves; [intros; by apply MutexOk_add_edge|].
  all: destruct Hc as [->|[w ->]]; [done|by mutex_same].
Qed.

Lemma MutexOk_build_function_net fn e b :
  MutexOk b → MutexOk (_build_function_net fn e b).
Proof.
  intros Hb. unfold _build_function_net. rewrite foldl_alloc_block.
  apply foldl_preserves; [intros; by apply MutexOk_process_block|].
  apply MutexOk_add_start.
  apply foldl_preserves; [|by do 2 mutex_same].
  intros b' bb _ Hb'. unfold alloc_places.
  destruct (is_cleanup bb); [done|]. by mutex_same.
Qed.

Lemma MutexOk_run_builder functions e max_fns :
  MutexOk (run_builder functions e max_fns).
Proof.
  unfold run_builder.
  apply foldl_preserves; [intros; by apply MutexOk_build_function_net|].
  intros t key Hin. by apply elem_of_nil in Hin.
Qed.

(** *** Arcs into and out of transitions *)

Lemma HasIn_intro b b' t :
  HasIn b →
  Grows b b' →
  (∀ t', t' ∈ transitions (net b') → t' ∈ transitions (net b) ∨ t' = t) →
  (∃ a, a ∈ arcs (net b') ∧ target a = t_id t) →
  HasIn b'.
Proof.
  intros Hb Hg Ht Ha t' Hin.
  destruct (Ht _ Hin) as [Hold| ->]; [|done].
  destruct (Hb t' Hold) as (a & Hin_a & Htgt). exists a. split; [|done].
  eapply prefix_elem; [apply Hg|done].
Qed.

Lemma HasOut_intro b b' t :
  HasOut b →
  Grows b b' →
  (∀ t', t' ∈ transitions (net b') → t' ∈ transitions (net b) ∨ t' = t) →
  (∃ a, a ∈ arcs (net b') ∧ source a = t_id t) →
  HasOut b'.
Proof.
  intros Hb Hg Ht Ha t' Hin.
  destruct (Ht _ Hin) as [Hold| ->]; [|done].
  destruct (Hb t' Hold) as (a & Hin_a & Hsrc). exists a. split; [|done].
  eapply prefix_elem; [apply Hg|done].
Qed.

Lemma HasIn_same b b' :
  HasIn b → Grows b b' → transitions (net b') = transitions (net b) →
  HasIn b'.
Proof.
  intros Hb Hg Ht t' Hin. rewrite Ht in Hin.
  destruct (Hb t' Hin) as (a & Hin_a & Htgt). exists a. split; [|done].
  eapply prefix_elem; [apply Hg|done].
Qed.

Lemma HasOut_same b b' :
  HasOut b → Grows b b' → transitions (net b') = transitions (net b) →
  HasOut b'.
Proof.
  intros Hb Hg Ht t' Hin. rewrite Ht in Hin.
  destruct (Hb t' Hin) as (a & Hin_a & Hsrc). exists a. split; [|done].
  eapply prefix_elem; [apply Hg|done].
Qed.

Lemma Grows_add_arc s t w b : Grows b (add_arc s t w b).
Proof. split; autorewrite with bld; try done. by apply prefix_app_r. Qed.

Lemma elem_of_arcs_add_arc s t w b :
  mkArc ("arc_" +:+ pretty (arc_id_counter b + 1)) s t w
  ∈ arcs (net (add_arc s t w b)).
Proof. autorewrite with bld. apply elem_of_app. right. left. Qed.

(** A transition inserted together with its incoming arc. *)
Lemma HasIn_add_in t src w b b' :
  HasIn b →
  Grows (add_arc src (t_id t) w (add_transition t b)) b' →
  transitions (net b') = transitions (net (add_transition t b)) →
  HasIn b'.
Proof.
  intros Hb Hg Ht. apply (HasIn_intro b b' t); [done| | |].
  - etrans; [|done]. etrans; [apply Grows_add_transition|apply Grows_add_arc].
  - intros t'. rewrite Ht. apply elem_of_transitions_add_transition.
  - eexists. split.
    + eapply prefix_elem; [apply Hg|]. apply elem_of_arcs_add_arc.
    + reflexivity.
Qed.

(** A transition inserted together with an outgoing arc, possibly after
    other insertions. *)
Lemma HasOut_add_out t dst w b b1 b' :
  HasOut b →
  Grows (add_transition t b) b1 →
  Grows (add_arc (t_id t) dst w b1) b' →
  transitions (net b') = transitions (net (add_transition t b)) →
  HasOut b'.
Proof.
  intros Hb Hg1 Hg Ht. apply (HasOut_intro b b' t); [done| | |].
  - etrans; [apply Grows_add_transition|]. etrans; [done|].
    etrans; [apply Grows_add_arc|done].
  - intros t'. rewrite Ht. apply elem_of_transitions_add_transition.
  - eexists. split.
    + eapply prefix_elem; [apply Hg|]. apply elem_of_arcs_add_arc.
    + reflexivity.
Qed.

Lemma Grows_edge_tail tid dst lk uk b :
  Grows b (add_unlock_arcs tid uk (add_lock_arcs tid lk (add_dst_arc tid dst b))).
Proof.
  etrans; [apply (Ext_add_dst_arc [] "")|].
  etrans; [apply (Ext_add_lock_arcs [] "")|apply (Ext_add_unlock_arcs [] "")].
Qed.

Lemma HasIn_add_edge f bb src m lk uk b tgt :
  HasIn b → HasIn (add_edge f bb src m lk uk b tgt).
Proof.
  intros Hb.
  eapply HasIn_add_in; [done| |apply transitions_add_edge].
  unfold add_edge. apply Grows_edge_tail.
Qed.

Lemma HasOut_add_edge f bb src m lk uk b tgt v :
  m !! tgt = Some v → truthy v = true →
  HasOut b → HasOut (add_edge f bb src m lk uk b tgt).
Proof.
  intros Hm Hv Hb.
  eapply (HasOut_add_out _ v 1);
    [done|apply Grows_add_arc| |apply transitions_add_edge].
  unfold add_edge. rewrite Hm. unfold add_dst_arc at 1. rewrite Hv.
  etrans; [apply (Ext_add_lock_arcs [] "")|apply (Ext_add_unlock_arcs [] "")].
Qed.

Lemma HasIn_add_start f bbs m b : HasIn b → HasIn (add_start f bbs m b).
Proof.
  intros Hb. unfold add_start. case_match; [|done].
  eapply HasIn_add_in; [done|apply Grows_add_arc|by autorewrite with bld].
Qed.

Lemma HasOut_add_start f bbs m b : HasOut b → HasOut (add_start f bbs m b).
Proof.
  intros Hb. unfold add_start. case_match; [|done].
  eapply HasOut_add_out;
    [done|apply Grows_add_arc|reflexivity|by autorewrite with bld].
Qed.

Lemma HasIn_add_return f bb src b : HasIn b → HasIn (add_return f bb src b).
Proof.
  intros Hb. unfold add_return.
  eapply HasIn_add_in; [done|apply Grows_add_arc|by autorewrite with bld].
Qed.

Lemma HasOut_add_return f bb src b :
  HasOut b → HasOut (add_return f bb src b).
Proof.
  intros Hb. unfold add_return.
  eapply HasOut_add_out;
    [done|apply Grows_add_arc|reflexivity|by autorewrite with bld].
Qed.

Lemma HasIn_process_block f fn m b bb :
  HasIn b → HasIn (process_block f fn m b bb).
Proof.
  intros Hb. unfold process_block.
  repeat case_match; try done;
    try (by apply (HasIn_same b); [done|apply (Ext_add_warning [] "")|]).
  all: match goal with
       | H : classify _ _ _ _ _ = _ |- _ =>
           apply classify_spec in H as [_ Hc]
       end.
  all: try apply HasIn_add_return.
  all: apply foldl_preserves; [intros; by apply HasIn_add_edge|].
  all: destruct Hc as [->|[w ->]]; [done|].
  all: by apply (HasIn_same b); [done|apply (Ext_add_warning [] "")|].
Qed.

Lemma HasOut_process_block f fn m b bb :
  (∀ term tgt, is_cleanup bb = false → terminator bb = Some term →
     tgt ∈ successors term → ∃ v, m !! tgt = Some v ∧ truthy v = true) →
  HasOut b → HasOut (process_block f fn m b bb).
Proof.
  intros Hcl Hb. unfold process_block.
  destruct (is_cleanup bb) eqn:Hc; [done|].
  destruct (m !! bb_id bb) as [src|]; [|done].
  destruct (negb (truthy src)); [done|].
  destruct (terminator bb) as [term|] eqn:Hterm;
    [|by apply (HasOut_same b); [done|apply (Ext_add_warning [] "")|]].
  destruct (classify f fn bb term b) as [[[tg lk] uk] b1] eqn:Hcls.
  apply classify_spec in Hcls as [-> Hb1].
  assert (HasOut (foldl (add_edge f bb src m lk uk) b1 (successors term))).
  { apply foldl_preserves.
    - intros b2 tgt Htgt Hb2.
      destruct (Hcl term tgt eq_refl eq_refl Htgt) as (v & Hv & Htr).
      by eapply HasOut_add_edge.
    - destruct Hb1 as [->|[w ->]]; [done|].
      by apply (HasOut_same b); [done|apply (Ext_add_warning [] "")|]. }
  destruct term; try done. by apply HasOut_add_return.
Qed.

Lemma HasIn_alloc_places f bbs b :
  HasIn b → HasIn (foldl (alloc_places f) b bbs).
Proof.
  intros Hb. apply (HasIn_same b); [done|apply (Ext_alloc_places [] "")|].
  apply (foldl_preserves (λ b', transitions (net b') = transitions (net b)));
    [|done].
  intros b' bb _ Hb'. unfold alloc_places.
  destruct (is_cleanup bb); [done|]. by autorewrite with bld.
Qed.

Lemma HasOut_alloc_places f bbs b :
  HasOut b → HasOut (foldl (alloc_places f) b bbs).
Proof.
  intros Hb. apply (HasOut_same b); [done|apply (Ext_alloc_places [] "")|].
  apply (foldl_preserves (λ b', transitions (net b') = transitions (net b)));
    [|done].
  intros b' bb _ Hb'. unfold alloc_places.
  destruct (is_cleanup bb); [done|]. by autorewrite with bld.
Qed.

Lemma HasIn_build_function_net fn e b :
  HasIn b → HasIn (_build_function_net fn e b).
Proof.
  intros Hb. unfold _build_function_net. rewrite foldl_alloc_block.
  apply foldl_preserves; [intros; by apply HasIn_process_block|].
  apply HasIn_add_start, HasIn_alloc_places.
  apply (HasIn_same b); [done| |by autorewrite with bld].
  etrans; apply Grows_add_place.
Qed.

Lemma targets_closed_spec fn bb term m :
  targets_closed fn = true →
  bb ∈ basic_blocks fn → is_cleanup bb = false →
  terminator bb = Some term → m ∈ successors term →
  ∃ bb', bb' ∈ basic_blocks fn ∧ is_cleanup bb' = false ∧ bb_id bb' = m.
Proof.
  unfold targets_closed. rewrite forallb_forall.
  intros Hcl Hbb Hc Hterm Hm.
  apply list_elem_of_In, Hcl in Hbb. rewrite Hc, Hterm in Hbb. simpl in Hbb.
  rewrite forallb_forall in Hbb. apply list_elem_of_In, Hbb in Hm.
  unfold has_block in Hm. apply existsb_exists in Hm as (bb' & Hin & Hb').
  apply andb_true_iff in Hb' as [Hc' Hid].
  exists bb'. split_and!.
  - by apply list_elem_of_In.
  - by destruct (is_cleanup bb').
  - by apply Z.eqb_eq.
Qed.

Lemma HasOut_build_function_net fn e b :
  targets_closed fn = true →
  HasOut b → HasOut (_build_function_net fn e b).
Proof.
  intros Hcl Hb. unfold _build_function_net. rewrite foldl_alloc_block.
  apply foldl_preserves.
  - intros b' bb Hbb Hb'. apply HasOut_process_block; [|done].
    intros term tgt Hc Hterm Htgt.
    destruct (targets_closed_spec fn bb term tgt Hcl Hbb Hc Hterm Htgt)
      as (bb' & Hin & Hc' & <-).
    eexists. split; [by apply alloc_map_lookup|done].
  - apply HasOut_add_start, HasOut_alloc_places.
    apply (HasOut_same b); [done| |by autorewrite with bld].
    etrans; apply Grows_add_place.
Qed.

Lemma HasIn_run_builder functions e max_fns :
  HasIn (run_builder functions e max_fns).
Proof.
  unfold run_builder.
  apply foldl_preserves; [intros; by apply HasIn_build_function_net|].
  intros t Hin. by apply elem_of_nil in Hin.
Qed.

Lemma HasOut_run_builder functions e max_fns :
  forallb targets_closed (fns_to_process functions max_fns) = true →
  HasOut (run_builder functions e max_fns).
Proof.
  intros Hcl. rewrite forallb_forall in Hcl. unfold run_builder.
  apply foldl_preserves.
  2: { intros t Hin. by apply elem_of_nil in Hin. }
  intros b fn Hfn Hb. apply HasOut_build_function_net; [|done].
  by apply Hcl, list_elem_of_In.
Qed.

(** *** What a processed function is sure to have inserted *)

Lemma edge_seen f bb src m lk uk b tgt :
  edge_id f (bb_id bb) tgt
  ∈ seen_transitions (add_edge f bb src m lk uk b tgt).
Proof.
  unfold add_edge.
  eapply (gr_seen_t (add_transition (edge_transition f bb tgt lk uk) b)).
  - etrans; [apply Grows_add_arc|apply Grows_edge_tail].
  - autorewrite with bld. apply elem_of_union. left.
    by apply elem_of_singleton.
Qed.

Lemma seen_transitions_mono i b b' :
  i ∈ seen_transitions b → Grows b b' → i ∈ seen_transitions b'.
Proof. intros Hi Hg. by apply (gr_seen_t _ _ Hg). Qed.

Lemma seen_places_mono i b b' :
  i ∈ seen_places b → Grows b b' → i ∈ seen_places b'.
Proof. intros Hi Hg. by apply (gr_seen_p _ _ Hg). Qed.

Lemma process_block_edge_seen f fn m b bb term tgt src :
  is_cleanup bb = false →
  m !! bb_id bb = Some src → truthy src = true →
  terminator bb = Some term → tgt ∈ successors term →
  edge_id f (bb_id bb) tgt ∈ seen_transitions (process_block f fn m b bb).
Proof.
  intros Hc Hm Hsrc Hterm Htgt. unfold process_block.
  rewrite Hc, Hm, Hsrc, Hterm. simpl.
  destruct (classify f fn bb term b) as [[[tg lk] uk] b1] eqn:Hcls.
  apply classify_spec in Hcls as [-> _].
  assert (edge_id f (bb_id bb) tgt
          ∈ seen_transitions
              (foldl (add_edge f bb src m lk uk) b1 (successors term))).
  { apply (foldl_reached (λ b', edge_id f (bb_id bb) tgt ∈ seen_transitions b')
             _ _ _ tgt); [done|..].
    - intros. apply Grows_add_edge.
    - intros. apply edge_seen.
    - intros ??. apply seen_transitions_mono. }
  destruct term; try done. by apply elem_of_nil in Htgt.
Qed.

Lemma build_function_net_edge_seen fn e b bb term tgt :
  bb ∈ basic_blocks fn → is_cleanup bb = false →
  terminator bb = Some term → tgt ∈ successors term →
  edge_id (name fn) (bb_id bb) tgt
  ∈ seen_transitions (_build_function_net fn e b).
Proof.
  intros Hbb Hc Hterm Htgt.
  unfold _build_function_net. rewrite foldl_alloc_block.
  apply (foldl_reached
           (λ b', edge_id (name fn) (bb_id bb) tgt ∈ seen_transitions b')
           _ _ _ bb); [done|..].
  - intros. apply Grows_process_block.
  - intros.
    eapply process_block_edge_seen; [done|by apply alloc_map_lookup|done..].
  - intros ??. apply seen_transitions_mono.
Qed.

Lemma run_builder_edge_seen functions e max_fns fn bb term tgt :
  fn ∈ fns_to_process functions max_fns →
  bb ∈ basic_blocks fn → is_cleanup bb = false →
  terminator bb = Some term → tgt ∈ successors term →
  edge_id (name fn) (bb_id bb) tgt
  ∈ seen_transitions (run_builder functions e max_fns).
Proof.
  intros Hfn Hbb Hc Hterm Htgt. unfold run_builder.
  apply (foldl_reached
           (λ b', edge_id (name fn) (bb_id bb) tgt ∈ seen_transitions b')
           _ _ _ fn); [done|..].
  - intros. apply Grows_build_function_net.
  - intros. by eapply build_function_net_edge_seen.
  - intros ??. apply seen_transitions_mono.
Qed.

Lemma build_function_net_entry_seen fn e b :
  entry_id (name fn) ∈ seen_places (_build_function_net fn e b).
Proof.
  unfold _build_function_net. rewrite foldl_alloc_block.
  eapply (gr_seen_p
            (add_place (entry_place (name fn) (bool_decide (name fn = e))) b)).
  - etrans; [apply Grows_add_place|].
    etrans; [apply (Ext_alloc_places [] "")|].
    etrans; [apply (Ext_add_start [] "")|].
    apply (Ext_foldl [] ""). intros. apply Ext_process_block.
  - autorewrite with bld. apply elem_of_union. left.
    by apply elem_of_singleton.
Qed.

Lemma run_builder_entry_seen functions e max_fns fn :
  fn ∈ fns_to_process functions max_fns →
  entry_id (name fn) ∈ seen_places (run_builder functions e max_fns).
Proof.
  intros Hfn. unfold run_builder.
  apply (foldl_reached (λ b', entry_id (name fn) ∈ seen_places b') _ _ _ fn);
    [done|..].
  - intros. apply Grows_build_function_net.
  - intros. apply build_function_net_entry_seen.
  - intros ??. apply seen_places_mono.
Qed.

(** *** Reading the shape of a place off its id *)

Ltac shape_ids H :=
  repeat match type of H with
    | context [p_id (entry_place ?f ?b)] =>
        change (p_id (entry_place f b)) with (entry_id f) in H
    | context [p_id (exit_place ?f)] =>
        change (p_id (exit_place f)) with (exit_id f) in H
    | context [p_id (bb_place ?f ?k)] =>
        change (p_id (bb_place f k)) with (bb_place_id f k) in H
    | context [p_id (mutex_free_place ?k)] =>
        change (p_id (mutex_free_place k)) with (mutex_free_id k) in H
    | context [p_id (mutex_held_place ?k)] =>
        change (p_id (mutex_held_place k)) with (mutex_held_id k) in H
    end.

Ltac shape_contra H :=
  shape_ids H;
  first
    [ by rewrite last_entry_id in H
    | by rewrite last_exit_id in H
    | by rewrite last_mutex_free_id in H
    | by rewrite last_mutex_held_id in H
    | match type of H with
      | context [bb_place_id ?f ?k] =>
          let c := fresh "c" in
          let Hc := fresh "Hc" in
          let Hd := fresh "Hd" in
          destruct (last_bb_place_id f k) as (c & Hc & Hd);
          rewrite Hc in H; by simplify_eq
      end ].

Lemma shape_of_mutex_free ns e p key :
  place_shape ns e p → p_id p = mutex_free_id key → init_tokens p = 1.
Proof.
  intros Hp Hid. apply (f_equal last_char) in Hid.
  rewrite last_mutex_free_id in Hid.
  destruct Hp as [(f & _ & ->)|[(f & ->)|[(f & k & ->)|[(k & ->)|(k & ->)]]]];
    first [reflexivity | shape_contra Hid].
Qed.

Lemma shape_of_mutex_held ns e p key :
  place_shape ns e p → p_id p = mutex_held_id key → init_tokens p = 0.
Proof.
  intros Hp Hid. apply (f_equal last_char) in Hid.
  rewrite last_mutex_held_id in Hid.
  destruct Hp as [(f & _ & ->)|[(f & ->)|[(f & k & ->)|[(k & ->)|(k & ->)]]]];
    first [shape_contra Hid | reflexivity].
Qed.

Lemma shape_of_entry ns e p :
  place_shape ns e p → is_entry_place p →
  ∃ f, f ∈ ns ∧ p = entry_place f (bool_decide (f = e)).
Proof.
  intros Hp [g Hid]. apply (f_equal last_char) in Hid.
  rewrite last_entry_id in Hid.
  destruct Hp as [(f & Hf & ->)|[(f & ->)|[(f & k & ->)|[(k & ->)|(k & ->)]]]];
    first [shape_contra Hid | eauto].
Qed.

Lemma shape_annotations ns e p : place_shape ns e p → p_annotations p = [].
Proof.
  intros [(f & _ & ->)|[(f & ->)|[(f & k & ->)|[(k & ->)|(k & ->)]]]]; done.
Qed.

End BuilderFacts.

(* ===================================================================== *)
(** ** Properties of the net builder *)
(* ===================================================================== *)

Import PyStr PnBuilder Props StrFacts BuilderFacts Scenarios.

Lemma filter_length_pos {A} (P : A → Prop) `{∀ x, Decision (P x)}
    (l : list A) (x : A) :
  x ∈ l → P x → (1 ≤ List.length (filter P l))%nat.
Proof.
  intros Hx HP.
  assert (x ∈ filter P l) as Hf by by apply list_elem_of_filter.
  destruct (filter P l); [by apply elem_of_nil in Hf|simpl; lia].
Qed.

Lemma count_place_one names e b i :
  Inv names e b → i ∈ seen_places b → count_place (net b) i = 1%nat.
Proof.
  intros HI Hi. apply (inv_seen_p _ _ _ HI) in Hi.
  apply list_elem_of_fmap in Hi as (p & -> & Hp).
  apply (filter_id_length p_id); [apply HI|done].
Qed.

Lemma count_transition_one names e b i :
  Inv names e b → i ∈ seen_transitions b →
  count_transition (net b) i = 1%nat.
Proof.
  intros HI Hi. apply (inv_seen_t _ _ _ HI) in Hi.
  apply list_elem_of_fmap in Hi as (t & -> & Ht).
  apply (filter_id_length t_id); [apply HI|done].
Qed.

(** C1.  In every net [build_petri_net] returns, each mutex key that is the
    [op] of a transition of kind [lock] or [unlock] has its place
    [p_mutex_K_free] exactly once, with one initial token, and its place
    [p_mutex_K_held] exactly once, with none; how many transitions share
    the key does not matter. *)
Theorem C1_mutex_places_once functions entry_fn max_fns t key :
  let net := build_petri_net functions entry_fn max_fns in
  t ∈ transitions net →
  t_kind t = "lock" ∨ t_kind t = "unlock" →
  op t = Some key →
  count_place net (mutex_free_id key) = 1%nat
  ∧ count_place net (mutex_held_id key) = 1%nat
  ∧ (∀ p, p ∈ places net → p_id p = mutex_free_id key → init_tokens p = 1)
  ∧ (∀ p, p ∈ places net → p_id p = mutex_held_id key → init_tokens p = 0).
Proof.
  intros net Ht Hkind Hop. subst net. unfold build_petri_net in *.
  pose proof (Inv_run_builder functions entry_fn max_fns) as HI.
  destruct (MutexOk_run_builder functions entry_fn max_fns t key Ht Hkind Hop)
    as [Hfree Hheld].
  split_and!.
  - by eapply count_place_one.
  - by eapply count_place_one.
  - intros p Hp Hid. eapply shape_of_mutex_free; [|done].
    by eapply Forall_forall; [apply HI|].
  - intros p Hp Hid. eapply shape_of_mutex_held; [|done].
    by eapply Forall_forall; [apply HI|].
Qed.

(** The net of the test suite: the lock transition on [bb0 -> bb1] carries
    the key [_1]. *)
Lemma C1_mutex_places_once_witness :
  let net := build_petri_net (parsed MINIMAL_MIR) "main" None in
  count_place net (mutex_free_id "_1") = 1%nat
  ∧ count_place net (mutex_held_id "_1") = 1%nat
  ∧ (∀ p, p ∈ places net → p_id p = mutex_free_id "_1" → init_tokens p = 1)
  ∧ (∀ p, p ∈ places net → p_id p = mutex_held_id "_1" → init_tokens p = 0).
Proof.
  apply (C1_mutex_places_once (parsed MINIMAL_MIR) "main" None
           (mkTransition "t_main_bb0_to_bb1" "main_bb0_to_bb1" "lock"
              (Some "_1") []) "_1").
  - vm_compute. right. left.
  - left. reflexivity.
  - reflexivity.
Defined.

(** C4, as the code has it.  A [switchInt] with a repeated target yields
    one transition per distinct target: here three targets, two of them
    [bb1], feed two transitions from the place of [bb0]. *)
Lemma C4_switch_duplicates_counterexample :
  let fns := parsed mir_switch_dup in
  let net := build_petri_net fns "f" None in
  (∃ fn bb, fns = [fn] ∧ bb ∈ basic_blocks fn ∧ is_cleanup bb = false
            ∧ bb_id bb = 0
            ∧ terminator bb = Some (TerminatorSwitch [1; 1; 2]))
  ∧ map t_id (transitions_from net (bb_place_id "f" 0))
    = ["t_f_bb0_to_bb1"; "t_f_bb0_to_bb2"]
  ∧ count_transition net (edge_id "f" 0 1) = 1%nat.
Proof.
  split; [|split; vm_compute; reflexivity].
  eexists _, _. split; [vm_compute; reflexivity|].
  split; [left|]. by vm_compute.
Qed.

Lemma NoDup_map_filter {A} (g : A → string) (P : A → Prop)
    `{∀ x, Decision (P x)} (l : list A) :
  NoDup (map g l) → NoDup (map g (filter P l)).
Proof.
  induction l as [|x l IH]; [done|]. simpl.
  intros [Hx Hl]%NoDup_cons. rewrite filter_cons.
  case_decide; [|by apply IH]. simpl. apply NoDup_cons. split; [|by apply IH].
  intros (y & Hy & [_ Hin]%list_elem_of_filter)%list_elem_of_fmap.
  apply Hx. rewrite Hy. by apply list_elem_of_fmap_2.
Qed.

(** In a list with distinct ids, as many elements have their id in a
    duplicate-free list of present ids as that list is long. *)
Lemma filter_ids_length {A} (g : A → string) (l : list A) (S : list string) :
  NoDup (map g l) → NoDup S → (∀ i, i ∈ S → i ∈ map g l) →
  List.length (filter (λ x, g x ∈ S) l) = List.length S.
Proof.
  intros Hl HS Hin.
  rewrite <- (length_fmap g). apply Permutation_length.
  apply NoDup_Permutation; [by apply NoDup_map_filter|done|].
  intros i. split.
  - by intros (x & -> & [Hx _]%list_elem_of_filter)%list_elem_of_fmap.
  - intros Hi. pose proof (Hin i Hi) as Hx.
    apply list_elem_of_fmap in Hx as (x & -> & Hx).
    apply list_elem_of_fmap_2. by apply list_elem_of_filter.
Qed.

Lemma edge_id_inj f k : Inj (=) (=) (edge_id f k).
Proof.
  unfold edge_id. intros m m' E.
  do 5 apply String.app_inj in E. by apply (inj pretty) in E.
Qed.

(** C4, amended.  For a processed non-cleanup block ending in
    [switchInt] with targets [ts], every target in [ts] has exactly one
    transition [t_{f}_bb{K}_to_bb{M}] in the net, however often it occurs
    in [ts] ([add_transition] is keyed by id), and different targets have
    different transitions: the transitions of the block's edges are as
    many as the distinct targets. *)
Theorem C4_switch_one_transition_per_target
    functions entry_fn max_fns fn bb ts :
  let net := build_petri_net functions entry_fn max_fns in
  fn ∈ fns_to_process functions max_fns →
  bb ∈ basic_blocks fn →
  is_cleanup bb = false →
  terminator bb = Some (TerminatorSwitch ts) →
  (∀ m, m ∈ ts →
     count_transition net (edge_id (name fn) (bb_id bb) m) = 1%nat)
  ∧ (∀ m m', edge_id (name fn) (bb_id bb) m = edge_id (name fn) (bb_id bb) m'
             → m = m')
  ∧ List.length
      (filter (λ t, t_id t ∈ map (edge_id (name fn) (bb_id bb)) ts)
         (transitions net))
    = List.length (remove_dups ts).
Proof.
  intros net Hfn Hbb Hc Hterm.
  assert (∀ m, m ∈ ts →
            edge_id (name fn) (bb_id bb) m
            ∈ seen_transitions (run_builder functions entry_fn max_fns))
    as Hseen.
  { intros m Hm. by eapply run_builder_edge_seen. }
  pose proof (Inv_run_builder functions entry_fn max_fns) as HI.
  split_and!.
  - intros m Hm. subst net. unfold build_petri_net.
    eapply count_transition_one; [done|by apply Hseen].
  - apply edge_id_inj.
  - subst net. unfold build_petri_net.
    rewrite <- (length_fmap (edge_id (name fn) (bb_id bb)) (remove_dups ts)).
    rewrite <- (filter_ids_length t_id
                  (transitions (net (run_builder functions entry_fn max_fns)))
                  (edge_id (name fn) (bb_id bb) <$> remove_dups ts)).
    + f_equal. apply list_filter_iff. intros t.
      rewrite !list_elem_of_fmap. by setoid_rewrite elem_of_remove_dups.
    + apply HI.
    + apply (NoDup_fmap_2 (edge_id (name fn) (bb_id bb))
               (Inj0 := edge_id_inj _ _)), NoDup_remove_dups.
    + intros i (m & -> & Hm)%list_elem_of_fmap.
      rewrite elem_of_remove_dups in Hm.
      by apply (inv_seen_t _ _ _ HI), Hseen.
Qed.

Lemma C4_switch_one_transition_per_target_witness :
  let net := build_petri_net (parsed mir_switch_dup) "f" None in
  (∀ m, m ∈ [1; 1; 2] → count_transition net (edge_id "f" 0 m) = 1%nat)
  ∧ (∀ m m', edge_id "f" 0 m = edge_id "f" 0 m' → m = m')
  ∧ List.length
      (filter (λ t, t_id t ∈ map (edge_id "f" 0) [1; 1; 2]) (transitions net))
    = List.length (remove_dups [1; 1; 2]).
Proof.
  apply (C4_switch_one_transition_per_target (parsed mir_switch_dup) "f" None
           (mkMirFunction "f" []
              [mkBasicBlock 0 [] (Some (TerminatorSwitch [1; 1; 2])) false 3;
               mkBasicBlock 1 [] (Some TerminatorReturn) false 6;
               mkBasicBlock 2 [] (Some TerminatorReturn) false 9] ∅ ∅)
           (mkBasicBlock 0 [] (Some (TerminatorSwitch [1; 1; 2])) false 3)
           [1; 1; 2]).
  - vm_compute. left.
  - left.
  - reflexivity.
  - reflexivity.
Defined.

(** C5, as the code has it.  The edge of a [goto] into a cleanup block
    gets its transition and the arc into it, but no arc out of it. *)
Lemma C5_degree_counterexample :
  let net := build_petri_net (parsed mir_goto_cleanup) "main" None in
  map t_id (transitions net) = ["t_main_start"; "t_main_bb0_to_bb1"]
  ∧ in_degree net "t_main_bb0_to_bb1" = 1%nat
  ∧ out_degree net "t_main_bb0_to_bb1" = 0%nat.
Proof. by vm_compute. Qed.

Lemma alloc_map_absent f bbs (m : gmap Z string) tgt :
  m !! tgt = None →
  (∀ bb, bb ∈ bbs → is_cleanup bb = false → bb_id bb ≠ tgt) →
  foldl (alloc_map f) m bbs !! tgt = None.
Proof.
  revert m. induction bbs as [|bb bbs IH]; intros m Hm Hn; [done|].
  simpl. apply IH; [|intros bb' Hbb'; apply Hn; by right].
  unfold alloc_map. destruct (is_cleanup bb) eqn:Hc; [done|].
  rewrite lookup_insert_ne; [done|]. apply Hn; [left|done].
Qed.

Lemma bb_to_place_absent fn tgt :
  has_block fn tgt = false → bb_to_place_of fn !! tgt = None.
Proof.
  intros Hb. apply alloc_map_absent; [done|].
  intros bb Hbb Hc Hid. unfold has_block in Hb.
  assert (existsb (λ bb', negb (is_cleanup bb') && (bb_id bb' =? tgt))
            (basic_blocks fn) = true) as Hex; [|congruence].
  apply existsb_exists. exists bb. split; [by apply list_elem_of_In|].
  rewrite Hc. simpl. by apply Z.eqb_eq.
Qed.

(** C5, amended.  Every transition of a built net has in-degree at least
    1.  It has out-degree at least 1 as well when every successor of every
    processed non-cleanup block is a non-cleanup block of the same
    function.  A plain edge into a block that has no place (a cleanup
    block, or one that is missing) adds one arc only, the one into its
    transition ([if dst_place:]). *)
Theorem C5_transition_degrees functions entry_fn max_fns :
  let net := build_petri_net functions entry_fn max_fns in
  (∀ t, t ∈ transitions net → (1 ≤ in_degree net (t_id t))%nat)
  ∧ (forallb targets_closed (fns_to_process functions max_fns) = true →
     ∀ t, t ∈ transitions net → (1 ≤ out_degree net (t_id t))%nat)
  ∧ (∀ fn bb src b tgt,
       has_block fn tgt = false →
       arcs (PnBuilder.net
               (add_edge (name fn) bb src (bb_to_place_of fn) None None b
                  tgt))
       = arcs (PnBuilder.net b)
         ++ [mkArc ("arc_" +:+ pretty (arc_id_counter b + 1)) src
               (edge_id (name fn) (bb_id bb) tgt) 1]).
Proof.
  intros net. subst net. unfold build_petri_net in *. split_and!.
  - intros t Ht.
    destruct (HasIn_run_builder functions entry_fn max_fns t Ht)
      as (a & Ha & Htgt).
    by eapply filter_length_pos.
  - intros Hcl t Ht.
    destruct (HasOut_run_builder functions entry_fn max_fns Hcl t Ht)
      as (a & Ha & Hsrc).
    by eapply filter_length_pos.
  - intros fn bb src b tgt Hb.
    unfold add_edge, add_unlock_arcs, add_lock_arcs.
    rewrite (bb_to_place_absent fn tgt Hb). unfold add_dst_arc.
    by autorewrite with bld.
Qed.

Lemma C5_transition_degrees_witness :
  let net := build_petri_net (parsed MINIMAL_MIR) "main" None in
  (1 ≤ in_degree net "t_main_bb1_to_bb2")%nat
  ∧ (1 ≤ out_degree net "t_main_bb1_to_bb2")%nat.
Proof.
  destruct (C5_transition_degrees (parsed MINIMAL_MIR) "main" None)
    as (Hin & Hout & _).
  assert (mkTransition "t_main_bb1_to_bb2" "main_bb1_to_bb2" "unlock"
            (Some "_1") []
          ∈ transitions (build_petri_net (parsed MINIMAL_MIR) "main" None))
    as Ht.
  { vm_compute. right. right. left. }
  split.
  - exact (Hin _ Ht).
  - exact (Hout eq_refl _ Ht).
Defined.

(** C7, as the code has it.  When no processed function is called
    [entry_fn], no place at all carries an initial token, the entry place
    [p_helper_entry] included. *)
Lemma C7_entry_marking_counterexample :
  let net := build_petri_net (parsed mir_helper_only) "main" None in
  map (λ p, (p_id p, init_tokens p)) (places net)
  = [("p_helper_entry", 0); ("p_helper_exit", 0); ("p_helper_bb0", 0)]
  ∧ initial_marking net = ∅.
Proof. split; by vm_compute. Qed.

(** C7, amended.  If some processed function is called [entry_fn], the
    places of the net are [l1 ++ [p] ++ l2] where [p] is that function's
    entry place with one token, and no other place of the form
    [p_{fn}_entry] has a token.  If no processed function is called
    [entry_fn], no place of that form has a token. *)
Theorem C7_entry_marking functions entry_fn max_fns :
  let net := build_petri_net functions entry_fn max_fns in
  let names := map name (fns_to_process functions max_fns) in
  (entry_fn ∈ names →
   ∃ l1 l2,
     places net = l1 ++ [entry_place entry_fn true] ++ l2
     ∧ ∀ q, q ∈ l1 ++ l2 → is_entry_place q → init_tokens q = 0)
  ∧ (entry_fn ∉ names →
     ∀ q, q ∈ places net → is_entry_place q → init_tokens q = 0).
Proof.
  intros net names. subst net names. unfold build_petri_net.
  pose proof (Inv_run_builder functions entry_fn max_fns) as HI.
  set (b := run_builder functions entry_fn max_fns) in *.
  set (ns := map name (fns_to_process functions max_fns)) in *.
  assert (∀ q, q ∈ places (net b) → is_entry_place q →
            ∃ f, f ∈ ns ∧ q = entry_place f (bool_decide (f = entry_fn)))
    as Hshape.
  { intros q Hq. apply shape_of_entry.
    by eapply Forall_forall; [apply HI|]. }
  split.
  - intros Hin. apply list_elem_of_fmap in Hin as (fn & Hname & Hfn).
    pose proof (run_builder_entry_seen functions entry_fn max_fns fn Hfn)
      as Hseen. fold b in Hseen. rewrite <- Hname in Hseen.
    apply (inv_seen_p _ _ _ HI) in Hseen.
    apply list_elem_of_fmap in Hseen as (p & Hid & Hp).
    destruct (Hshape p Hp) as (f & _ & ->); [by exists entry_fn|].
    apply entry_id_inj in Hid. subst f. rewrite bool_decide_eq_true_2 in Hp by done.
    apply list_elem_of_split in Hp as (l1 & l2 & Hsplit).
    exists l1, l2. split; [done|].
    intros q Hq Hentry.
    assert (q ∈ places (net b)) as Hq'.
    { rewrite Hsplit. set_solver. }
    destruct (Hshape q Hq' Hentry) as (f & _ & ->).
    destruct (decide (f = entry_fn)) as [->|Hne].
    + exfalso. pose proof (inv_nodup_p _ _ _ HI) as Hnd.
      rewrite Hsplit, map_app in Hnd. simpl in Hnd.
      apply NoDup_app in Hnd as (_ & Hl1 & Hnd).
      apply NoDup_cons in Hnd as [Hl2 _].
      rewrite bool_decide_eq_true_2 in Hq by done.
      apply elem_of_app in Hq as [Hq|Hq].
      * eapply Hl1; [by apply (list_elem_of_fmap_2 p_id)|]. left.
      * apply Hl2. by apply (list_elem_of_fmap_2 p_id) in Hq.
    + simpl. by rewrite bool_decide_eq_false_2.
  - intros Hnot q Hq Hentry.
    destruct (Hshape q Hq Hentry) as (f & Hf & ->).
    simpl. rewrite bool_decide_eq_false_2; [done|]. by intros ->.
Qed.

Lemma C7_entry_marking_witness :
  let net := build_petri_net (parsed MINIMAL_MIR) "main" None in
  ∃ l1 l2,
    places net = l1 ++ [entry_place "main" true] ++ l2
    ∧ ∀ q, q ∈ l1 ++ l2 → is_entry_place q → init_tokens q = 0.
Proof.
  apply (C7_entry_marking (parsed MINIMAL_MIR) "main" None).
  vm_compute. left.
Defined.

(* ===================================================================== *)
(** ** The builder as a sequence of calls *)
(* ===================================================================== *)

Import BuildTrace BuildCalls AnySet.

Lemma foldl_concat {A B C} (f : A → B → A) (g : C → list B) l a :
  foldl f a (List.concat (map g l)) = foldl (λ a x, foldl f a (g x)) a l.
Proof.
  revert a. induction l as [|x l IH]; intros a; [done|].
  simpl. by rewrite foldl_app, IH.
Qed.

Lemma dst_arc_run tid dst b :
  add_dst_arc tid dst b = foldl run_call b (dst_arc_calls tid dst).
Proof.
  unfold add_dst_arc, dst_arc_calls. destruct dst as [d|]; [|done].
  by destruct (truthy d).
Qed.

Lemma lock_arcs_run tid lk b :
  add_lock_arcs tid lk b = foldl run_call b (lock_arcs_calls tid lk).
Proof.
  unfold add_lock_arcs, lock_arcs_calls. destruct lk as [key|]; [|done].
  by destruct (truthy key).
Qed.

Lemma unlock_arcs_run tid uk b :
  add_unlock_arcs tid uk b = foldl run_call b (unlock_arcs_calls tid uk).
Proof.
  unfold add_unlock_arcs, unlock_arcs_calls. destruct uk as [key|]; [|done].
  by destruct (truthy key).
Qed.

Lemma add_edge_run f bb src m lk uk b tgt :
  add_edge f bb src m lk uk b tgt
  = foldl run_call b (edge_calls f bb src m lk uk tgt).
Proof.
  unfold add_edge, edge_calls. cbv zeta.
  rewrite !foldl_app. by rewrite unlock_arcs_run, lock_arcs_run, dst_arc_run.
Qed.

Lemma classify_run f fn bb term b :
  classify f fn bb term b
  = let '(tg, lk, uk, ws) := classify_calls f fn bb term in
    (tg, lk, uk, foldl run_call b ws).
Proof.
  unfold classify_calls, classify.
  destruct term; repeat case_match; simplify_eq; reflexivity.
Qed.

Lemma process_block_run f fn m b bb :
  process_block f fn m b bb = foldl run_call b (block_calls f fn m bb).
Proof.
  unfold process_block, block_calls.
  destruct (is_cleanup bb); [done|].
  destruct (m !! bb_id bb) as [src|]; [|done].
  destruct (truthy src); simpl; [|done].
  destruct (terminator bb) as [term|]; [|done].
  rewrite classify_run.
  destruct (classify_calls f fn bb term) as [[[tg lk] uk] ws].
  rewrite !foldl_app, foldl_concat.
  assert (foldl (add_edge f bb src m lk uk) (foldl run_call b ws) tg
          = foldl (λ a x, foldl run_call a (edge_calls f bb src m lk uk x))
              (foldl run_call b ws) tg) as ->.
  { generalize (foldl run_call b ws). induction tg as [|t tg IH];
      intros b'; [done|]. simpl. by rewrite add_edge_run, IH. }
  by destruct term.
Qed.

Lemma add_start_run f bbs m b :
  add_start f bbs m b = foldl run_call b (start_calls f bbs m).
Proof. unfold add_start, start_calls. by destruct (first_non_cleanup bbs). Qed.

Lemma alloc_places_run f bbs b :
  foldl (alloc_places f) b bbs
  = foldl run_call b (List.concat (map (alloc_calls f) bbs)).
Proof.
  rewrite foldl_concat. revert b. induction bbs as [|bb bbs IH]; intros b;
    [done|].
  simpl. rewrite <- IH. f_equal.
  unfold alloc_places, alloc_calls. by destruct (is_cleanup bb).
Qed.

Lemma foldl_process_run f fn m bbs :
  ∀ b,
    foldl (process_block f fn m) b bbs
    = foldl run_call b (List.concat (map (block_calls f fn m) bbs)).
Proof.
  induction bbs as [|bb bbs IH]; intros b; [done|].
  simpl. by rewrite foldl_app, process_block_run, IH.
Qed.

Lemma build_function_net_run fn e b :
  _build_function_net fn e b = foldl run_call b (function_calls fn e).
Proof.
  unfold _build_function_net, function_calls. cbv zeta.
  rewrite foldl_alloc_block.
  rewrite foldl_process_run, add_start_run, alloc_places_run.
  by rewrite !foldl_app.
Qed.

(** The builder runs the calls of [build_calls], one after the other. *)
Lemma run_builder_calls functions e max_fns :
  run_builder functions e max_fns
  = foldl run_call init_builder (build_calls functions e max_fns).
Proof.
  unfold run_builder, build_calls. rewrite foldl_concat.
  generalize init_builder.
  induction (fns_to_process functions max_fns) as [|fn fns IH]; intros b;
    [done|].
  simpl. by rewrite build_function_net_run, IH.
Qed.

(** *** Any representation of the sets gives the same net *)

Section Agree.
Context {T : Type}.
Variable set_empty : T.
Variable set_mem : string → T → bool.
Variable set_add : string → T → T.
Hypothesis laws : set_laws set_empty set_mem set_add.

Lemma agree_init : agree set_mem (s_init set_empty) init_builder.
Proof.
  destruct laws as [Hempty _]. split_and!; try done.
  all: intros x; simpl; rewrite Hempty; symmetry;
    apply bool_decide_eq_false_2, not_elem_of_empty.
Qed.

Lemma agree_mem_add (s : T) (g : gset string) x y :
  (∀ x, set_mem x s = bool_decide (x ∈ g)) →
  set_mem x (set_add y s) = bool_decide (x ∈ {[y]} ∪ g).
Proof.
  intros Hs. destruct laws as [_ Hadd]. rewrite Hadd, Hs.
  destruct (decide (x = y)) as [->|Hne].
  - rewrite bool_decide_eq_true_2 by done. simpl. symmetry.
    apply bool_decide_eq_true_2. set_solver.
  - rewrite (bool_decide_eq_false_2 (x = y)) by done. simpl.
    apply bool_decide_ext. set_solver.
Qed.

Lemma agree_run_call sb b o :
  agree set_mem sb b →
  agree set_mem (s_run_call set_mem set_add sb o) (run_call b o).
Proof.
  intros (Hn & Hc & Hp & Ht). destruct o as [p|t|s t w|w]; simpl.
  - unfold s_add_place, add_place. rewrite Hp.
    destruct (decide (p_id p ∈ seen_places b)) as [Hin|Hin].
    + rewrite bool_decide_eq_true_2 by done. by split_and!.
    + rewrite bool_decide_eq_false_2 by done. cbv zeta. rewrite Hn.
      split_and!; try done. intros x. simpl. by apply agree_mem_add.
  - unfold s_add_transition, add_transition. rewrite Ht.
    destruct (decide (t_id t ∈ seen_transitions b)) as [Hin|Hin].
    + rewrite bool_decide_eq_true_2 by done. by split_and!.
    + rewrite bool_decide_eq_false_2 by done. cbv zeta. rewrite Hn.
      split_and!; try done. intros x. simpl. by apply agree_mem_add.
  - unfold s_add_arc, add_arc. cbv zeta. rewrite Hn, Hc. by split_and!.
  - unfold s_add_warning, add_warning. cbv zeta. rewrite Hn. by split_and!.
Qed.

Lemma agree_foldl cs :
  ∀ sb b,
    agree set_mem sb b →
    agree set_mem (foldl (s_run_call set_mem set_add) sb cs)
      (foldl run_call b cs).
Proof.
  induction cs as [|o cs IH]; intros sb b H; [done|].
  simpl. apply IH. by apply agree_run_call.
Qed.

(** Whatever the representation, the net is the one of the builder. *)
Lemma build_with_net functions entry_fn max_fns :
  build_with set_empty set_mem set_add functions entry_fn max_fns
  = build_petri_net functions entry_fn max_fns.
Proof.
  unfold build_with, build_petri_net. rewrite run_builder_calls.
  apply agree_foldl, agree_init.
Qed.

End Agree.

Lemma list_mem_elem_of x (s : list string) : list_mem x s = bool_decide (x ∈ s).
Proof.
  unfold list_mem. induction s as [|y s IH]; cbn [existsb].
  - symmetry. apply bool_decide_eq_false_2, not_elem_of_nil.
  - rewrite IH. destruct (String.eqb_spec x y) as [->|Hne]; simpl.
    + symmetry. apply bool_decide_eq_true_2. left.
    + apply bool_decide_ext. rewrite elem_of_cons. naive_solver.
Qed.

Lemma add_front_laws : set_laws [] list_mem add_front.
Proof.
  split; [done|]. intros x y s. unfold add_front. simpl.
  destruct (String.eqb_spec x y) as [->|Hne].
  - by rewrite bool_decide_eq_true_2.
  - by rewrite bool_decide_eq_false_2.
Qed.

Lemma add_back_laws : set_laws [] list_mem add_back.
Proof.
  split; [done|]. intros x y s. unfold add_back.
  rewrite !list_mem_elem_of.
  destruct (decide (x = y)) as [->|Hne].
  - rewrite (bool_decide_eq_true_2 (y = y)) by done. simpl.
    apply bool_decide_eq_true_2. set_solver.
  - rewrite (bool_decide_eq_false_2 (x = y)) by done. simpl.
    apply bool_decide_ext. set_solver.
Qed.

(** C9.  [build_petri_net] is deterministic: the net is a function of the
    arguments alone.  A call starts from a fresh net, fresh sets and a
    fresh counter, and of its two sets it only ever asks membership; so
    the order in which the interpreter keeps a set, which changes from
    run to run, has no say.  Built from the same arguments over any two
    representations of sets, the two nets have the same places,
    transitions, arcs and initial marking, in the same order, hence the
    same multiset of (id, kind, endpoints) triples; and they are the net
    [build_petri_net] returns.  Insertion is idempotent and keyed by id:
    inserting a place or a transition whose id was inserted before
    changes nothing. *)
Theorem C9_deterministic_idempotent {T1 T2 : Type}
    (empty1 : T1) (mem1 : string → T1 → bool) (add1 : string → T1 → T1)
    (empty2 : T2) (mem2 : string → T2 → bool) (add2 : string → T2 → T2)
    functions entry_fn max_fns :
  set_laws empty1 mem1 add1 →
  set_laws empty2 mem2 add2 →
  let net1 := build_with empty1 mem1 add1 functions entry_fn max_fns in
  let net2 := build_with empty2 mem2 add2 functions entry_fn max_fns in
  (places net1 = places net2
   ∧ transitions net1 = transitions net2
   ∧ arcs net1 = arcs net2
   ∧ initial_marking net1 = initial_marking net2
   ∧ triples net1 ≡ₚ triples net2)
  ∧ net1 = build_petri_net functions entry_fn max_fns
  ∧ net2 = build_petri_net functions entry_fn max_fns
  ∧ (∀ b p p', p_id p' = p_id p →
       add_place p' (add_place p b) = add_place p b)
  ∧ (∀ b t t', t_id t' = t_id t →
       add_transition t' (add_transition t b) = add_transition t b).
Proof.
  intros L1 L2 net1 net2.
  assert (net1 = build_petri_net functions entry_fn max_fns) as E1
    by by apply build_with_net.
  assert (net2 = build_petri_net functions entry_fn max_fns) as E2
    by by apply build_with_net.
  split; [rewrite E1, E2; by split_and!|].
  split; [done|]. split; [done|]. split.
  - intros b p p' Hid. unfold add_place at 1.
    rewrite decide_True; [done|].
    rewrite Hid. autorewrite with bld. apply elem_of_union. left.
    by apply elem_of_singleton.
  - intros b t t' Hid. unfold add_transition at 1.
    rewrite decide_True; [done|].
    rewrite Hid. autorewrite with bld. apply elem_of_union. left.
    by apply elem_of_singleton.
Qed.

Lemma C9_deterministic_idempotent_witness :
  let net1 :=
    build_with [] list_mem add_front (parsed MINIMAL_MIR) "main" None in
  let net2 :=
    build_with [] list_mem add_back (parsed MINIMAL_MIR) "main" None in
  places net1 = places net2
  ∧ transitions net1 = transitions net2
  ∧ arcs net1 = arcs net2
  ∧ initial_marking net1 = initial_marking net2
  ∧ triples net1 ≡ₚ triples net2.
Proof.
  exact (proj1 (C9_deterministic_idempotent [] list_mem add_front
                  [] list_mem add_back (parsed MINIMAL_MIR) "main" None
                  add_front_laws add_back_laws)).
Defined.

Lemma count_tag_place_elem p :
  p_annotations p = [] →
  PnmlWriter.count_tag "inscription" (PnmlWriter.place_elem p) = 0%nat.
Proof.
  intros Ha. unfold PnmlWriter.place_elem. rewrite Ha.
  by destruct (init_tokens p >? 0).
Qed.

Lemma count_tag_transition_elem t :
  t_annotations t = [] →
  PnmlWriter.count_tag "inscription" (PnmlWriter.transition_elem t) = 0%nat.
Proof. intros Ha. unfold PnmlWriter.transition_elem. by rewrite Ha. Qed.

Lemma count_tag_arc_elem a :
  weight a = 1 →
  PnmlWriter.count_tag "inscription" (PnmlWriter.arc_elem a) = 0%nat.
Proof. intros Hw. unfold PnmlWriter.arc_elem. by rewrite Hw. Qed.

Lemma list_sum_zero {A} (f : A → nat) (l : list A) :
  Forall (λ x, f x = 0%nat) l → list_sum (map f l) = 0%nat.
Proof. induction 1 as [|x l Hx _ IH]; simpl; [done|]. by rewrite Hx, IH. Qed.

(** C10.  Every arc of a built net has weight 1, and the PNML tree
    [write_pnml] builds for such a net has no [inscription] element. *)
Theorem C10_unit_weights_no_inscription functions entry_fn max_fns :
  let net := build_petri_net functions entry_fn max_fns in
  Forall (λ a, weight a = 1) (arcs net)
  ∧ Forall (λ e, PnmlWriter.count_tag "inscription" e = 0%nat)
      (map PnmlWriter.arc_elem (arcs net))
  ∧ PnmlWriter.count_tag "inscription" (PnmlWriter.write_pnml net) = 0%nat.
Proof.
  intros net. subst net. unfold build_petri_net.
  destruct (Inv_run_builder functions entry_fn max_fns)
    as [_ _ Hshape _ _ Hw Ha].
  set (n := net (run_builder functions entry_fn max_fns)) in *.
  split; [done|]. split.
  - apply Forall_fmap. eapply Forall_impl; [exact Hw|].
    intros a. apply count_tag_arc_elem.
  - unfold PnmlWriter.write_pnml. simpl.
    rewrite !map_app, !list_sum_app, !map_map.
    rewrite !list_sum_zero; [done|..].
    + eapply Forall_impl; [exact Hw|]. intros a. apply count_tag_arc_elem.
    + eapply Forall_impl; [exact Ha|].
      intros t. apply count_tag_transition_elem.
    + eapply Forall_impl; [exact Hshape|]. intros p Hp.
      apply count_tag_place_elem. by eapply shape_annotations.
Qed.

(* ===================================================================== *)
(** ** Properties of the parser's tables *)
(* ===================================================================== *)

Import Re Exn MirParser ParserProps.

(** One turn of the inner loop on an ordinary line. *)
Lemma scan_block_line bl tail j acc rtb :
  block_line bl = true →
  scan_block (bl :: tail) j acc rtb
  = scan_block tail (S j) (acc ++ [bl])
      (match ref_binding bl with
       | Some (i, k) => <[i := k]> rtb
       | None => rtb
       end).
Proof.
  unfold block_line, ref_binding. intros [Hh Hc]%andb_true_iff.
  cbn [scan_block].
  destruct (bool_decide (is_Some (re_match bb_pattern (strip bl))));
    [done|].
  destruct (String.eqb (strip bl) "}"); [done|].
  by destruct (re_search ref_pattern (strip bl)).
Qed.

Lemma scan_block_dom tail j acc (rtb : gmap string string) :
  dom rtb ⊆ dom (scan_block tail j acc rtb).1.2.
Proof.
  revert j acc rtb. induction tail as [|bl tail IH]; intros j acc rtb;
    cbn [scan_block]; [done|].
  destruct (bool_decide (is_Some (re_match bb_pattern (strip bl))));
    [done|].
  destruct (String.eqb (strip bl) "}"); [done|].
  etrans; [|apply IH].
  destruct (re_search ref_pattern (strip bl)); [|done].
  rewrite dom_insert. apply union_subseteq_r.
Qed.

(** Later lines that do not bind [i] leave its entry alone. *)
Lemma scan_block_keeps post j acc (rtb : gmap string string) i :
  forallb block_line post = true →
  forallb (λ l, negb (binds i l)) post = true →
  (scan_block post j acc rtb).1.2 !! i = rtb !! i.
Proof.
  revert j acc rtb. induction post as [|bl post IH]; intros j acc rtb Hl Hn;
    [done|].
  simpl in Hl, Hn. apply andb_true_iff in Hl as [Hbl Hl].
  apply andb_true_iff in Hn as [Hnb Hn].
  rewrite scan_block_line by done.
  rewrite IH by done. unfold binds in Hnb.
  destruct (ref_binding bl) as [[i' k']|] eqn:Hb; [|done].
  apply lookup_insert_ne. intros ->. by rewrite String.eqb_refl in Hnb.
Qed.

Lemma scan_block_last_wins pre bl post j acc (rtb : gmap string string) i k :
  forallb block_line (pre ++ bl :: post) = true →
  ref_binding bl = Some (i, k) →
  forallb (λ l, negb (binds i l)) post = true →
  (scan_block (pre ++ bl :: post) j acc rtb).1.2 !! i = Some k.
Proof.
  revert j acc rtb. induction pre as [|l pre IH]; intros j acc rtb Hl Hb Hn.
  - rewrite app_nil_l in Hl.
    simpl in Hl. apply andb_true_iff in Hl as [Hbl Hl].
    rewrite app_nil_l, scan_block_line by done. rewrite Hb.
    rewrite scan_block_keeps by done. apply lookup_insert_eq.
  - simpl in Hl. apply andb_true_iff in Hl as [Hbl Hl].
    rewrite <- app_comm_cons, scan_block_line by done. by apply IH.
Qed.

Lemma bind_guard_dom lhs callee args (rtb gtm : gmap string string) :
  dom gtm ⊆ dom (bind_guard lhs callee args rtb gtm).
Proof.
  unfold bind_guard.
  repeat case_match; try done; rewrite dom_insert; apply union_subseteq_r.
Qed.

(** A lock-shaped call binds its [lhs], whatever the table held for it. *)
Lemma bind_guard_lock l callee args (rtb gtm : gmap string string) a :
  is_lock_callee callee = true →
  truthy l = true →
  _extract_first_local args = Some a →
  truthy a = true →
  bind_guard (Some l) callee args rtb gtm
  = <[l := _resolve_mutex_key a rtb]> gtm.
Proof.
  intros Hc Hl Ha Hta. unfold bind_guard. by rewrite Hc, Ha, Hta, Hl.
Qed.


Lemma find_terminator_dom rev_lines (rtb gtm : gmap string string) t gtm' :
  find_terminator rev_lines rtb gtm = Ret (t, gtm') →
  dom gtm ⊆ dom gtm'.
Proof.
  induction rev_lines as [|bl rest IH]; cbn [find_terminator]; intros E.
  - by simplify_eq.
  - repeat case_match; try (by apply IH);
      unfold mbind, outcome_bind in E; repeat case_match; simplify_eq;
      try done; apply bind_guard_dom.
Qed.

Lemma parse_block_dom lines start i ln bb_m st st' j :
  parse_block lines start i ln bb_m st = Ret (st', j) →
  dom (ps_ref_to_base st) ⊆ dom (ps_ref_to_base st')
  ∧ dom (ps_guard_to_mutex_key st) ⊆ dom (ps_guard_to_mutex_key st').
Proof.
  unfold parse_block. intros E.
  destruct (int_of (group_str bb_m 1)) as [k| |]; simpl in E; try done.
  pose proof (scan_block_dom (drop (S i) lines) (S i) [] (ps_ref_to_base st))
    as Hd.
  destruct (scan_block (drop (S i) lines) (S i) [] (ps_ref_to_base st))
    as [[bls rtb] j'].
  destruct (find_terminator (rev bls) rtb (ps_guard_to_mutex_key st))
    as [[t gtm]| |] eqn:Ht; simpl in E; try done.
  simplify_eq. simpl. split; [done|]. by eapply find_terminator_dom.
Qed.

Lemma parse_lines_dom fuel lines start i st st' :
  parse_lines fuel lines start i st = Ret st' →
  dom (ps_ref_to_base st) ⊆ dom (ps_ref_to_base st')
  ∧ dom (ps_guard_to_mutex_key st) ⊆ dom (ps_guard_to_mutex_key st').
Proof.
  revert i st. induction fuel as [|fuel IH]; intros i st; [done|].
  cbn [parse_lines]. destruct (lines !! i) as [ln|]; [|by intros [= ->]].
  case_match; [apply IH|].
  destruct (re_search let_pattern (strip ln)) as [let_m|],
    (ps_seen_bb st) eqn:Hseen.
  2: { intros E. by apply IH in E. }
  all: destruct (re_match bb_pattern (strip ln)) as [bb_m|]; [|apply IH].
  all: destruct (parse_block lines start i ln bb_m st) as [[st1 j]| |] eqn:Hb;
    simpl; try done.
  all: intros E; apply IH in E as [E1 E2].
  all: apply parse_block_dom in Hb as [B1 B2].
  all: split; by etrans.
Qed.

(** C3, as the code has it.  Both tables are written with a plain
    assignment: of two bindings of the same local the later one stays.
    [_3] is bound to [_1] and then to [_2]; the guard [_4] comes from a lock
    on [_1] and then from a lock on [_2]. *)
Lemma C3_first_binding_counterexample :
  ∃ fn,
    parse_mir mir_rebind = Ret [fn]
    ∧ ref_to_base fn !! "_3" = Some "_2"
    ∧ ref_to_base fn !! "_3" ≠ Some "_1"
    ∧ guard_to_mutex_key fn !! "_4" = Some "_2"
    ∧ guard_to_mutex_key fn !! "_4" ≠ Some "_1".
Proof.
  eexists. split; [vm_compute; reflexivity|].
  split_and!; vm_compute; congruence.
Qed.

(** C3, amended.  While one function is parsed no key ever leaves
    [ref_to_base] or [guard_to_mutex_key]; a key bound again is rebound:
    after a block is scanned, a local maps to the base of the last
    reference assignment to it in the block, and a lock-shaped call maps
    its [lhs] to the key resolved at that call whatever was recorded for
    it before. *)
Theorem C3_tables_grow_last_binding_wins :
  (∀ fuel lines start i st st',
     parse_lines fuel lines start i st = Ret st' →
     dom (ps_ref_to_base st) ⊆ dom (ps_ref_to_base st')
     ∧ dom (ps_guard_to_mutex_key st) ⊆ dom (ps_guard_to_mutex_key st'))
  ∧ (∀ pre bl post j acc (rtb : gmap string string) i k,
       forallb block_line (pre ++ bl :: post) = true →
       ref_binding bl = Some (i, k) →
       forallb (λ l, negb (binds i l)) post = true →
       (scan_block (pre ++ bl :: post) j acc rtb).1.2 !! i = Some k)
  ∧ (∀ l callee args (rtb gtm : gmap string string) a,
       is_lock_callee callee = true →
       truthy l = true →
       _extract_first_local args = Some a →
       truthy a = true →
       bind_guard (Some l) callee args rtb gtm !! l
       = Some (_resolve_mutex_key a rtb)).
Proof.
  split_and!.
  - apply parse_lines_dom.
  - apply scan_block_last_wins.
  - intros l callee args rtb gtm a Hc Hl Ha Hta.
    rewrite (bind_guard_lock l callee args rtb gtm a) by done.
    apply lookup_insert_eq.
Qed.

(** The block [bb0] of [mir_rebind], scanned from a table that already
    binds [_3]; and a second lock call on a table that already binds its
    guard. *)
Lemma C3_tables_grow_last_binding_wins_witness :
  (scan_block
     (["        _3 = &_1;"] ++ "        _3 = &_2;"
      :: ["        _4 = Mutex::lock(move _1) -> [return: bb1, unwind: bb3];"])
     1 [] {["_3" := "_9"]}).1.2 !! "_3" = Some "_2"
  ∧ bind_guard (Some "_4") "Mutex::lock" "move _2" ∅ {["_4" := "_1"]} !! "_4"
    = Some (_resolve_mutex_key "_2" ∅).
Proof.
  destruct C3_tables_grow_last_binding_wins as (_ & Hscan & Hbind).
  split.
  - apply Hscan; reflexivity.
  - apply Hbind; reflexivity.
Defined.





(** The scenario of C8 end to end: [_1] is itself bound to [_7], yet the
    guard [_2] is keyed on [_1]. *)
Example C8_aliasing_end_to_end :
  ∃ fn,
    parse_mir mir_aliasing = Ret [fn]
    ∧ ref_to_base fn !! "_3" = Some "_1"
    ∧ ref_to_base fn !! "_1" = Some "_7"
    ∧ guard_to_mutex_key fn !! "_2" = Some "_1".
Proof.
  eexists. split; [vm_compute; reflexivity|].
  split_and!; vm_compute; reflexivity.
Qed.





(* ===================================================================== *)
(** ** Soundness of the matcher *)
(* ===================================================================== *)

Lemma app_assoc_str s t u : (s +:+ t) +:+ u = s +:+ (t +:+ u).
Proof.
  induction s as [|a s IH]; [reflexivity|].
  rewrite !app_cons. by rewrite IH.
Qed.

Lemma app_empty_r s : s +:+ "" = s.
Proof. induction s as [|a s IH]; [reflexivity|]. by rewrite app_cons, IH. Qed.

Lemma substring_prefix w s :
  String.substring 0 (String.length w) (w +:+ s) = w.
Proof.
  induction w as [|a w IH]; simpl.
  - by destruct s.
  - by rewrite IH.
Qed.

Lemma all_in_app cc w1 w2 :
  all_in cc (w1 +:+ w2) = all_in cc w1 && all_in cc w2.
Proof.
  induction w1 as [|a w1 IH]; [reflexivity|].
  rewrite app_cons. simpl. rewrite IH. by rewrite andb_assoc.
Qed.

Lemma lit_go_sound {A} l pos prev rest g (k : mstate → option A) x :
  lit_go l pos prev rest g k = Some x →
  ∃ prev' rest',
    rest = l +:+ rest'
    ∧ k (MState (pos + String.length l) prev' rest' g) = Some x.
Proof.
  revert pos prev rest. induction l as [|c l IH]; intros pos prev rest; simpl.
  - intros Hk. exists prev, rest. by rewrite Nat.add_0_r.
  - destruct rest as [|a rest]; [done|].
    destruct (Ascii.eqb_spec a c) as [->|]; [|done].
    intros (prev' & rest' & -> & Hk)%IH.
    exists prev', rest'. split; [done|].
    by rewrite <- Nat.add_succ_comm.
Qed.

Lemma star_go_sound {A} cc pos prev rest g (k : mstate → option A) x :
  star_go cc pos prev rest g k = Some x →
  ∃ w prev' rest',
    rest = w +:+ rest'
    ∧ all_in cc w = true
    ∧ k (MState (pos + String.length w) prev' rest' g) = Some x.
Proof.
  revert pos prev. induction rest as [|a rest IH]; intros pos prev; simpl.
  - intros Hk. exists "", prev, "". by rewrite Nat.add_0_r.
  - destruct (cc_test cc a) eqn:Ha.
    + destruct (star_go cc (S pos) (Some a) rest g k) as [y|] eqn:Hs.
      * intros [= ->]. apply IH in Hs as (w & prev' & rest' & -> & Hw & Hk).
        exists (String a w), prev', rest'. simpl. rewrite Ha, Hw.
        split_and!; [done|done|]. by rewrite <- Nat.add_succ_comm.
      * intros Hk. exists "", prev, (String a rest).
        by rewrite Nat.add_0_r.
    + intros Hk. exists "", prev, (String a rest). by rewrite Nat.add_0_r.
Qed.

Lemma literal_groups_set D n w g :
  (n ∈ D → is_literal w = true) →
  literal_groups D g → literal_groups D (set_group n w g).
Proof.
  intros Hw Hg n' s Hn'. unfold set_group. simpl.
  destruct (Nat.eqb_spec n n') as [->|]; [|by apply Hg].
  intros [= <-]. by apply Hw.
Qed.

Lemma get_group_set n w g n' :
  is_Some (get_group n' g) ∨ n' = n →
  is_Some (get_group n' (set_group n w g)).
Proof.
  unfold set_group. simpl. destruct (Nat.eqb_spec n n') as [->|]; [by eexists|].
  intros [?|?]; [done|congruence].
Qed.

(** What a successful run of the matcher has read, and what its groups
    hold. *)
Lemma exec_sound D r :
  ∀ {A} st (k : mstate → option A) x,
    digit_groups D r = true →
    literal_groups D (ms_groups st) →
    exec r st k = Some x →
    ∃ st' w,
      k st' = Some x
      ∧ advances st st' w
      ∧ matches r w
      ∧ literal_groups D (ms_groups st')
      ∧ (∀ n, is_Some (get_group n (ms_groups st)) ∨ n ∈ must_set r →
              is_Some (get_group n (ms_groups st'))).
Proof.
  induction r as [l|cc|cc|r1 IH1 r2 IH2|r1 IH1 r2 IH2|r1 IH1|n r1 IH1| |];
    intros A st k x Hd Hg; cbn [exec].
  - intros (prev' & rest' & Hrest & Hk)%lit_go_sound.
    eexists _, l. split; [exact Hk|]. split_and!; try done.
    intros n [?|Hn]; [done|]. by apply elem_of_nil in Hn.
  - intros (w & prev' & rest' & Hrest & Hw & Hk)%star_go_sound.
    eexists _, w. split; [exact Hk|]. split_and!; try done.
    intros n [?|Hn]; [done|]. by apply elem_of_nil in Hn.
  - destruct (ms_rest st) as [|a rest] eqn:Hrest; [done|].
    destruct (cc_test cc a) eqn:Ha; [|done].
    intros (w & prev' & rest' & -> & Hw & Hk)%star_go_sound.
    eexists _, (String a w). split; [exact Hk|]. split_and!; try done.
    + split; simpl; [by rewrite Hrest|lia].
    + simpl. by rewrite Ha, Hw.
    + intros n [?|Hn]; [done|]. by apply elem_of_nil in Hn.
  - simpl in Hd. apply andb_true_iff in Hd as [Hd1 Hd2].
    intros (st1 & w1 & Hk1 & [Hr1 Hp1] & Hm1 & Hg1 & Hs1)%IH1; [|done..].
    apply IH2 in Hk1 as (st2 & w2 & Hk2 & [Hr2 Hp2] & Hm2 & Hg2 & Hs2);
      [|done..].
    exists st2, (w1 +:+ w2). split; [done|]. split_and!; try done.
    + split.
      * by rewrite Hr1, Hr2, app_assoc_str.
      * rewrite Hp2, Hp1, app_length. lia.
    + by exists w1, w2.
    + intros n Hn. apply Hs2. simpl in Hn. rewrite elem_of_app in Hn.
      destruct Hn as [?|[?|?]]; [left; apply Hs1; by left
                                |left; apply Hs1; by right|by right].
  - simpl in Hd. apply andb_true_iff in Hd as [Hd1 Hd2].
    destruct (exec r1 st k) as [y|] eqn:H1.
    + intros [= ->].
      apply IH1 in H1 as (st1 & w & Hk & Ha & Hm & Hg1 & Hs1); [|done..].
      exists st1, w. split_and!; try done; [by left|].
      intros n [?|Hn]; [|by apply elem_of_nil in Hn]. apply Hs1. by left.
    + intros (st2 & w & Hk & Ha & Hm & Hg2 & Hs2)%IH2; [|done..].
      exists st2, w. split_and!; try done; [by right|].
      intros n [?|Hn]; [|by apply elem_of_nil in Hn]. apply Hs2. by left.
  - simpl in Hd. destruct (exec r1 st k) as [y|] eqn:H1.
    + intros [= ->].
      apply IH1 in H1 as (st1 & w & Hk & Ha & Hm & Hg1 & Hs1); [|done..].
      exists st1, w. split_and!; try done; [by right|].
      intros n [?|Hn]; [|by apply elem_of_nil in Hn]. apply Hs1. by left.
    + intros Hk. exists st, "".
      split; [done|]. split; [split; [done|simpl; lia]|].
      split; [by left|]. split; [done|].
      intros n [?|Hn]; [done|]. by apply elem_of_nil in Hn.
  - intros H1. apply IH1 in H1 as (st1 & w & Hk & [Hr Hp] & Hm & Hg1 & Hs1);
      [| |done].
    2: { simpl in Hd. case_bool_decide; [|done]. by destruct r1 as [| |[]| | | | | |]. }
    eexists _, w. split; [exact Hk|].
    assert (String.substring 0 (ms_pos st1 - ms_pos st) (ms_rest st) = w)
      as ->.
    { rewrite Hp, Hr. replace (ms_pos st + String.length w - ms_pos st)%nat
        with (String.length w) by lia. apply substring_prefix. }
    split_and!; try done.
    + simpl. apply literal_groups_set; [|done].
      intros Hn. simpl in Hd. rewrite bool_decide_eq_true_2 in Hd by done.
      destruct r1 as [| |[]| | | | | |]; try done.
      simpl in Hm. destruct Hm as [Hne Hall]. unfold is_literal.
      rewrite Hall. by destruct w.
    + simpl. intros n' Hn'. apply get_group_set.
      rewrite elem_of_cons in Hn'.
      destruct Hn' as [?|[?|?]]; [left; apply Hs1; by left|by right
                                 |left; apply Hs1; by right].
  - destruct (ms_prev st); [done|]. intros Hk.
    exists st, "".
    split; [done|]. split; [split; [done|simpl; lia]|].
    split; [done|]. split; [done|].
    intros n [?|Hn]; [done|]. by apply elem_of_nil in Hn.
  - case_match; [|done]. intros Hk.
    exists st, "".
    split; [done|]. split; [split; [done|simpl; lia]|].
    split; [done|]. split; [done|].
    intros n [?|Hn]; [done|]. by apply elem_of_nil in Hn.
Qed.

Lemma matches_min_len r w : matches r w → (min_len r ≤ String.length w)%nat.
Proof.
  revert w. induction r as [l|cc|cc|r1 IH1 r2 IH2|r1 IH1 r2 IH2|r1 IH1|n r1 IH1| |];
    intros w; simpl.
  - by intros ->.
  - lia.
  - intros [Hne _]. destruct w; [done|simpl; lia].
  - intros (w1 & w2 & -> & H1%IH1 & H2%IH2). rewrite app_length. lia.
  - intros [H1%IH1|H2%IH2]; lia.
  - lia.
  - apply IH1.
  - lia.
  - lia.
Qed.

Lemma match_at_sound D r pos prev rest m :
  digit_groups D r = true →
  match_at r pos prev rest = Some m →
  ∃ w rest',
    rest = w +:+ rest'
    ∧ m_start m = pos
    ∧ m_end m = (pos + String.length w)%nat
    ∧ matches r w
    ∧ literal_groups D (m_groups m)
    ∧ (∀ n, n ∈ must_set r → is_Some (group m n)).
Proof.
  intros Hd Hm. unfold match_at in Hm.
  apply (exec_sound D) in Hm as (st' & w & Hk & [Hr Hp] & Hw & Hg & Hs);
    [|done|by intros n s _ ?].
  simplify_eq. simpl in *. exists w, (ms_rest st').
  split_and!; try done. intros n Hn. apply Hs. by right.
Qed.

Lemma search_go_sound D r rest :
  ∀ pos prev m,
    digit_groups D r = true →
    search_go r pos prev rest = Some m →
    ∃ skipped w rest',
      rest = skipped +:+ w +:+ rest'
      ∧ m_start m = (pos + String.length skipped)%nat
      ∧ m_end m = (m_start m + String.length w)%nat
      ∧ matches r w
      ∧ literal_groups D (m_groups m)
      ∧ (∀ n, n ∈ must_set r → is_Some (group m n)).
Proof.
  induction rest as [|a rest IH]; intros pos prev m Hd; cbn [search_go].
  - destruct (match_at r pos prev "") as [m'|] eqn:Hm; [|done].
    intros [= ->].
    apply (match_at_sound D) in Hm
      as (w & rest' & Hr & Hs & He & Hw & Hg & Hset); [|done].
    exists "", w, rest'. rewrite app_empty_l.
    split_and!; try done; simpl in *; try lia.
  - destruct (match_at r pos prev (String a rest)) as [m'|] eqn:Hm.
    + intros [= ->].
      apply (match_at_sound D) in Hm
        as (w & rest' & Hr & Hs & He & Hw & Hg & Hset); [|done].
      exists "", w, rest'. rewrite app_empty_l.
      split_and!; try done; simpl in *; try lia.
    + intros (sk & w & rest' & -> & Hs & He & Hw & Hg & Hset)%IH; [|done].
      exists (String a sk), w, rest'. split_and!; try done.
      simpl. lia.
Qed.

Lemma seek_str_drop s pos prev : (seek s pos prev).2 = str_drop pos s.
Proof.
  revert s prev. induction pos as [|pos IH]; intros s prev; simpl.
  - by destruct s.
  - destruct s as [|a s]; [done|]. apply IH.
Qed.

Lemma str_drop_length n s :
  String.length (str_drop n s) = (String.length s - n)%nat.
Proof.
  revert s. induction n as [|n IH]; intros s; simpl.
  - destruct s; simpl; lia.
  - destruct s as [|a s]; [done|]. simpl. apply IH.
Qed.

(** Where a search that starts at [pos] can find its match, how long the
    match is, and what its groups hold. *)
Lemma re_search_from_sound D r s pos m :
  digit_groups D r = true →
  re_search_from r s pos = Some m →
  (pos ≤ m_start m)%nat
  ∧ (m_start m + min_len r ≤ m_end m)%nat
  ∧ ((pos ≤ String.length s)%nat → (m_end m ≤ String.length s)%nat)
  ∧ literal_groups D (m_groups m)
  ∧ (∀ n, n ∈ must_set r → is_Some (group m n)).
Proof.
  intros Hd. unfold re_search_from.
  pose proof (seek_str_drop s pos None) as Hseek.
  destruct (seek s pos None) as [prev rest]. simpl in Hseek. subst rest.
  intros (sk & w & rest' & Hr & Hs & He & Hw & Hg & Hset)%(search_go_sound D);
    [|done].
  apply matches_min_len in Hw.
  apply (f_equal String.length) in Hr.
  rewrite str_drop_length, !app_length in Hr.
  split_and!; try done; lia.
Qed.

Lemma re_search_sound D r s m :
  digit_groups D r = true →
  re_search r s = Some m →
  literal_groups D (m_groups m)
  ∧ (∀ n, n ∈ must_set r → is_Some (group m n)).
Proof.
  intros Hd (sk & w & rest' & _ & _ & _ & _ & Hg & Hs)%(search_go_sound D);
    done.
Qed.

Lemma re_match_sound D r s m :
  digit_groups D r = true →
  re_match r s = Some m →
  literal_groups D (m_groups m)
  ∧ (∀ n, n ∈ must_set r → is_Some (group m n)).
Proof.
  intros Hd (w & rest' & _ & _ & _ & _ & Hg & Hs)%(match_at_sound D); done.
Qed.

(** *** Pieces of a string *)

Lemma infix_refl s : infix s s.
Proof. exists "", "". by rewrite app_empty_l, app_empty_r. Qed.

Lemma infix_trans w s t : infix w s → infix s t → infix w t.
Proof.
  intros (a & b & ->) (c & d & ->). exists (c +:+ a), (b +:+ d).
  by rewrite !app_assoc_str.
Qed.

Lemma infix_prefix w b : infix w (w +:+ b).
Proof. exists "", b. by rewrite app_empty_l. Qed.

Lemma infix_suffix a w : infix w (a +:+ w).
Proof. exists a, "". by rewrite app_empty_r. Qed.

Lemma infix_middle a w b : infix w (a +:+ w +:+ b).
Proof. by exists a, b. Qed.

Lemma infix_empty s : infix "" s.
Proof. exists "", s. by rewrite !app_empty_l. Qed.

Lemma lstrip_suffix s : ∃ a, s = a +:+ lstrip s.
Proof.
  induction s as [|c s [a IH]]; simpl; [by exists ""|].
  destruct (is_space c); [|by exists ""].
  exists (String c a). by rewrite app_cons, <- IH.
Qed.

Lemma rstrip_prefix s : ∃ b, s = rstrip s +:+ b.
Proof.
  induction s as [|c s [b IH]]; simpl; [by exists ""|].
  destruct (rstrip s) as [|d r].
  - rewrite app_empty_l in IH. subst b.
    destruct (is_space c); [by exists (String c s)|by exists s].
  - exists b. by rewrite app_cons, <- IH.
Qed.

Lemma strip_infix s : infix (strip s) s.
Proof.
  destruct (lstrip_suffix s) as [a Ha].
  destruct (rstrip_prefix (lstrip s)) as [b Hb].
  exists a, b. unfold strip. by rewrite <- Hb.
Qed.

Lemma substring_0_prefix m s : ∃ b, s = String.substring 0 m s +:+ b.
Proof.
  revert s. induction m as [|m IH]; intros s.
  - exists s. destruct s; by rewrite ?app_empty_l.
  - destruct s as [|c s]; [by exists ""|].
    destruct (IH s) as [b Hb]. exists b.
    cbn [String.substring]. rewrite app_cons. by f_equal.
Qed.

Lemma substring_infix n m s : infix (String.substring n m s) s.
Proof.
  revert s. induction n as [|n IH]; intros s.
  - destruct (substring_0_prefix m s) as [b Hb].
    rewrite Hb at 2. apply infix_prefix.
  - destruct s as [|c s]; [apply infix_refl|]. simpl.
    eapply infix_trans; [apply IH|]. apply (infix_suffix (String c "")).
Qed.

Lemma slice_infix s a b : infix (slice s a b) s.
Proof. apply substring_infix. Qed.

Lemma str_drop_suffix n s : ∃ a, s = a +:+ str_drop n s.
Proof.
  revert s. induction n as [|n IH]; intros s.
  - exists "". by destruct s.
  - destruct s as [|c s]; [by exists ""|].
    destruct (IH s) as [a Ha]. exists (String c a).
    cbn [str_drop]. rewrite app_cons. by f_equal.
Qed.

Lemma rev_app_append cur acc s :
  String.rev_app cur acc +:+ s = String.rev_app cur (acc +:+ s).
Proof.
  revert acc. induction cur as [|c cur IH]; intros acc; [done|].
  simpl. by rewrite IH.
Qed.

Lemma rev_app_rev cur s : String.rev_app cur s = String.rev cur +:+ s.
Proof. unfold String.rev. by rewrite rev_app_append. Qed.

Lemma split_lines_go_infix s :
  ∀ cur l, l ∈ split_lines_go cur s → infix l (String.rev_app cur s).
Proof.
  induction s as [|c s IH]; intros cur l; cbn [split_lines_go].
  - intros ->%list_elem_of_singleton. rewrite rev_app_rev, app_empty_r.
    apply infix_refl.
  - destruct (Ascii.eqb c "010").
    + rewrite rev_app_rev. intros [->|Hl]%elem_of_cons.
      * apply infix_prefix.
      * apply (IH "") in Hl. cbn [String.rev_app] in Hl.
        eapply infix_trans; [exact Hl|].
        eapply infix_trans; [apply (infix_suffix (String c ""))|].
        apply infix_suffix.
    + intros Hl. by apply IH in Hl.
Qed.

Lemma split_lines_infix s l : l ∈ split_lines s → infix l s.
Proof. intros Hl. by apply (split_lines_go_infix s "") in Hl. Qed.

(** *** The groups of a match are pieces of the subject *)

Lemma groups_in_set s n w g :
  infix w s → groups_in s g → groups_in s (set_group n w g).
Proof.
  intros Hw Hg n' w'. unfold set_group. simpl.
  destruct (Nat.eqb_spec n n') as [->|]; [|by apply Hg].
  by intros [= <-].
Qed.

Lemma groups_in_mono s t g : infix s t → groups_in s g → groups_in t g.
Proof. intros Hst Hg n w Hw. eapply infix_trans; [by eapply Hg|done]. Qed.

Lemma exec_infix S r :
  ∀ {A} st (k : mstate → option A) x,
    (∃ a, S = a +:+ ms_rest st) →
    groups_in S (ms_groups st) →
    exec r st k = Some x →
    ∃ st' w,
      k st' = Some x
      ∧ advances st st' w
      ∧ groups_in S (ms_groups st').
Proof.
  induction r as [l|cc|cc|r1 IH1 r2 IH2|r1 IH1 r2 IH2|r1 IH1|n r1 IH1| |];
    intros A st k x Hsuf Hg; cbn [exec].
  - intros (prev' & rest' & Hrest & Hk)%lit_go_sound.
    eexists _, l. split; [exact Hk|]. by split_and!.
  - intros (w & prev' & rest' & Hrest & Hw & Hk)%star_go_sound.
    eexists _, w. split; [exact Hk|]. by split_and!.
  - destruct (ms_rest st) as [|a rest] eqn:Hrest; [done|].
    destruct (cc_test cc a) eqn:Ha; [|done].
    intros (w & prev' & rest' & -> & Hw & Hk)%star_go_sound.
    eexists _, (String a w). split; [exact Hk|]. split; [|done].
    split; simpl; [by rewrite Hrest|lia].
  - intros (st1 & w1 & Hk1 & [Hr1 Hp1] & Hg1)%IH1; [|done..].
    apply IH2 in Hk1 as (st2 & w2 & Hk2 & [Hr2 Hp2] & Hg2); [| |done].
    2: { destruct Hsuf as [a ->]. exists (a +:+ w1).
         by rewrite Hr1, app_assoc_str. }
    exists st2, (w1 +:+ w2). split; [done|]. split; [|done]. split.
    + by rewrite Hr1, Hr2, app_assoc_str.
    + rewrite Hp2, Hp1, app_length. lia.
  - destruct (exec r1 st k) as [y|] eqn:H1.
    + intros [= ->]. by apply IH1 in H1.
    + intros H2. by apply IH2 in H2.
  - destruct (exec r1 st k) as [y|] eqn:H1.
    + intros [= ->]. by apply IH1 in H1.
    + intros Hk. exists st, "".
      split; [done|]. split; [split; [done|simpl; lia]|done].
  - intros H1. apply IH1 in H1 as (st1 & w & Hk & [Hr Hp] & Hg1); [|done..].
    eexists _, w. split; [exact Hk|].
    assert (String.substring 0 (ms_pos st1 - ms_pos st) (ms_rest st) = w)
      as ->.
    { rewrite Hp, Hr. replace (ms_pos st + String.length w - ms_pos st)%nat
        with (String.length w) by lia. apply substring_prefix. }
    split; [done|]. simpl. apply groups_in_set; [|done].
    destruct Hsuf as [a ->]. rewrite Hr. apply infix_middle.
  - destruct (ms_prev st); [done|]. intros Hk.
    exists st, "". split; [done|].
    split; [split; [done|simpl; lia]|done].
  - case_match; [|done]. intros Hk.
    exists st, "". split; [done|].
    split; [split; [done|simpl; lia]|done].
Qed.

Lemma match_at_infix S r pos prev rest m :
  (∃ a, S = a +:+ rest) →
  match_at r pos prev rest = Some m →
  groups_in S (m_groups m).
Proof.
  intros Hsuf Hm. unfold match_at in Hm.
  by apply (exec_infix S) in Hm as (st' & w & [= <-] & _ & Hg).
Qed.

Lemma search_go_infix S r rest :
  ∀ pos prev m,
    (∃ a, S = a +:+ rest) →
    search_go r pos prev rest = Some m →
    groups_in S (m_groups m).
Proof.
  induction rest as [|c rest IH]; intros pos prev m Hsuf; cbn [search_go].
  - destruct (match_at r pos prev "") as [m'|] eqn:Hm; [|done].
    intros [= <-]. by eapply match_at_infix.
  - destruct (match_at r pos prev (String c rest)) as [m'|] eqn:Hm.
    + intros [= <-]. by eapply match_at_infix.
    + apply IH. destruct Hsuf as [a ->]. exists (a +:+ String c "").
      by rewrite app_assoc_str.
Qed.

Lemma re_search_infix r s m :
  re_search r s = Some m → groups_in s (m_groups m).
Proof. apply search_go_infix. by exists "". Qed.

Lemma re_match_infix r s m :
  re_match r s = Some m → groups_in s (m_groups m).
Proof. apply match_at_infix. by exists "". Qed.

Lemma re_search_from_infix r s pos m :
  re_search_from r s pos = Some m → groups_in s (m_groups m).
Proof.
  unfold re_search_from.
  pose proof (seek_str_drop s pos None) as Hseek.
  destruct (seek s pos None) as [prev rest]. simpl in Hseek. subst rest.
  apply search_go_infix. apply str_drop_suffix.
Qed.

(** *** Runs of digits *)

Lemma digit_prefix_len_all w b :
  all_in CDigit w = true →
  (String.length w ≤ digit_prefix_len (w +:+ b))%nat.
Proof.
  induction w as [|c w IH]; simpl; [lia|].
  intros [Hc Hw]%andb_true_iff. rewrite Hc. specialize (IH Hw). lia.
Qed.

Lemma digit_prefix_len_literal w :
  all_in CDigit w = true → digit_prefix_len w = String.length w.
Proof.
  induction w as [|c w IH]; simpl; [done|].
  intros [Hc Hw]%andb_true_iff. rewrite Hc. by rewrite IH.
Qed.

Lemma digit_prefix_le_run s : (digit_prefix_len s ≤ longest_digit_run s)%nat.
Proof. destruct s; simpl; lia. Qed.

Lemma longest_digit_run_suffix a s :
  (longest_digit_run s ≤ longest_digit_run (a +:+ s))%nat.
Proof.
  induction a as [|c a IH]; [done|].
  rewrite app_cons. cbn [longest_digit_run]. lia.
Qed.

(** A run of digits in the text is no longer than its longest one. *)
Lemma digits_infix_run w s :
  infix w s → all_in CDigit w = true →
  (String.length w ≤ longest_digit_run s)%nat.
Proof.
  intros (a & b & ->) Hd.
  etrans; [|apply longest_digit_run_suffix].
  etrans; [|apply digit_prefix_le_run]. by apply digit_prefix_len_all.
Qed.

Lemma has_number_run s n : has_number s n → (n ≤ longest_digit_run s)%nat.
Proof.
  intros (w & Hw & [_ Hd]%andb_true_iff & <-). by apply digits_infix_run.
Qed.





Lemma has_number_mono s t n : infix s t → has_number s n → has_number t n.
Proof.
  intros Hst (w & Hw & Hl & Hn). exists w. split; [|done].
  by eapply infix_trans.
Qed.

(** *** [int] on what the patterns capture *)

Lemma int_go_total acc s :
  all_in CDigit s = true → ∃ z, int_go acc s = Some z.
Proof.
  revert acc. induction s as [|c s IH]; intros acc; simpl; [by eexists|].
  intros [Hc Hs]%andb_true_iff. rewrite Hc. by apply IH.
Qed.

Lemma ret_or_limit_ret {A} s (P : A → Prop) a :
  P a → ret_or_limit s P (Ret a).
Proof. intros Ha. left. by exists a. Qed.

Lemma ret_or_limit_bind {A B} s (P : A → Prop) (Q : B → Prop)
    (m : outcome A) (f : A → outcome B) :
  ret_or_limit s P m →
  (∀ a, P a → ret_or_limit s Q (f a)) →
  ret_or_limit s Q (m ≫= f).
Proof.
  intros [(a & -> & Ha)|(n & -> & Hn)] Hf; [by apply Hf|].
  right. by exists n.
Qed.

Lemma ret_or_limit_mono {A} s t (P Q : A → Prop) o :
  infix s t → (∀ a, P a → Q a) →
  ret_or_limit s P o → ret_or_limit t Q o.
Proof.
  intros Hst HPQ [(a & -> & Ha)|(n & -> & Hn & Hs)].
  - left. exists a. split; [done|]. by apply HPQ.
  - right. exists n. split_and!; [done..|]. by eapply has_number_mono.
Qed.

(** On short numbers only the first case is left. *)
Lemma ret_or_limit_short {A} s (P : A → Prop) o :
  short_numbers s → ret_or_limit s P o → ∃ a, o = Ret a ∧ P a.
Proof.
  intros Hs [?|(n & _ & Hn & Hh%has_number_run)]; [done|].
  unfold short_numbers in Hs. lia.
Qed.

Lemma int_of_literal s :
  is_literal s = true → ret_or_limit s (λ _, True) (int_of s).
Proof.
  unfold is_literal. intros [Ht Hd]%andb_true_iff.
  destruct s as [|c s]; [done|].
  unfold int_of, py_int. rewrite (digit_prefix_len_literal _ Hd).
  destruct (Nat.ltb_spec int_max_str_digits (String.length (String c s)))
    as [Hlt|Hle].
  - right. eexists. split; [done|]. split; [done|].
    exists (String c s). split; [apply infix_refl|].
    split; [|done]. unfold is_literal. by rewrite Hd.
  - destruct (int_go_total 0 (String c s) Hd) as [z ->]. left. by exists z.
Qed.

Lemma group_int S D m n :
  literal_groups D (m_groups m) → groups_in S (m_groups m) →
  n ∈ D → is_Some (group m n) →
  ret_or_limit S (λ _, True) (int_of (group_str m n)).
Proof.
  intros Hg Hin Hn [s Hs]. unfold group_str. rewrite Hs. simpl.
  eapply ret_or_limit_mono; [by eapply Hin|done|].
  apply int_of_literal. by eapply Hg.
Qed.

Lemma opt_group_int S D m n :
  literal_groups D (m_groups m) → groups_in S (m_groups m) → n ∈ D →
  ret_or_limit S (λ _, True) (opt_int_of (group m n)).
Proof.
  intros Hg Hin Hn. unfold opt_int_of.
  destruct (group m n) as [s|] eqn:Hs; simpl; [|by apply ret_or_limit_ret].
  destruct (truthy s); [|by apply ret_or_limit_ret].
  eapply ret_or_limit_bind; [|intros z _; by apply ret_or_limit_ret].
  eapply ret_or_limit_mono; [by eapply Hin|done|].
  apply int_of_literal. by eapply Hg.
Qed.

Lemma findall_ints S fuel s pos :
  infix s S →
  ret_or_limit S (λ _, True)
    (ints_of (findall_go fuel bb_ref_pattern s pos)).
Proof.
  intros HsS. revert pos.
  induction fuel as [|fuel IH]; intros pos; simpl;
    [by apply ret_or_limit_ret|].
  destruct (re_search_from bb_ref_pattern s pos) as [m|] eqn:Hm;
    [|by apply ret_or_limit_ret].
  pose proof (re_search_from_infix _ _ _ _ Hm) as Hin.
  apply (re_search_from_sound [1%nat]) in Hm as (_ & _ & _ & Hg & Hs);
    [|reflexivity].
  cbn [ints_of].
  eapply ret_or_limit_bind.
  { apply (group_int S [1%nat]); [done| |left|apply Hs; left].
    by eapply groups_in_mono. }
  intros z _. eapply ret_or_limit_bind; [apply IH|].
  intros zs _. by apply ret_or_limit_ret.
Qed.

(* ===================================================================== *)
(** ** When the parser returns *)
(* ===================================================================== *)

Ltac in_list := vm_compute; repeat first [by left | right].

(** The search for the terminator returns unless a number in one of the
    lines is too long for [int]. *)
Lemma find_terminator_outcome S rev_lines (rtb gtm : gmap string string) :
  Forall (λ bl, infix bl S) rev_lines →
  ret_or_limit S (λ _, True) (find_terminator rev_lines rtb gtm).
Proof.
  induction 1 as [|bl rest Hbl _ IH]; cbn [find_terminator];
    [by apply ret_or_limit_ret|].
  assert (infix (strip bl) S) as Hs.
  { eapply infix_trans; [apply strip_infix|done]. }
  cbv zeta.
  destruct (re_search goto_pattern (strip bl)) as [tm|] eqn:Hgoto.
  { pose proof (re_search_infix _ _ _ Hgoto) as Hin.
    apply (groups_in_mono _ S) in Hin; [|done].
    apply (re_search_sound [1%nat]) in Hgoto as [Hg Hset]; [|reflexivity].
    eapply ret_or_limit_bind;
      [by apply (group_int S [1%nat]); [..|left|apply Hset; in_list]|].
    intros z _. by apply ret_or_limit_ret. }
  destruct (re_search return_pattern (strip bl));
    [by apply ret_or_limit_ret|].
  destruct (re_search drop_pattern (strip bl)) as [dm|] eqn:Hdrop.
  { pose proof (re_search_infix _ _ _ Hdrop) as Hin.
    apply (groups_in_mono _ S) in Hin; [|done].
    apply (re_search_sound [2%nat; 3%nat]) in Hdrop as [Hg Hset];
      [|reflexivity].
    eapply ret_or_limit_bind;
      [by apply (group_int S [2%nat; 3%nat]);
         [..|left|apply Hset; in_list]|].
    intros z _. eapply ret_or_limit_bind;
      [by apply (opt_group_int S [2%nat; 3%nat]); [..|right; left]|].
    intros u _. by apply ret_or_limit_ret. }
  destruct (re_search switch_pattern (strip bl)) as [sm|] eqn:Hsw.
  { pose proof (re_search_infix _ _ _ Hsw) as Hin.
    eapply ret_or_limit_bind; [|intros zs _; by apply ret_or_limit_ret].
    apply findall_ints. unfold group_str.
    destruct (group sm 1) as [g|] eqn:Hg1; simpl; [|apply infix_empty].
    eapply infix_trans; [by eapply Hin|done]. }
  destruct (re_search call_pattern (strip bl)) as [cm|] eqn:Hcall; [|done].
  pose proof (re_search_infix _ _ _ Hcall) as Hin.
  apply (groups_in_mono _ S) in Hin; [|done].
  apply (re_search_sound [4%nat; 5%nat]) in Hcall as [Hg Hset];
    [|reflexivity].
  eapply ret_or_limit_bind;
    [by apply (group_int S [4%nat; 5%nat]); [..|left|apply Hset; in_list]|].
  intros z _. eapply ret_or_limit_bind;
    [by apply (opt_group_int S [4%nat; 5%nat]); [..|right; left]|].
  intros u _. by apply ret_or_limit_ret.
Qed.

Lemma scan_block_index tail j acc (rtb : gmap string string) :
  (j ≤ (scan_block tail j acc rtb).2)%nat.
Proof.
  revert j acc rtb. induction tail as [|bl tail IH]; intros j acc rtb;
    cbn [scan_block]; [done|].
  destruct (bool_decide (is_Some (re_match bb_pattern (strip bl))));
    [done|].
  destruct (String.eqb (strip bl) "}"); [simpl; lia|].
  etrans; [|apply IH]. lia.
Qed.

(** The lines of a block are lines of the text scanned. *)
Lemma scan_block_lines (P : string → Prop) tail :
  ∀ j acc (rtb : gmap string string),
    Forall P acc → Forall P tail →
    Forall P (scan_block tail j acc rtb).1.1.
Proof.
  induction tail as [|bl tail IH]; intros j acc rtb Hacc Htail;
    cbn [scan_block]; [done|].
  apply Forall_cons in Htail as [Hbl Htail].
  destruct (bool_decide (is_Some (re_match bb_pattern (strip bl))));
    [done|].
  destruct (String.eqb (strip bl) "}"); [done|].
  apply IH; [|done]. apply Forall_app. by split; [|constructor].
Qed.

Lemma parse_block_outcome T lines start i ln s bb_m st :
  re_match bb_pattern s = Some bb_m →
  infix s T →
  Forall (λ bl, infix bl T) lines →
  ret_or_limit T (λ r, (i < r.2)%nat)
    (parse_block lines start i ln bb_m st).
Proof.
  intros Hm Hs Hlines.
  pose proof (re_match_infix _ _ _ Hm) as Hin.
  apply (groups_in_mono _ T) in Hin; [|done].
  apply (re_match_sound [1%nat]) in Hm as [Hg Hset]; [|reflexivity].
  unfold parse_block.
  eapply ret_or_limit_bind;
    [by apply (group_int T [1%nat]); [..|left|apply Hset; in_list]|].
  intros z _. cbv zeta.
  pose proof (scan_block_index (drop (S i) lines) (S i) []
                (ps_ref_to_base st)) as Hj.
  pose proof (scan_block_lines (λ bl, infix bl T) (drop (S i) lines) (S i)
                [] (ps_ref_to_base st) (Forall_nil_2 _)
                (Forall_drop _ _ _ Hlines)) as Hbls.
  destruct (scan_block (drop (S i) lines) (S i) [] (ps_ref_to_base st))
    as [[bls rtb] j]. simpl in Hj, Hbls.
  eapply ret_or_limit_bind.
  { apply (find_terminator_outcome T). by apply Forall_rev. }
  intros [t gtm] _. apply ret_or_limit_ret. simpl. lia.
Qed.

(** One unit of fuel per remaining line, and one more, is enough. *)
Lemma parse_lines_outcome T fuel lines start :
  Forall (λ bl, infix bl T) lines →
  ∀ i st,
    (List.length lines - i < fuel)%nat →
    ret_or_limit T (λ _, True) (parse_lines fuel lines start i st).
Proof.
  intros Hlines.
  induction fuel as [|fuel IH]; intros i st Hfuel; cbn [parse_lines]; [lia|].
  destruct (lines !! i) as [ln|] eqn:Hi; [|by apply ret_or_limit_ret].
  assert (infix (strip ln) T) as Hln.
  { eapply infix_trans; [apply strip_infix|].
    eapply (proj1 (Forall_forall _ _) Hlines).
    by eapply list_elem_of_lookup_2. }
  apply lookup_lt_Some in Hi.
  cbv zeta. case_match; [apply IH; lia|].
  destruct (re_search let_pattern (strip ln)) as [let_m|],
    (ps_seen_bb st).
  2: { apply IH. lia. }
  all: destruct (re_match bb_pattern (strip ln)) as [bb_m|] eqn:Hbb;
    [|apply IH; lia].
  all: eapply ret_or_limit_bind;
    [by apply (parse_block_outcome T lines start i ln (strip ln))|].
  all: intros [st1 j] Hj; simpl in Hj; apply IH; lia.
Qed.

Lemma _parse_function_body_outcome fn_name body start :
  ret_or_limit body (λ fn, name fn = fn_name)
    (_parse_function_body fn_name body start).
Proof.
  unfold _parse_function_body. cbv zeta.
  eapply ret_or_limit_bind.
  - apply (parse_lines_outcome body); [|lia].
    apply Forall_forall. intros l Hl. by apply split_lines_infix.
  - intros st _. by apply ret_or_limit_ret.
Qed.

Lemma _parse_function_body_total fn_name body start :
  short_numbers body →
  ∃ fn, _parse_function_body fn_name body start = Ret fn
        ∧ name fn = fn_name.
Proof.
  intros Hs. eapply ret_or_limit_short; [done|].
  apply _parse_function_body_outcome.
Qed.


Lemma brace_scan_bounds rest :
  ∀ i depth,
    (i ≤ brace_scan rest i depth ≤ i + String.length rest)%nat.
Proof.
  induction rest as [|c rest IH]; intros i depth; simpl; [lia|].
  destruct (depth >? 0); [|lia].
  specialize (IH (S i) (if Ascii.eqb c "{" then depth + 1
                        else if Ascii.eqb c "}" then depth - 1 else depth)).
  lia.
Qed.


(** The headers found lie further and further right: one unit of fuel per
    remaining character, and one more, is enough.  The loop returns, or
    raises the [ParseError] that wraps the [ValueError] of [int]: it names
    the function and the line of its header, and no basic block. *)
Lemma parse_mir_loop_outcome text fuel :
  ∀ pos fs,
    (pos ≤ String.length text)%nat →
    (String.length text - pos < fuel)%nat →
    (∃ fs', parse_mir_loop fuel text pos fs = Ret fs')
    ∨ (∃ n f line,
         parse_mir_loop fuel text pos fs
         = Raise (mk_ParseError (int_limit_msg n) f "" line)
         ∧ (int_max_str_digits < n)%nat ∧ has_number text n).
Proof.
  induction fuel as [|fuel IH]; intros pos fs Hpos Hfuel; [lia|].
  cbn [parse_mir_loop].
  destruct (re_search_from fn_pattern text pos) as [m|] eqn:Hm;
    [|left; by eexists].
  apply (re_search_from_sound []) in Hm as (Hs & He & Hlen & _);
    [|reflexivity].
  specialize (Hlen Hpos).
  change (min_len fn_pattern) with 9%nat in He.
  pose proof (brace_scan_bounds (str_drop (m_end m) text) (m_end m) 1)
    as [Hlo Hhi].
  rewrite str_drop_length in Hhi.
  cbv zeta.
  destruct (_parse_function_body_outcome (group_str m 1)
              (slice text (m_end m)
                 (brace_scan (str_drop (m_end m) text) (m_end m) 1 - 1))
              (Z.of_nat (count_newlines (slice text 0 (m_start m))) + 1))
    as [(fn & -> & _)|(n & -> & Hn & Hh)].
  - apply IH; lia.
  - right. eexists n, _, _. split; [reflexivity|]. split; [done|].
    eapply has_number_mono; [apply slice_infix|done].
Qed.

Lemma parse_mir_outcome text :
  (∃ fs, parse_mir text = Ret fs)
  ∨ (∃ n f line,
       parse_mir text = Raise (mk_ParseError (int_limit_msg n) f "" line)
       ∧ (int_max_str_digits < n ≤ longest_digit_run text)%nat).
Proof.
  destruct (parse_mir_loop_outcome text (S (String.length text)) 0 [])
    as [?|(n & f & line & E & Hn & Hh%has_number_run)]; [lia|lia|by left|].
  right. exists n, f, line. split; [done|lia].
Qed.

Lemma parse_mir_total text :
  short_numbers text → ∃ fs, parse_mir text = Ret fs.
Proof.
  intros Hs. destruct (parse_mir_outcome text) as [?|(n & _ & _ & _ & Hn)];
    [done|].
  unfold short_numbers in Hs. lia.
Qed.





(** The fuel of [re_findall] is enough: more fuel finds nothing more. *)
Lemma findall_go_fuel D r s :
  digit_groups D r = true → (0 < min_len r)%nat →
  ∀ fuel pos extra,
    (pos ≤ String.length s)%nat →
    (String.length s - pos < fuel)%nat →
    findall_go (fuel + extra) r s pos = findall_go fuel r s pos.
Proof.
  intros Hd Hmin. induction fuel as [|fuel IH]; intros pos extra Hpos Hfuel;
    [lia|].
  cbn [Nat.add findall_go].
  destruct (re_search_from r s pos) as [m|] eqn:Hm; [|done].
  apply (re_search_from_sound D) in Hm as (Hs & He & Hlen & _); [|done].
  specialize (Hlen Hpos).
  rewrite (proj2 (Nat.ltb_lt (m_start m) (m_end m))) by lia.
  f_equal. apply IH; lia.
Qed.

Lemma re_findall_fuel s extra :
  findall_go (S (String.length s) + extra) bb_ref_pattern s 0
  = re_findall bb_ref_pattern s.
Proof.
  unfold re_findall.
  apply (findall_go_fuel [1%nat]); [reflexivity|vm_compute; lia|lia|lia].
Qed.

(* ===================================================================== *)
(** ** The builder's calls and what they maintain *)
(* ===================================================================== *)

Module TraceFacts.
Import PyStr PnBuilder Props StrFacts BuilderFacts BuildTrace.

Lemma Grows_add_warning w b : Grows b (add_warning w b).
Proof. apply (Ext_add_warning [] ""). Qed.

Lemma Grows_apply_op b o : Grows b (run_call b o).
Proof.
  destruct o; simpl;
    [apply Grows_add_place|apply Grows_add_transition|apply Grows_add_arc
    |apply Grows_add_warning].
Qed.

Lemma Steps_trans ns e b1 b2 b3 :
  Steps ns e b1 b2 → Steps ns e b2 b3 → Steps ns e b1 b3.
Proof. induction 2; [done|by eapply Steps_step]. Qed.

Lemma Steps_grows ns e b b' : Steps ns e b b' → Grows b b'.
Proof.
  induction 1; [reflexivity|]. etrans; [done|]. apply Grows_apply_op.
Qed.

Lemma Steps_place ns e p b :
  place_shape ns e p → Steps ns e b (add_place p b).
Proof.
  intros. apply (Steps_step ns e b b (AddPlace p)); [constructor|done].
Qed.

Lemma Steps_transition ns e t b :
  transition_shape t → Steps ns e b (add_transition t b).
Proof.
  intros. apply (Steps_step ns e b b (AddTransition t)); [constructor|done].
Qed.

Lemma Steps_arc ns e s t b : ends_ok b s t → Steps ns e b (add_arc s t 1 b).
Proof.
  intros. apply (Steps_step ns e b b (AddArc s t 1)); [constructor|done].
Qed.

Lemma Steps_warning ns e w b :
  warning_shape ns w → Steps ns e b (add_warning w b).
Proof.
  intros. apply (Steps_step ns e b b (AddWarning w)); [constructor|done].
Qed.

Lemma Steps_foldl {A} ns e (C : builder → Prop) (f : builder → A → builder)
    l b :
  (∀ b b', C b → Grows b b' → C b') →
  (∀ b x, x ∈ l → C b → Steps ns e b (f b x)) →
  C b → Steps ns e b (foldl f b l).
Proof.
  intros Hmono. revert b.
  induction l as [|x l IH]; intros b Hf HC; simpl; [constructor|].
  assert (Steps ns e b (f b x)) as Hx by (apply Hf; [left|done]).
  eapply Steps_trans; [done|].
  apply IH.
  - intros b' y Hy. apply Hf. by right.
  - eapply Hmono; [done|]. by eapply Steps_grows.
Qed.

Lemma Steps_ensure ns e key b : Steps ns e b (_ensure_mutex_places key b).
Proof.
  unfold _ensure_mutex_places.
  eapply Steps_trans; apply Steps_place.
  - do 3 right. left. by exists key.
  - do 4 right. by exists key.
Qed.

Lemma Steps_add_dst_arc ns e tid dst b :
  tid ∈ seen_transitions b →
  (∀ v, dst = Some v → v ∈ seen_places b) →
  Steps ns e b (add_dst_arc tid dst b).
Proof.
  intros Ht Hd. unfold add_dst_arc.
  destruct dst as [v|]; [|constructor].
  destruct (truthy v); [|constructor].
  apply Steps_arc. right. split; [done|by apply Hd].
Qed.

Lemma Steps_add_lock_arcs ns e tid lk b :
  tid ∈ seen_transitions b → Steps ns e b (add_lock_arcs tid lk b).
Proof.
  intros Ht. unfold add_lock_arcs.
  destruct lk as [key|]; [|constructor].
  destruct (truthy key); [|constructor].
  pose proof (seen_places_ensure key b) as [Hf Hh].
  assert (tid ∈ seen_transitions (_ensure_mutex_places key b)) as Ht'.
  { unfold _ensure_mutex_places. by autorewrite with bld. }
  eapply Steps_trans; [apply Steps_ensure|].
  eapply Steps_trans; apply Steps_arc.
  - by left.
  - right. by autorewrite with bld.
Qed.

Lemma Steps_add_unlock_arcs ns e tid uk b :
  tid ∈ seen_transitions b → Steps ns e b (add_unlock_arcs tid uk b).
Proof.
  intros Ht. unfold add_unlock_arcs.
  destruct uk as [key|]; [|constructor].
  destruct (truthy key); [|constructor].
  pose proof (seen_places_ensure key b) as [Hf Hh].
  assert (tid ∈ seen_transitions (_ensure_mutex_places key b)) as Ht'.
  { unfold _ensure_mutex_places. by autorewrite with bld. }
  eapply Steps_trans; [apply Steps_ensure|].
  eapply Steps_trans; apply Steps_arc.
  - by left.
  - right. by autorewrite with bld.
Qed.

Lemma Steps_add_edge ns e f bb src m lk uk b tgt :
  src ∈ seen_places b →
  (∀ v, m !! tgt = Some v → v ∈ seen_places b) →
  Steps ns e b (add_edge f bb src m lk uk b tgt).
Proof.
  intros Hsrc Hm. unfold add_edge.
  set (t := edge_transition f bb tgt lk uk).
  set (b1 := add_transition t b).
  set (b2 := add_arc src (t_id t) 1 b1).
  set (b3 := add_dst_arc (t_id t) (m !! tgt) b2).
  set (b4 := add_lock_arcs (t_id t) lk b3).
  assert (Steps ns e b b1) as H1.
  { apply Steps_transition. right. left. by exists f, bb, tgt, lk, uk. }
  assert (t_id t ∈ seen_transitions b1) as Ht1.
  { unfold b1. autorewrite with bld. set_solver. }
  assert (Steps ns e b1 b2) as H2.
  { apply Steps_arc. left. split; [|done]. unfold b1.
    by autorewrite with bld. }
  assert (t_id t ∈ seen_transitions b2) as Ht2.
  { unfold b2. by autorewrite with bld. }
  assert (Steps ns e b2 b3) as H3.
  { apply Steps_add_dst_arc; [done|]. intros v Hv. unfold b2, b1.
    autorewrite with bld. by apply Hm. }
  assert (t_id t ∈ seen_transitions b3) as Ht3.
  { eapply seen_transitions_mono; [done|]. by eapply Steps_grows. }
  assert (Steps ns e b3 b4) as H4 by by apply Steps_add_lock_arcs.
  assert (t_id t ∈ seen_transitions b4) as Ht4.
  { eapply seen_transitions_mono; [done|]. by eapply Steps_grows. }
  repeat (eapply Steps_trans; [eassumption|]).
  by apply Steps_add_unlock_arcs.
Qed.

Lemma Steps_add_return ns e f bb src b :
  src ∈ seen_places b → exit_id f ∈ seen_places b →
  Steps ns e b (add_return f bb src b).
Proof.
  intros Hsrc Hexit. unfold add_return.
  change (mkTransition (return_id f (bb_id bb))
            (f +:+ "_bb" +:+ pretty (bb_id bb) +:+ "_return") "cfg" None [])
    with (return_transition f (bb_id bb)).
  set (t := return_transition f (bb_id bb)).
  eapply Steps_trans; [apply Steps_transition|].
  { do 2 right. by exists f, (bb_id bb). }
  eapply Steps_trans; apply Steps_arc.
  - left. autorewrite with bld. split; [done|set_solver].
  - right. autorewrite with bld. split; [set_solver|done].
Qed.

Lemma Steps_add_start ns e f bbs m b :
  entry_id f ∈ seen_places b →
  (∀ fb, first_non_cleanup bbs = Some fb →
     ∃ v, m !! bb_id fb = Some v ∧ v ∈ seen_places b) →
  Steps ns e b (add_start f bbs m b).
Proof.
  intros Hentry Hfirst. unfold add_start.
  destruct (first_non_cleanup bbs) as [fb|]; [|constructor].
  destruct (Hfirst fb eq_refl) as (v & Hv & Hseen).
  rewrite (lookup_total_correct _ _ _ Hv).
  change (mkTransition (start_id f) (f +:+ "_start") "cfg" None [])
    with (start_transition f).
  eapply Steps_trans; [apply Steps_transition|].
  { left. by exists f. }
  eapply Steps_trans; apply Steps_arc.
  - left. autorewrite with bld. split; [done|set_solver].
  - right. autorewrite with bld. split; [set_solver|done].
Qed.

(** The warnings of the [isinstance] cascade. *)
Lemma classify_warning ns f fn bb term b tg lk uk b' :
  f ∈ ns →
  classify f fn bb term b = (tg, lk, uk, b') →
  b' = b ∨ ∃ w, b' = add_warning w b ∧ warning_shape ns w.
Proof.
  intros Hf Hc. unfold classify in Hc.
  repeat case_match; simplify_eq; try (by left); right; eexists;
    (split; [reflexivity|]);
    (split; [done|]); (split; [by eexists|]); simpl.
  - right. left. by eexists.
  - right. right. left. by eexists.
  - right. right. left. by eexists.
  - right. right. right. by eexists.
Qed.

Lemma Steps_process_block ns e f fn m b bb :
  f ∈ ns →
  exit_id f ∈ seen_places b →
  (∀ k v, m !! k = Some v → v ∈ seen_places b) →
  Steps ns e b (process_block f fn m b bb).
Proof.
  intros Hf Hexit Hm. unfold process_block.
  destruct (is_cleanup bb); [constructor|].
  destruct (m !! bb_id bb) as [src|] eqn:Hsrc; [|constructor].
  destruct (truthy src); simpl; [|constructor].
  destruct (terminator bb) as [term|].
  2:{ apply Steps_warning. split; [done|]. split; [by eexists|]. by left. }
  destruct (classify f fn bb term b) as [[[tg lk] uk] b1] eqn:Hc.
  assert (Steps ns e b b1) as H1.
  { apply (classify_warning ns) in Hc as [->|(w & -> & Hw)]; [constructor| |done].
    by apply Steps_warning. }
  pose proof (Steps_grows _ _ _ _ H1) as G1.
  set (b2 := foldl (add_edge f bb src m lk uk) b1 tg).
  assert (Steps ns e b1 b2) as H2.
  { apply (Steps_foldl ns e
             (λ b, ∀ k v, m !! k = Some v → v ∈ seen_places b)).
    - intros c c' HC G k v Hv. eapply seen_places_mono; [by eapply HC|done].
    - intros c tgt _ HC. apply Steps_add_edge; [by eapply HC|].
      intros v. apply HC.
    - intros k v Hv. eapply seen_places_mono; [by eapply Hm|done]. }
  pose proof (Steps_grows _ _ _ _ H2) as G2.
  assert (Steps ns e b b2) as H12 by by eapply Steps_trans.
  destruct term; try done.
  eapply Steps_trans; [done|].
  apply Steps_add_return.
  - eapply seen_places_mono; [by eapply Hm|by etrans].
  - eapply seen_places_mono; [done|by etrans].
Qed.

Lemma alloc_values_seen f bbs :
  ∀ m b,
    (∀ k v, m !! k = Some v → v ∈ seen_places b) →
    ∀ k v, foldl (alloc_map f) m bbs !! k = Some v →
      v ∈ seen_places (foldl (alloc_places f) b bbs).
Proof.
  induction bbs as [|bb bbs IH]; intros m b Hm; simpl; [done|].
  apply IH. unfold alloc_map, alloc_places.
  destruct (is_cleanup bb); [done|].
  intros k v. rewrite lookup_insert_Some. autorewrite with bld.
  intros [[_ <-]|[_ Hv]]; [set_solver|].
  apply elem_of_union_r. by eapply Hm.
Qed.

Lemma Steps_alloc_places ns e f bbs b :
  Steps ns e b (foldl (alloc_places f) b bbs).
Proof.
  apply (Steps_foldl ns e (λ _, True)); [done| |done].
  intros c bb _ _. unfold alloc_places.
  destruct (is_cleanup bb); [constructor|].
  apply Steps_place. do 2 right. left. by exists f, (bb_id bb).
Qed.

Lemma first_non_cleanup_Some bbs fb :
  first_non_cleanup bbs = Some fb → fb ∈ bbs ∧ is_cleanup fb = false.
Proof.
  intros H. apply find_some in H as [Hin Hc].
  split; [by apply list_elem_of_In|]. by destruct (is_cleanup fb).
Qed.

Lemma Steps_build_function_net ns e fn b :
  name fn ∈ ns → Steps ns e b (_build_function_net fn e b).
Proof.
  intros Hf. unfold _build_function_net.
  set (f := name fn).
  set (b1 := add_place (entry_place f (bool_decide (f = e))) b).
  set (b2 := add_place (exit_place f) b1).
  rewrite foldl_alloc_block.
  set (m := foldl (alloc_map f) ∅ (basic_blocks fn)).
  set (b3 := foldl (alloc_places f) b2 (basic_blocks fn)).
  set (b4 := add_start f (basic_blocks fn) m b3).
  assert (Steps ns e b b1) as H1.
  { apply Steps_place. left. by exists f. }
  assert (Steps ns e b1 b2) as H2.
  { apply Steps_place. right. left. by exists f. }
  assert (Steps ns e b2 b3) as H3 by apply Steps_alloc_places.
  assert (entry_id f ∈ seen_places b2) as Hentry.
  { unfold b2, b1. autorewrite with bld. set_solver. }
  assert (exit_id f ∈ seen_places b2) as Hexit.
  { unfold b2, b1. autorewrite with bld. set_solver. }
  pose proof (Steps_grows _ _ _ _ H3) as G3.
  assert (∀ k v, m !! k = Some v → v ∈ seen_places b3) as Hm.
  { apply alloc_values_seen. intros k v. by rewrite lookup_empty. }
  assert (Steps ns e b3 b4) as H4.
  { apply Steps_add_start; [by eapply seen_places_mono|].
    intros fb [Hin Hc]%first_non_cleanup_Some.
    pose proof (alloc_map_lookup f _ _ Hin Hc) as Hl.
    eexists. split; [exact Hl|]. by eapply Hm. }
  pose proof (Steps_grows _ _ _ _ H4) as G4.
  repeat (eapply Steps_trans; [eassumption|]).
  apply (Steps_foldl ns e
           (λ b, exit_id f ∈ seen_places b
                 ∧ ∀ k v, m !! k = Some v → v ∈ seen_places b)).
  - intros c c' [HC1 HC2] G. split; [by eapply seen_places_mono|].
    intros k v Hv. eapply seen_places_mono; [by eapply HC2|done].
  - intros c bb _ [HC1 HC2]. by apply Steps_process_block.
  - split; [eapply seen_places_mono; [done|by etrans]|].
    intros k v Hv. eapply seen_places_mono; [by eapply Hm|done].
Qed.

Lemma Steps_run_builder functions e max_fns :
  Steps (map name (fns_to_process functions max_fns)) e init_builder
    (run_builder functions e max_fns).
Proof.
  unfold run_builder.
  apply (Steps_foldl _ e (λ _, True)); [done| |done].
  intros b fn Hfn _. apply Steps_build_function_net.
  by apply list_elem_of_fmap_2.
Qed.

(** An invariant of the four closures holds of every net built. *)
Lemma Steps_ind_inv ns e (P : builder → Prop) b b' :
  (∀ b o, P b → call_ok ns e b o → P (run_call b o)) →
  P b → Steps ns e b b' → P b'.
Proof. intros Hstep Hb. induction 1; [done|]. by apply Hstep. Qed.

End TraceFacts.

(* ===================================================================== *)
(** ** Structure of the nets built *)
(* ===================================================================== *)

Import PyStr PnBuilder Props StrFacts BuilderFacts Scenarios BuildTrace TraceFacts.

Lemma ends_ok_mono b b' s t : Grows b b' → ends_ok b s t → ends_ok b' s t.
Proof.
  intros G [[Hs Ht]|[Hs Ht]]; [left|right];
    (split; [by eapply seen_places_mono || by eapply seen_transitions_mono
            |by eapply seen_places_mono || by eapply seen_transitions_mono]).
Qed.

Lemma arcs_run_call b o :
  arcs (net (run_call b o))
  = arcs (net b)
    ++ match o with
       | AddArc s t w => [mkArc ("arc_" +:+ pretty (arc_id_counter b + 1)) s t w]
       | _ => []
       end.
Proof. destruct o; simpl; autorewrite with bld; by rewrite ?app_nil_r. Qed.

Lemma Steps_ends ns e b b' :
  Forall (λ a, ends_ok b (source a) (target a)) (arcs (net b)) →
  Steps ns e b b' →
  Forall (λ a, ends_ok b' (source a) (target a)) (arcs (net b')).
Proof.
  apply (Steps_ind_inv ns e
           (λ b, Forall (λ a, ends_ok b (source a) (target a))
                   (arcs (net b)))).
  clear. intros b o Hb Ho. rewrite arcs_run_call.
  apply Forall_app. split.
  - eapply Forall_impl; [done|]. intros a Ha.
    eapply ends_ok_mono; [apply Grows_apply_op|done].
  - destruct o; try by constructor.
    destruct Ho as [_ Ho]. apply Forall_singleton. simpl.
    eapply ends_ok_mono; [apply Grows_add_arc|done].
Qed.

(** X1.  Every arc of a net built by [build_petri_net] joins a place of
    the net and a transition of the net, in one direction or the other:
    no arc dangles, none joins two places or two transitions. *)
Theorem X1_arcs_bipartite functions entry_fn max_fns :
  let net := build_petri_net functions entry_fn max_fns in
  Forall (bipartite net) (arcs net).
Proof.
  intros net.
  pose proof (Inv_run_builder functions entry_fn max_fns) as HI.
  pose proof (Steps_run_builder functions entry_fn max_fns) as HS.
  apply Steps_ends in HS; [|by constructor].
  eapply Forall_impl; [exact HS|]. intros a Ha. simpl in Ha.
  unfold bipartite, net, build_petri_net.
  destruct Ha as [[Hs Ht]|[Hs Ht]]; [left|right].
  - split; [by apply (inv_seen_p _ _ _ HI)|by apply (inv_seen_t _ _ _ HI)].
  - split; [by apply (inv_seen_t _ _ _ HI)|by apply (inv_seen_p _ _ _ HI)].
Qed.

Lemma transitions_run_call b o :
  ∀ t, t ∈ transitions (net (run_call b o)) →
    t ∈ transitions (net b) ∨ o = AddTransition t.
Proof.
  intros t. destruct o; simpl; autorewrite with bld; auto.
  destruct (decide _); rewrite ?app_nil_r; [auto|].
  rewrite elem_of_app, list_elem_of_singleton. intros [?| ->]; auto.
Qed.

Lemma places_run_call b o :
  ∀ p, p ∈ places (net (run_call b o)) →
    p ∈ places (net b) ∨ o = AddPlace p.
Proof.
  intros p. destruct o; simpl; autorewrite with bld; auto.
  destruct (decide _); rewrite ?app_nil_r; [auto|].
  rewrite elem_of_app, list_elem_of_singleton. intros [?| ->]; auto.
Qed.

Lemma Steps_transition_shape ns e b b' :
  Forall transition_shape (transitions (net b)) →
  Steps ns e b b' →
  Forall transition_shape (transitions (net b')).
Proof.
  apply (Steps_ind_inv ns e
           (λ b, Forall transition_shape (transitions (net b)))).
  clear. intros b o Hb Ho. apply Forall_forall. intros t Ht.
  apply transitions_run_call in Ht as [Ht| ->]; [|done].
  by eapply Forall_forall in Hb.
Qed.

Lemma transition_shapes functions entry_fn max_fns :
  Forall transition_shape
    (transitions (build_petri_net functions entry_fn max_fns)).
Proof.
  eapply Steps_transition_shape; [|apply Steps_run_builder]. constructor.
Qed.

Lemma first_char_place ns e p :
  place_shape ns e p → first_char (p_id p) = Some "p"%char.
Proof.
  intros [(f & _ & ->)|[(f & ->)|[(f & k & ->)|[(k & ->)|(k & ->)]]]];
    reflexivity.
Qed.

Lemma first_char_transition t :
  transition_shape t → first_char (t_id t) = Some "t"%char.
Proof.
  intros [(f & ->)|[(f & bb & tgt & lk & uk & ->)|(f & k & ->)]];
    reflexivity.
Qed.

#[local] Instance arc_name_inj : Inj (=) (=) arc_name.
Proof.
  intros k k' E. unfold arc_name in E. apply String.app_inj in E.
  apply (inj pretty) in E. lia.
Qed.

(** The arcs are numbered by the counter, from 1. *)
Lemma Steps_arc_ids ns e b b' :
  arc_id_counter b = Z.of_nat (List.length (arcs (net b)))
  ∧ map a_id (arcs (net b))
    = map arc_name (seq 1 (List.length (arcs (net b)))) →
  Steps ns e b b' →
  arc_id_counter b' = Z.of_nat (List.length (arcs (net b')))
  ∧ map a_id (arcs (net b'))
    = map arc_name (seq 1 (List.length (arcs (net b')))).
Proof.
  apply (Steps_ind_inv ns e
           (λ b, arc_id_counter b = Z.of_nat (List.length (arcs (net b)))
                 ∧ map a_id (arcs (net b))
                   = map arc_name (seq 1 (List.length (arcs (net b)))))).
  clear. intros b o [Hc Hm] _.
  destruct o; simpl; autorewrite with bld; try done.
  rewrite length_app. simpl. split; [lia|].
  rewrite map_app, Nat.add_1_r, seq_S, map_app, <- Hm. simpl.
  do 2 f_equal. unfold arc_name. do 2 f_equal. lia.
Qed.

Lemma arc_ids_run_builder functions entry_fn max_fns :
  let b := run_builder functions entry_fn max_fns in
  map a_id (arcs (net b)) = map arc_name (seq 1 (List.length (arcs (net b)))).
Proof.
  intros b.
  refine (proj2 (Steps_arc_ids _ _ _ _ _
                   (Steps_run_builder functions entry_fn max_fns))).
  done.
Qed.

(** X2.  The arcs of a net built by [build_petri_net] are named
    [arc_1], [arc_2], ... in the order of their insertion, without gaps
    ([next_arc_id] is called once per arc, and nowhere else). *)
Theorem X2_arc_ids_consecutive functions entry_fn max_fns :
  let net := build_petri_net functions entry_fn max_fns in
  map a_id (arcs net) = map arc_name (seq 1 (List.length (arcs net))).
Proof.
  intros net. apply arc_ids_run_builder.
Qed.

(** X3.  All ids of a net built by [build_petri_net] are pairwise
    distinct: no two places, transitions or arcs share an id, and no id is
    used for two kinds of element (place ids start with [p], transition
    ids with [t], arc ids with [a]). *)
Theorem X3_ids_globally_unique functions entry_fn max_fns :
  NoDup (all_ids (build_petri_net functions entry_fn max_fns)).
Proof.
  pose proof (Inv_run_builder functions entry_fn max_fns) as HI.
  pose proof (transition_shapes functions entry_fn max_fns) as HT.
  pose proof (arc_ids_run_builder functions entry_fn max_fns) as HA.
  unfold all_ids, build_petri_net in *. simpl in HA.
  set (b := run_builder functions entry_fn max_fns) in *.
  assert (∀ i, i ∈ map p_id (places (net b)) →
               first_char i = Some "p"%char) as Hp.
  { intros i (p & -> & Hin)%list_elem_of_fmap.
    eapply first_char_place.
    eapply Forall_forall in Hin; [done|]. apply (inv_shape _ _ _ HI). }
  assert (∀ i, i ∈ map t_id (transitions (net b)) →
               first_char i = Some "t"%char) as Ht.
  { intros i (t & -> & Hin)%list_elem_of_fmap.
    apply first_char_transition. by eapply Forall_forall in Hin. }
  assert (∀ i, i ∈ map a_id (arcs (net b)) →
               first_char i = Some "a"%char) as Ha.
  { intros i. rewrite HA. by intros (k & -> & _)%list_elem_of_fmap. }
  apply NoDup_app. split; [apply (inv_nodup_p _ _ _ HI)|]. split.
  - intros i Hi [Hi'|Hi']%elem_of_app.
    + apply Hp in Hi. apply Ht in Hi'. congruence.
    + apply Hp in Hi. apply Ha in Hi'. congruence.
  - apply NoDup_app. split; [apply (inv_nodup_t _ _ _ HI)|]. split.
    + intros i Hi Hi'. apply Ht in Hi. apply Ha in Hi'. congruence.
    + rewrite HA. apply (NoDup_fmap_2 _). apply NoDup_seq.
Qed.

Lemma Steps_Inv ns e b b' : Inv ns e b → Steps ns e b b' → Inv ns e b'.
Proof.
  apply (Steps_ind_inv ns e (Inv ns e)). clear.
  intros b o Hb Ho. destruct o; simpl in *.
  - by apply Ext_add_place.
  - apply Ext_add_transition; [|done].
    by destruct Ho as [(f & ->)|[(f & bb & tgt & lk & uk & ->)|(f & k & ->)]].
  - destruct Ho as [-> _]. by apply Ext_add_arc.
  - by apply Ext_add_warning.
Qed.

Lemma marking_run_call b o :
  initial_marking (net (run_call b o))
  = match o with
    | AddPlace p =>
        if decide (p_id p ∈ seen_places b) then initial_marking (net b)
        else if init_tokens p >? 0
             then <[p_id p := init_tokens p]> (initial_marking (net b))
             else initial_marking (net b)
    | _ => initial_marking (net b)
    end.
Proof.
  destruct o; simpl; try done;
    [unfold add_place|unfold add_transition]; by case_decide.
Qed.

(** The marking table lists the places inserted with a token. *)
Lemma Steps_marking ns e b b' :
  (Inv ns e b
   ∧ ∀ i n, initial_marking (net b) !! i = Some n
            ↔ ∃ p, p ∈ places (net b) ∧ p_id p = i
                   ∧ init_tokens p = n ∧ 0 < n) →
  Steps ns e b b' →
  Inv ns e b'
  ∧ ∀ i n, initial_marking (net b') !! i = Some n
           ↔ ∃ p, p ∈ places (net b') ∧ p_id p = i
                  ∧ init_tokens p = n ∧ 0 < n.
Proof.
  apply (Steps_ind_inv ns e
           (λ b, Inv ns e b
                 ∧ ∀ i n, initial_marking (net b) !! i = Some n
                          ↔ ∃ p, p ∈ places (net b) ∧ p_id p = i
                                 ∧ init_tokens p = n ∧ 0 < n)).
  clear. intros b o [HI HM] Ho.
  split.
  { eapply Steps_Inv; [done|]. eapply Steps_step; [constructor|done]. }
  intros i n. rewrite marking_run_call.
  destruct o as [p| | |]; simpl; autorewrite with bld; try apply HM.
  destruct (decide (p_id p ∈ seen_places b)) as [Hseen|Hseen];
    [rewrite app_nil_r; apply HM|].
  assert (∀ q, q ∈ places (net b) → p_id q ≠ p_id p) as Hfresh.
  { intros q Hq E. apply Hseen. apply (inv_seen_p _ _ _ HI).
    rewrite <- E. by apply list_elem_of_fmap_2. }
  destruct (init_tokens p >? 0) eqn:Hpos.
  - apply Z.gtb_lt in Hpos.
    destruct (decide (i = p_id p)) as [->|Hne].
    + rewrite lookup_insert_eq. split.
      * intros [= <-]. exists p. split; [|done].
        apply elem_of_app. right. by left.
      * intros (q & [Hq| ->%list_elem_of_singleton]%elem_of_app
                  & Hid & <- & _); [by apply Hfresh in Hq|done].
    + rewrite lookup_insert_ne by done. rewrite HM. split.
      * intros (q & Hq & ?). exists q. split; [|done].
        apply elem_of_app. by left.
      * intros (q & [Hq| ->%list_elem_of_singleton]%elem_of_app
                  & Hid & ?); [by exists q|done].
  - assert (¬ 0 < init_tokens p) as Hnp.
    { intros H. apply Z.gtb_lt in H. congruence. }
    rewrite HM. split.
    + intros (q & Hq & ?). exists q. split; [|done].
      apply elem_of_app. by left.
    + intros (q & [Hq| ->%list_elem_of_singleton]%elem_of_app
                & Hid & <- & Hn); [by exists q|done].
Qed.

Lemma marking_run_builder functions entry_fn max_fns :
  let b := run_builder functions entry_fn max_fns in
  ∀ i n,
    initial_marking (net b) !! i = Some n
    ↔ ∃ p, p ∈ places (net b) ∧ p_id p = i ∧ init_tokens p = n ∧ 0 < n.
Proof.
  intros b.
  refine (proj2 (Steps_marking _ _ _ _ _
                   (Steps_run_builder functions entry_fn max_fns))).
  split; [apply Inv_init|].
  intros i n. simpl. rewrite lookup_empty. split; [done|].
  by intros (p & Hp%elem_of_nil & _).
Qed.

(** X4.  [add_place] keeps [net.initial_marking] in step with the
    places: in a net built by [build_petri_net] the marking table has an
    entry [i -> n] exactly when the net has a place with id [i] whose
    [init_tokens] is [n] and positive.  Places without tokens have no
    entry. *)
Theorem X4_initial_marking_table functions entry_fn max_fns :
  let net := build_petri_net functions entry_fn max_fns in
  ∀ i n,
    initial_marking net !! i = Some n
    ↔ ∃ p, p ∈ places net ∧ p_id p = i ∧ init_tokens p = n ∧ 0 < n.
Proof.
  intros net. apply marking_run_builder.
Qed.

(** X5.  The kind of a transition and its [op] agree in every net built:
    a [lock] or [unlock] transition carries a non-empty mutex key as its
    [op]; every other transition has kind [cfg] and no key ([op] is [None]
    or, when the guard table maps to the empty string, empty). *)
Theorem X5_transition_kind_and_op functions entry_fn max_fns :
  Forall
    (λ t,
       ((t_kind t = "lock" ∨ t_kind t = "unlock")
        ∧ ∃ key, op t = Some key ∧ key ≠ "")
       ∨ (t_kind t = "cfg" ∧ (op t = None ∨ op t = Some "")))
    (transitions (build_petri_net functions entry_fn max_fns)).
Proof.
  eapply Forall_impl; [apply transition_shapes|].
  intros t [(f & ->)|[(f & bb & tgt & lk & uk & ->)|(f & k & ->)]];
    [right; split; [done|by left]| |right; split; [done|by left]].
  unfold edge_transition, py_or. simpl.
  destruct lk as [[|c l]|]; simpl.
  - destruct uk as [[|c u]|]; simpl.
    + right. split; [done|by right].
    + left. split; [by right|]. by eexists.
    + right. split; [done|by left].
  - left. split; [by left|]. by eexists.
  - destruct uk as [[|c u]|]; simpl.
    + right. split; [done|by right].
    + left. split; [by right|]. by eexists.
    + right. split; [done|by left].
Qed.

Lemma warnings_run_call b o :
  ∀ w, w ∈ warnings (net (run_call b o)) →
    w ∈ warnings (net b) ∨ o = AddWarning w.
Proof.
  intros w. destruct o as [p|t| |w']; simpl;
    [unfold add_place; case_decide; auto
    |unfold add_transition; case_decide; auto|auto|].
  rewrite elem_of_app, list_elem_of_singleton. intros [?| ->]; auto.
Qed.

(** X6.  Every warning of a net built names one of the functions
    processed and a block [bbK]; its reason is one of the four the builder
    knows; the callee is absent exactly for a missing terminator, is
    [drop] for an unbound guard, and otherwise is the call's callee, which
    looks like a lock for [no local in args] and does not for
    [unrecognized call]. *)
Theorem X6_warning_shapes functions entry_fn max_fns :
  Forall (warning_shape (map name (fns_to_process functions max_fns)))
    (warnings (build_petri_net functions entry_fn max_fns)).
Proof.
  refine (Steps_ind_inv _ entry_fn
            (λ b, Forall (warning_shape
                            (map name (fns_to_process functions max_fns)))
                    (warnings (net b))) _ _ _ _
            (Steps_run_builder functions entry_fn max_fns));
    [|by constructor].
  intros b o Hb Ho. apply Forall_forall. intros w Hw.
  apply warnings_run_call in Hw as [Hw| ->]; [|done].
  by eapply Forall_forall in Hb.
Qed.

(** *** Properties of one transition that later insertions keep *)

Section TransitionLocal.
Variable Q : builder → Transition → Prop.
Variable F : MirFunction → Prop.
Variable K : option string → option string → Prop.
Hypothesis Q_mono : ∀ b b' t, Grows b b' → Q b t → Q b' t.
Hypothesis Q_cfg : ∀ b t, t_kind t = "cfg" → op t = None → Q b t.
Hypothesis Q_edge :
  ∀ f bb src m lk uk b tgt,
    K lk uk →
    Q (add_edge f bb src m lk uk b tgt) (edge_transition f bb tgt lk uk).
Hypothesis K_classify :
  ∀ f fn bb term b tg lk uk b',
    F fn → classify f fn bb term b = (tg, lk, uk, b') → K lk uk.

Lemma TL_intro b b' t :
  (∀ t', t' ∈ transitions (net b) → Q b t') →
  Grows b b' →
  (∀ t', t' ∈ transitions (net b') → t' ∈ transitions (net b) ∨ t' = t) →
  Q b' t →
  ∀ t', t' ∈ transitions (net b') → Q b' t'.
Proof.
  intros Hb G Ht Hq t' Hin.
  destruct (Ht _ Hin) as [Hold| ->]; [|done].
  eapply Q_mono; [done|]. by apply Hb.
Qed.

Lemma TL_same b b' :
  (∀ t', t' ∈ transitions (net b) → Q b t') →
  Grows b b' →
  transitions (net b') = transitions (net b) →
  ∀ t', t' ∈ transitions (net b') → Q b' t'.
Proof.
  intros Hb G Ht t' Hin. rewrite Ht in Hin.
  eapply Q_mono; [done|]. by apply Hb.
Qed.

Lemma TL_add_edge f bb src m lk uk b tgt :
  K lk uk →
  (∀ t', t' ∈ transitions (net b) → Q b t') →
  ∀ t', t' ∈ transitions (net (add_edge f bb src m lk uk b tgt)) →
    Q (add_edge f bb src m lk uk b tgt) t'.
Proof.
  intros HK Hb.
  eapply TL_intro; [done|apply Grows_add_edge| |by apply Q_edge].
  intros t'. rewrite transitions_add_edge.
  apply elem_of_transitions_add_transition.
Qed.

Lemma TL_add_cfg t b :
  t_kind t = "cfg" →
  op t = None →
  (∀ t', t' ∈ transitions (net b) → Q b t') →
  ∀ t', t' ∈ transitions (net (add_transition t b)) →
    Q (add_transition t b) t'.
Proof.
  intros Hk Ho Hb.
  apply (TL_intro b _ t); [done|apply Grows_add_transition| |by apply Q_cfg].
  intros t'. apply elem_of_transitions_add_transition.
Qed.

Lemma TL_add_arc s t w b :
  (∀ t', t' ∈ transitions (net b) → Q b t') →
  ∀ t', t' ∈ transitions (net (add_arc s t w b)) → Q (add_arc s t w b) t'.
Proof.
  intros Hb. apply (TL_same b); [done|apply Grows_add_arc|].
  by autorewrite with bld.
Qed.

Lemma TL_add_warning w b :
  (∀ t', t' ∈ transitions (net b) → Q b t') →
  ∀ t', t' ∈ transitions (net (add_warning w b)) → Q (add_warning w b) t'.
Proof.
  intros Hb. apply (TL_same b); [done|apply Grows_add_warning|].
  by autorewrite with bld.
Qed.

Lemma TL_add_place p b :
  (∀ t', t' ∈ transitions (net b) → Q b t') →
  ∀ t', t' ∈ transitions (net (add_place p b)) → Q (add_place p b) t'.
Proof.
  intros Hb. apply (TL_same b); [done|apply Grows_add_place|].
  by autorewrite with bld.
Qed.

Lemma TL_add_start f bbs m b :
  (∀ t', t' ∈ transitions (net b) → Q b t') →
  ∀ t', t' ∈ transitions (net (add_start f bbs m b)) →
    Q (add_start f bbs m b) t'.
Proof.
  intros Hb. unfold add_start. case_match; [|done].
  do 2 apply TL_add_arc. by apply TL_add_cfg.
Qed.

Lemma TL_add_return f bb src b :
  (∀ t', t' ∈ transitions (net b) → Q b t') →
  ∀ t', t' ∈ transitions (net (add_return f bb src b)) →
    Q (add_return f bb src b) t'.
Proof.
  intros Hb. unfold add_return.
  do 2 apply TL_add_arc. by apply TL_add_cfg.
Qed.

Lemma TL_process_block f fn m b bb :
  F fn →
  (∀ t', t' ∈ transitions (net b) → Q b t') →
  ∀ t', t' ∈ transitions (net (process_block f fn m b bb)) →
    Q (process_block f fn m b bb) t'.
Proof.
  intros HF Hb. unfold process_block.
  destruct (is_cleanup bb); [done|].
  destruct (m !! bb_id bb) as [src|]; [|done].
  destruct (truthy src); simpl; [|done].
  destruct (terminator bb) as [term|]; [|by apply TL_add_warning].
  destruct (classify f fn bb term b) as [[[tg lk] uk] b1] eqn:Hc.
  pose proof (K_classify _ _ _ _ _ _ _ _ _ HF Hc) as HK.
  apply classify_spec in Hc as [_ Hc].
  assert (∀ t', t' ∈ transitions (net b1) → Q b1 t') as Hb1.
  { destruct Hc as [->|[w ->]]; [done|by apply TL_add_warning]. }
  assert (∀ t',
            t' ∈ transitions
                   (net (foldl (add_edge f bb src m lk uk) b1 tg)) →
            Q (foldl (add_edge f bb src m lk uk) b1 tg) t') as Hb2.
  { apply (foldl_preserves
             (λ b, ∀ t', t' ∈ transitions (net b) → Q b t')); [|done].
    intros c tgt _ Hc'. by apply TL_add_edge. }
  destruct term; try done. by apply TL_add_return.
Qed.

Lemma TL_build_function_net fn e b :
  F fn →
  (∀ t', t' ∈ transitions (net b) → Q b t') →
  ∀ t', t' ∈ transitions (net (_build_function_net fn e b)) →
    Q (_build_function_net fn e b) t'.
Proof.
  intros HF Hb. unfold _build_function_net. rewrite foldl_alloc_block.
  apply (foldl_preserves (λ b, ∀ t', t' ∈ transitions (net b) → Q b t'));
    [intros; by apply TL_process_block|].
  apply TL_add_start.
  apply (foldl_preserves (λ b, ∀ t', t' ∈ transitions (net b) → Q b t'));
    [|by do 2 apply TL_add_place].
  intros c bb _ Hc. unfold alloc_places.
  destruct (is_cleanup bb); [done|]. by apply TL_add_place.
Qed.

Lemma TL_run_builder functions e max_fns :
  Forall F (fns_to_process functions max_fns) →
  ∀ t', t' ∈ transitions (net (run_builder functions e max_fns)) →
    Q (run_builder functions e max_fns) t'.
Proof.
  intros HF. unfold run_builder.
  apply (foldl_preserves (λ b, ∀ t', t' ∈ transitions (net b) → Q b t'));
    [intros b fn Hfn Hb; apply TL_build_function_net; [|done];
     by apply (proj1 (Forall_forall _ _) HF)|].
  intros t' Hin. by apply elem_of_nil in Hin.
Qed.

End TransitionLocal.

Lemma has_arc_mono b b' s t :
  Grows b b' → has_arc (net b) s t → has_arc (net b') s t.
Proof.
  intros G (a & Ha & ?). exists a. split; [|done].
  eapply prefix_elem; [apply (gr_arcs _ _ G)|done].
Qed.

Lemma has_arc_add_arc s t w b : has_arc (net (add_arc s t w b)) s t.
Proof. eexists. split; [apply elem_of_arcs_add_arc|done]. Qed.

Lemma lock_arcs_wired tid key b :
  truthy key = true →
  has_arc (net (add_lock_arcs tid (Some key) b)) (mutex_free_id key) tid
  ∧ has_arc (net (add_lock_arcs tid (Some key) b)) tid (mutex_held_id key).
Proof.
  intros Hk. unfold add_lock_arcs. rewrite Hk. split.
  - eapply has_arc_mono; [apply Grows_add_arc|apply has_arc_add_arc].
  - apply has_arc_add_arc.
Qed.

Lemma unlock_arcs_wired tid key b :
  truthy key = true →
  has_arc (net (add_unlock_arcs tid (Some key) b)) (mutex_held_id key) tid
  ∧ has_arc (net (add_unlock_arcs tid (Some key) b)) tid (mutex_free_id key).
Proof.
  intros Hk. unfold add_unlock_arcs. rewrite Hk. split.
  - eapply has_arc_mono; [apply Grows_add_arc|apply has_arc_add_arc].
  - apply has_arc_add_arc.
Qed.

Lemma Grows_add_unlock_arcs tid uk b : Grows b (add_unlock_arcs tid uk b).
Proof. apply (Ext_add_unlock_arcs [] ""). Qed.

Lemma mutex_wired_add_edge f bb src m lk uk b tgt :
  mutex_wired (net (add_edge f bb src m lk uk b tgt))
    (edge_transition f bb tgt lk uk).
Proof.
  intros key Hop. simpl in Hop. unfold py_or in Hop.
  unfold add_edge. simpl t_kind. set (tid := t_id _).
  destruct (truthy_opt lk) eqn:Hl.
  - subst lk. simpl in Hl. split; [intros _|done].
    set (b3 := add_dst_arc _ _ _).
    destruct (lock_arcs_wired tid key b3 Hl) as [H1 H2].
    split; (eapply has_arc_mono; [apply Grows_add_unlock_arcs|done]).
  - destruct (truthy_opt uk) eqn:Hu; [|done].
    subst uk. simpl in Hu. split; [done|intros _].
    by apply unlock_arcs_wired.
Qed.

(** X7.  In every net built, a [lock] transition with key [K] has an arc
    from [p_mutex_K_free] and an arc to [p_mutex_K_held]; an [unlock]
    transition with key [K] has an arc from [p_mutex_K_held] and an arc to
    [p_mutex_K_free]. *)
Theorem X7_mutex_arcs functions entry_fn max_fns :
  let net := build_petri_net functions entry_fn max_fns in
  Forall (mutex_wired net) (transitions net).
Proof.
  cbv zeta. apply Forall_forall. unfold build_petri_net.
  apply (TL_run_builder (λ b t, mutex_wired (net b) t)
           (λ _, True) (λ _ _, True)).
  - intros b b' t G Hw key Hop. destruct (Hw key Hop) as [Hl Hu].
    split; intros Hk; [destruct (Hl Hk)|destruct (Hu Hk)];
      split; by eapply has_arc_mono.
  - intros b t Hk _ key _. rewrite Hk. by split.
  - intros. apply mutex_wired_add_edge.
  - done.
  - by apply Forall_forall.
Qed.

(** *** Cleanup blocks *)

Lemma foldl_filter_skip {A B} (f : A → B → A) (P : B → Prop)
    `{∀ x, Decision (P x)} (l : list B) :
  (∀ a x, ¬ P x → f a x = a) →
  ∀ a, foldl f a (filter P l) = foldl f a l.
Proof.
  intros Hskip. induction l as [|x l IH]; intros a; [done|].
  rewrite filter_cons. destruct (decide (P x)) as [Hx|Hx]; simpl.
  - apply IH.
  - rewrite (Hskip a x Hx). apply IH.
Qed.

Lemma first_non_cleanup_filter bbs :
  first_non_cleanup (filter (λ bb, is_cleanup bb = false) bbs)
  = first_non_cleanup bbs.
Proof.
  unfold first_non_cleanup. induction bbs as [|bb bbs IH]; [done|].
  rewrite filter_cons. case_decide as Hc; simpl.
  - by rewrite Hc.
  - destruct (is_cleanup bb); [|done]. simpl. apply IH.
Qed.

Lemma build_function_net_without_cleanup fn e b :
  _build_function_net (without_cleanup fn) e b = _build_function_net fn e b.
Proof.
  unfold _build_function_net.
  change (name (without_cleanup fn)) with (name fn).
  change (basic_blocks (without_cleanup fn))
    with (filter (λ bb, is_cleanup bb = false) (basic_blocks fn)).
  rewrite (foldl_filter_skip (alloc_block (name fn))).
  2:{ intros a x Hx. unfold alloc_block. by destruct (is_cleanup x). }
  destruct (foldl (alloc_block (name fn)) _ (basic_blocks fn)) as [m b3].
  unfold add_start. rewrite first_non_cleanup_filter.
  change (process_block (name fn) (without_cleanup fn) m)
    with (process_block (name fn) fn m).
  apply foldl_filter_skip.
  intros a x Hx. unfold process_block. by destruct (is_cleanup x).
Qed.

Lemma py_take_fmap {A B} (g : A → B) (l : list A) n :
  py_take (map g l) n = map g (py_take l n).
Proof.
  unfold py_take. rewrite length_map.
  destruct (0 <=? n); symmetry; apply fmap_take.
Qed.

(** X8.  Cleanup blocks contribute nothing: building from functions
    stripped of their cleanup blocks gives the same net (places,
    transitions, arcs, marking and warnings). *)
Theorem X8_cleanup_blocks_ignored functions entry_fn max_fns :
  build_petri_net (map without_cleanup functions) entry_fn max_fns
  = build_petri_net functions entry_fn max_fns.
Proof.
  unfold build_petri_net, run_builder. f_equal.
  assert (fns_to_process (map without_cleanup functions) max_fns
          = map without_cleanup (fns_to_process functions max_fns)) as ->.
  { destruct max_fns as [n|]; [apply py_take_fmap|done]. }
  generalize init_builder.
  induction (fns_to_process functions max_fns) as [|fn fns IH]; intros b;
    [done|].
  simpl. rewrite build_function_net_without_cleanup. apply IH.
Qed.

(** *** Limiting the number of functions *)

Lemma py_take_prefix {A} (l : list A) n : py_take l n `prefix_of` l.
Proof. unfold py_take. destruct (0 <=? n); apply prefix_take. Qed.

Lemma Grows_run fns e b :
  Grows b (foldl (λ b fn, _build_function_net fn e b) b fns).
Proof.
  apply (foldl_preserves (Grows b)); [|reflexivity].
  intros c fn _ Hc. etrans; [done|apply Grows_build_function_net].
Qed.

Lemma Grows_run_prefix fns' fns e b :
  fns' `prefix_of` fns →
  Grows (foldl (λ b fn, _build_function_net fn e b) b fns')
    (foldl (λ b fn, _build_function_net fn e b) b fns).
Proof. intros [rest ->]. rewrite foldl_app. apply Grows_run. Qed.

(** X9.  The net of the first functions is an initial segment of the net
    of all of them: with [max_fns] set (to any integer: the slice
    [functions[:max_fns]] accepts negative bounds too), the places, the
    transitions and the arcs are prefixes of those obtained without the
    bound, so that ids, order and arc numbers agree. *)
Theorem X9_max_fns_prefix functions entry_fn n :
  let bounded := build_petri_net functions entry_fn (Some n) in
  let full := build_petri_net functions entry_fn None in
  places bounded `prefix_of` places full
  ∧ transitions bounded `prefix_of` transitions full
  ∧ arcs bounded `prefix_of` arcs full.
Proof.
  cbv zeta. unfold build_petri_net, run_builder. simpl fns_to_process.
  pose proof (Grows_run_prefix _ _ entry_fn init_builder
                (py_take_prefix functions n)) as G.
  split; [apply (gr_places _ _ G)|].
  split; [apply (gr_transitions _ _ G)|apply (gr_arcs _ _ G)].
Qed.

(** *** Lookup by id *)

Lemma find_by_id {A} (g : A → string) (l : list A) (i : string) (x : A) :
  NoDup (map g l) →
  List.find (λ y, String.eqb (g y) i) l = Some x ↔ x ∈ l ∧ g x = i.
Proof.
  intros Hnd. split.
  - intros [Hin Hx]%find_some. split; [by apply list_elem_of_In|].
    by apply String.eqb_eq.
  - intros [Hin <-]. induction l as [|y l IH]; [by apply elem_of_nil in Hin|].
    simpl in *. apply NoDup_cons in Hnd as [Hy Hnd].
    apply elem_of_cons in Hin as [->|Hin]; [by rewrite String.eqb_refl|].
    destruct (String.eqb (g y) (g x)) eqn:E; [|by apply IH].
    apply String.eqb_eq in E. exfalso. apply Hy. rewrite E.
    by apply list_elem_of_fmap_2.
Qed.

(** X10.  On a net built by [build_petri_net], [place_by_id] and
    [transition_by_id] return an element exactly when it is in the net
    under that id (ids are unique, so the first match is the only one). *)
Theorem X10_lookup_by_id functions entry_fn max_fns :
  let net := build_petri_net functions entry_fn max_fns in
  (∀ i p, place_by_id net i = Some p ↔ p ∈ places net ∧ p_id p = i)
  ∧ (∀ i t,
       transition_by_id net i = Some t ↔ t ∈ transitions net ∧ t_id t = i).
Proof.
  pose proof (Inv_run_builder functions entry_fn max_fns) as HI.
  split; intros i x; apply find_by_id;
    [apply (inv_nodup_p _ _ _ HI)|apply (inv_nodup_t _ _ _ HI)].
Qed.

Lemma find_first_match {A} (g : A → string) (i : string) (l : list A) :
  (∀ x, List.find (λ y, String.eqb (g y) i) l = Some x ↔
        ∃ l1 l2, l = l1 ++ x :: l2 ∧ g x = i ∧ Forall (λ q, g q ≠ i) l1)
  ∧ (List.find (λ y, String.eqb (g y) i) l = None ↔ i ∉ map g l).
Proof.
  induction l as [|y l [IH1 IH2]].
  - split.
    + intros x. split; [done|]. by intros ([|??] & ? & ? & _).
    + split; [intros _ []%elem_of_nil|done].
  - simpl. destruct (String.eqb (g y) i) eqn:E.
    + apply String.eqb_eq in E. split.
      * intros x. split.
        -- intros [= <-]. exists [], l. split; [done|]. split; [done|].
           constructor.
        -- intros ([|z l1] & l2 & Hl & Hx & Hall); simplify_eq/=; [done|].
           by apply Forall_cons in Hall as [Hz _].
      * split; [done|]. intros Hn. exfalso. apply Hn. rewrite <- E. left.
    + assert (g y ≠ i) as Hne.
      { intros Hyi. apply String.eqb_eq in Hyi. congruence. }
      split.
      * intros x. rewrite IH1. split.
        -- intros (l1 & l2 & -> & Hx & Hall). exists (y :: l1), l2.
           split; [done|]. split; [done|]. by constructor.
        -- intros ([|z l1] & l2 & Hl & Hx & Hall); simplify_eq/=.
           apply Forall_cons in Hall as [_ Hall]. by exists l1, l2.
      * rewrite IH2. rewrite not_elem_of_cons. naive_solver.
Qed.

(** X11.  [place_by_id] and [transition_by_id] on any net: the result,
    if any, is the first element with that id; there is none exactly when
    no element has the id. *)
Theorem X11_lookup_first_match net i :
  (∀ p, place_by_id net i = Some p ↔
        ∃ l1 l2, places net = l1 ++ p :: l2 ∧ p_id p = i
                 ∧ Forall (λ q, p_id q ≠ i) l1)
  ∧ (place_by_id net i = None ↔ i ∉ map p_id (places net))
  ∧ (∀ t, transition_by_id net i = Some t ↔
          ∃ l1 l2, transitions net = l1 ++ t :: l2 ∧ t_id t = i
                   ∧ Forall (λ q, t_id q ≠ i) l1)
  ∧ (transition_by_id net i = None ↔ i ∉ map t_id (transitions net)).
Proof.
  destruct (find_first_match p_id i (places net)) as [H1 H2].
  destruct (find_first_match t_id i (transitions net)) as [H3 H4].
  done.
Qed.

(** *** What the loop over a block is sure to leave in the net *)

Section Reached.
Variable Q : builder → Prop.
Hypothesis Q_mono : ∀ b b', Q b → Grows b b' → Q b'.

Lemma reached_process_edge f fn m b bb term tgt src :
  is_cleanup bb = false →
  m !! bb_id bb = Some src → truthy src = true →
  terminator bb = Some term → tgt ∈ successors term →
  (∀ lk uk b, Q (add_edge f bb src m lk uk b tgt)) →
  Q (process_block f fn m b bb).
Proof.
  intros Hc Hm Hsrc Hterm Htgt Hq. unfold process_block.
  rewrite Hc, Hm, Hsrc, Hterm. simpl.
  destruct (classify f fn bb term b) as [[[tg lk] uk] b1] eqn:Hcls.
  apply classify_spec in Hcls as [-> _].
  assert (Q (foldl (add_edge f bb src m lk uk) b1 (successors term))).
  { apply (foldl_reached Q _ _ _ tgt); [done| |done|done].
    intros. apply Grows_add_edge. }
  destruct term; try done. by apply elem_of_nil in Htgt.
Qed.

Lemma reached_process_return f fn m b bb src :
  is_cleanup bb = false →
  m !! bb_id bb = Some src → truthy src = true →
  terminator bb = Some TerminatorReturn →
  (∀ b, Q (add_return f bb src b)) →
  Q (process_block f fn m b bb).
Proof.
  intros Hc Hm Hsrc Hterm Hq. unfold process_block.
  rewrite Hc, Hm, Hsrc, Hterm. simpl. apply Hq.
Qed.

Lemma reached_build_block fn e b bb :
  bb ∈ basic_blocks fn →
  (∀ b, Q (process_block (name fn) fn (bb_to_place_of fn) b bb)) →
  Q (_build_function_net fn e b).
Proof.
  intros Hbb Hq. unfold _build_function_net. rewrite foldl_alloc_block.
  apply (foldl_reached Q _ _ _ bb); [done| |done|done].
  intros. apply Grows_process_block.
Qed.

Lemma reached_build_start fn e b :
  (∀ b, Q (add_start (name fn) (basic_blocks fn) (bb_to_place_of fn) b)) →
  Q (_build_function_net fn e b).
Proof.
  intros Hq. unfold _build_function_net. rewrite foldl_alloc_block.
  eapply Q_mono; [apply Hq|].
  apply (foldl_preserves (Grows _)); [|reflexivity].
  intros c bb _ Hc. etrans; [done|apply Grows_process_block].
Qed.

Lemma reached_run functions e max_fns fn :
  fn ∈ fns_to_process functions max_fns →
  (∀ b, Q (_build_function_net fn e b)) →
  Q (run_builder functions e max_fns).
Proof.
  intros Hfn Hq. unfold run_builder.
  apply (foldl_reached Q _ _ _ fn); [done| |done|done].
  intros. apply Grows_build_function_net.
Qed.

End Reached.

Lemma has_block_lookup fn tgt :
  has_block fn tgt = true →
  bb_to_place_of fn !! tgt = Some (bb_place_id (name fn) tgt).
Proof.
  unfold has_block. rewrite existsb_exists.
  intros (bb' & Hin & [Hc <-%Z.eqb_eq]%andb_true_iff).
  apply alloc_map_lookup; [by apply list_elem_of_In|].
  by destruct (is_cleanup bb').
Qed.

Lemma Grows_add_dst_arc tid dst b : Grows b (add_dst_arc tid dst b).
Proof. apply (Ext_add_dst_arc [] ""). Qed.

Lemma Grows_add_lock_arcs tid lk b : Grows b (add_lock_arcs tid lk b).
Proof. apply (Ext_add_lock_arcs [] ""). Qed.

Lemma add_edge_arcs f bb src m lk uk b tgt :
  has_arc (net (add_edge f bb src m lk uk b tgt)) src
    (edge_id f (bb_id bb) tgt)
  ∧ ∀ dst, m !! tgt = Some dst → truthy dst = true →
      has_arc (net (add_edge f bb src m lk uk b tgt))
        (edge_id f (bb_id bb) tgt) dst.
Proof.
  unfold add_edge.
  change (t_id (edge_transition f bb tgt lk uk))
    with (edge_id f (bb_id bb) tgt).
  set (tid := edge_id f (bb_id bb) tgt).
  split.
  - eapply has_arc_mono; [apply Grows_edge_tail|apply has_arc_add_arc].
  - intros dst Hdst Htr.
    eapply has_arc_mono; [apply Grows_add_unlock_arcs|].
    eapply has_arc_mono; [apply Grows_add_lock_arcs|].
    unfold add_dst_arc. rewrite Hdst, Htr. apply has_arc_add_arc.
Qed.

(** X12.  The arcs of a control-flow edge.  For a processed non-cleanup
    block [bbK] and a successor [bbM] of its terminator, the net has an
    arc from the place of [bbK] to the transition [t_{f}_bbK_to_bbM]; it
    has an arc from that transition to the place of [bbM] when [bbM] is a
    non-cleanup block of the same function. *)
Theorem X12_edge_arcs functions entry_fn max_fns fn bb term tgt :
  let net := build_petri_net functions entry_fn max_fns in
  let f := name fn in
  fn ∈ fns_to_process functions max_fns →
  bb ∈ basic_blocks fn →
  is_cleanup bb = false →
  terminator bb = Some term →
  tgt ∈ successors term →
  has_arc net (bb_place_id f (bb_id bb)) (edge_id f (bb_id bb) tgt)
  ∧ (has_block fn tgt = true →
     has_arc net (edge_id f (bb_id bb) tgt) (bb_place_id f tgt)).
Proof.
  cbv zeta. intros Hfn Hbb Hc Hterm Htgt. unfold build_petri_net.
  set (Q := λ b : builder,
         has_arc (net b) (bb_place_id (name fn) (bb_id bb))
           (edge_id (name fn) (bb_id bb) tgt)
         ∧ (has_block fn tgt = true →
            has_arc (net b) (edge_id (name fn) (bb_id bb) tgt)
              (bb_place_id (name fn) tgt))).
  assert (∀ b b', Q b → Grows b b' → Q b') as Hmono.
  { intros b b' [H1 H2] G. split; [by eapply has_arc_mono|].
    intros Hb. eapply has_arc_mono; [done|by apply H2]. }
  apply (reached_run Q Hmono _ _ _ fn); [done|].
  intros b. apply (reached_build_block Q Hmono _ _ _ bb); [done|].
  intros c.
  apply (reached_process_edge Q Hmono _ _ _ _ _ term tgt
           (bb_place_id (name fn) (bb_id bb)));
    [done|by apply alloc_map_lookup|reflexivity|done|done|].
  intros lk uk d.
  destruct (add_edge_arcs (name fn) bb (bb_place_id (name fn) (bb_id bb))
              (bb_to_place_of fn) lk uk d tgt) as [H1 H2].
  split; [done|]. intros Hb. apply H2; [by apply has_block_lookup|done].
Qed.

Lemma X12_edge_arcs_witness :
  let net := build_petri_net (parsed mir_switch_dup) "f" None in
  has_arc net (bb_place_id "f" 0) (edge_id "f" 0 2)
  ∧ (true = true → has_arc net (edge_id "f" 0 2) (bb_place_id "f" 2)).
Proof.
  apply (X12_edge_arcs (parsed mir_switch_dup) "f" None
           (mkMirFunction "f" []
              [mkBasicBlock 0 [] (Some (TerminatorSwitch [1; 1; 2])) false 3;
               mkBasicBlock 1 [] (Some TerminatorReturn) false 6;
               mkBasicBlock 2 [] (Some TerminatorReturn) false 9] ∅ ∅)
           (mkBasicBlock 0 [] (Some (TerminatorSwitch [1; 1; 2])) false 3)
           (TerminatorSwitch [1; 1; 2]) 2).
  - vm_compute. left.
  - left.
  - reflexivity.
  - reflexivity.
  - simpl. do 2 right. left.
Defined.

Lemma add_return_arcs f bb src b :
  has_arc (net (add_return f bb src b)) src (return_id f (bb_id bb))
  ∧ has_arc (net (add_return f bb src b)) (return_id f (bb_id bb))
      (exit_id f).
Proof.
  unfold add_return. simpl t_id. split.
  - eapply has_arc_mono; [apply Grows_add_arc|apply has_arc_add_arc].
  - apply has_arc_add_arc.
Qed.

(** X13.  The arcs of a [return].  For a processed non-cleanup block
    [bbK] that ends in [return], the net has an arc from the place of
    [bbK] to the transition [t_{f}_bbK_return] and an arc from that
    transition to the exit place [p_{f}_exit]. *)
Theorem X13_return_arcs functions entry_fn max_fns fn bb :
  let net := build_petri_net functions entry_fn max_fns in
  let f := name fn in
  fn ∈ fns_to_process functions max_fns →
  bb ∈ basic_blocks fn →
  is_cleanup bb = false →
  terminator bb = Some TerminatorReturn →
  has_arc net (bb_place_id f (bb_id bb)) (return_id f (bb_id bb))
  ∧ has_arc net (return_id f (bb_id bb)) (exit_id f).
Proof.
  cbv zeta. intros Hfn Hbb Hc Hterm. unfold build_petri_net.
  set (Q := λ b : builder,
         has_arc (net b) (bb_place_id (name fn) (bb_id bb))
           (return_id (name fn) (bb_id bb))
         ∧ has_arc (net b) (return_id (name fn) (bb_id bb))
             (exit_id (name fn))).
  assert (∀ b b', Q b → Grows b b' → Q b') as Hmono.
  { intros b b' [H1 H2] G. split; by eapply has_arc_mono. }
  apply (reached_run Q Hmono _ _ _ fn); [done|].
  intros b. apply (reached_build_block Q Hmono _ _ _ bb); [done|].
  intros c.
  apply (reached_process_return Q _ _ _ _ _
           (bb_place_id (name fn) (bb_id bb)));
    [done|by apply alloc_map_lookup|reflexivity|done|].
  intros d. apply add_return_arcs.
Qed.

Lemma X13_return_arcs_witness :
  let net := build_petri_net (parsed mir_switch_dup) "f" None in
  has_arc net (bb_place_id "f" 1) (return_id "f" 1)
  ∧ has_arc net (return_id "f" 1) (exit_id "f").
Proof.
  apply (X13_return_arcs (parsed mir_switch_dup) "f" None
           (mkMirFunction "f" []
              [mkBasicBlock 0 [] (Some (TerminatorSwitch [1; 1; 2])) false 3;
               mkBasicBlock 1 [] (Some TerminatorReturn) false 6;
               mkBasicBlock 2 [] (Some TerminatorReturn) false 9] ∅ ∅)
           (mkBasicBlock 1 [] (Some TerminatorReturn) false 6)).
  - vm_compute. left.
  - right. left.
  - reflexivity.
  - reflexivity.
Defined.

Lemma add_start_arcs f bbs m b fb dst :
  first_non_cleanup bbs = Some fb →
  m !! bb_id fb = Some dst →
  has_arc (net (add_start f bbs m b)) (entry_id f) (start_id f)
  ∧ has_arc (net (add_start f bbs m b)) (start_id f) dst.
Proof.
  intros Hfb Hm. unfold add_start. rewrite Hfb.
  rewrite (lookup_total_correct _ _ _ Hm). simpl t_id. split.
  - eapply has_arc_mono; [apply Grows_add_arc|apply has_arc_add_arc].
  - apply has_arc_add_arc.
Qed.

(** X14.  The start of a function.  For a processed function whose first
    non-cleanup block in source order is [bbK] (whatever its number), the
    net has an arc from the entry place [p_{f}_entry] to the transition
    [t_{f}_start] and an arc from that transition to the place of [bbK]. *)
Theorem X14_start_arcs functions entry_fn max_fns fn fb :
  let net := build_petri_net functions entry_fn max_fns in
  let f := name fn in
  fn ∈ fns_to_process functions max_fns →
  first_non_cleanup (basic_blocks fn) = Some fb →
  has_arc net (entry_id f) (start_id f)
  ∧ has_arc net (start_id f) (bb_place_id f (bb_id fb)).
Proof.
  cbv zeta. intros Hfn Hfb. unfold build_petri_net.
  set (Q := λ b : builder,
         has_arc (net b) (entry_id (name fn)) (start_id (name fn))
         ∧ has_arc (net b) (start_id (name fn))
             (bb_place_id (name fn) (bb_id fb))).
  assert (∀ b b', Q b → Grows b b' → Q b') as Hmono.
  { intros b b' [H1 H2] G. split; by eapply has_arc_mono. }
  apply (reached_run Q Hmono _ _ _ fn); [done|].
  intros b. apply (reached_build_start Q Hmono).
  intros c. apply (add_start_arcs _ _ _ _ fb); [done|].
  apply first_non_cleanup_Some in Hfb as [Hin Hc].
  by apply alloc_map_lookup.
Qed.

Lemma X14_start_arcs_witness :
  let net := build_petri_net (parsed mir_switch_dup) "f" None in
  has_arc net (entry_id "f") (start_id "f")
  ∧ has_arc net (start_id "f") (bb_place_id "f" 0).
Proof.
  apply (X14_start_arcs (parsed mir_switch_dup) "f" None
           (mkMirFunction "f" []
              [mkBasicBlock 0 [] (Some (TerminatorSwitch [1; 1; 2])) false 3;
               mkBasicBlock 1 [] (Some TerminatorReturn) false 6;
               mkBasicBlock 2 [] (Some TerminatorReturn) false 9] ∅ ∅)
           (mkBasicBlock 0 [] (Some (TerminatorSwitch [1; 1; 2])) false 3)).
  - vm_compute. left.
  - reflexivity.
Defined.

(* ===================================================================== *)
(** ** More properties of the parser *)
(* ===================================================================== *)

Import Re Exn MirParser ParserProps ParserMore.

(** The functions found are appended to those found before. *)
Lemma parse_mir_loop_prefix text fuel :
  ∀ pos fs fs',
    parse_mir_loop fuel text pos fs = Ret fs' → fs `prefix_of` fs'.
Proof.
  induction fuel as [|fuel IH]; intros pos fs fs'; [done|].
  cbn [parse_mir_loop].
  destruct (re_search_from fn_pattern text pos) as [m|];
    [|by intros [= ->]].
  cbv zeta.
  destruct (_parse_function_body _ _ _) as [func|e|]; [|by destruct e|done].
  intros E%IH. etrans; [|done]. by apply prefix_app_r.
Qed.

(** The list is empty exactly when no header is found. *)
Lemma parse_mir_nil text fs :
  parse_mir text = Ret fs →
  (fs = [] ↔ re_search_from fn_pattern text 0 = None).
Proof.
  intros Hfs. unfold parse_mir in Hfs. cbn [parse_mir_loop] in Hfs.
  destruct (re_search_from fn_pattern text 0) as [m|].
  - split; [|done]. intros ->. exfalso. cbv zeta in Hfs.
    destruct (_parse_function_body _ _ _) as [func|e|];
      [|by destruct e|done].
    apply parse_mir_loop_prefix in Hfs as [k Hk]. by destruct k.
  - split; [done|]. by simplify_eq.
Qed.

(** X15.  [parse_mir] returns the empty list exactly when the text has no
    function header (no match of the header pattern anywhere).  It
    returns unless a number of the text has more than 4300 digits; a text
    on which it raises has a header and such a number. *)
Theorem X15_no_header_no_function text :
  (∃ fs,
     parse_mir text = Ret fs
     ∧ (fs = [] ↔ re_search_from fn_pattern text 0 = None))
  ∨ (∃ e,
       parse_mir text = Raise e
       ∧ re_search_from fn_pattern text 0 ≠ None
       ∧ (int_max_str_digits < longest_digit_run text)%nat).
Proof.
  destruct (parse_mir_outcome text) as [[fs Hfs]|(n & f & line & E & Hn)].
  - left. exists fs. split; [done|]. by apply parse_mir_nil.
  - right. eexists. split; [exact E|]. split; [|lia].
    unfold parse_mir in E. cbn [parse_mir_loop] in E.
    by destruct (re_search_from fn_pattern text 0).
Qed.

(** What [parse_block] changes in the state. *)
Lemma parse_block_shape lines start i ln bb_m st st' j :
  parse_block lines start i ln bb_m st = Ret (st', j) →
  ps_locals st' = ps_locals st
  ∧ ps_seen_bb st' = true
  ∧ (i < j)%nat
  ∧ ∃ bb,
      ps_basic_blocks st' = ps_basic_blocks st ++ [bb]
      ∧ line_start bb = start + Z.of_nat i + 1
      ∧ is_cleanup bb = contains "(cleanup)" ln.
Proof.
  unfold parse_block. intros E.
  destruct (int_of (group_str bb_m 1)) as [k| |]; simpl in E; try done.
  pose proof (scan_block_index (drop (S i) lines) (S i) []
                (ps_ref_to_base st)) as Hj.
  destruct (scan_block (drop (S i) lines) (S i) [] (ps_ref_to_base st))
    as [[bls rtb] j']. simpl in Hj.
  destruct (find_terminator (rev bls) rtb (ps_guard_to_mutex_key st))
    as [[t gtm]| |] eqn:Ht; simpl in E; try done.
  simplify_eq. simpl. split; [done|]. split; [done|]. split; [lia|].
  by eexists.
Qed.

(** X16.  Locals are only declared in front of the first basic block:
    once a block header has been seen, the outer loop of
    [_parse_function_body] records no further [let] line, whatever
    follows. *)
Theorem X16_locals_before_first_block fuel lines start i st st' :
  ps_seen_bb st = true →
  parse_lines fuel lines start i st = Ret st' →
  ps_locals st' = ps_locals st ∧ ps_seen_bb st' = true.
Proof.
  revert i st. induction fuel as [|fuel IH]; intros i st Hseen; [done|].
  cbn [parse_lines]. destruct (lines !! i) as [ln|]; [|by intros [= ->]].
  case_match; [by apply IH|].
  rewrite Hseen.
  assert (match re_search let_pattern (strip ln) with
          | Some _ | _ =>
              match re_match bb_pattern (strip ln) with
              | Some bb_m =>
                  '(st', j) ← parse_block lines start i ln bb_m st;
                  parse_lines fuel lines start j st'
              | None => parse_lines fuel lines start (S i) st
              end
          end
          = match re_match bb_pattern (strip ln) with
            | Some bb_m =>
                '(st', j) ← parse_block lines start i ln bb_m st;
                parse_lines fuel lines start j st'
            | None => parse_lines fuel lines start (S i) st
            end) as -> by by destruct (re_search let_pattern (strip ln)).
  destruct (re_match bb_pattern (strip ln)) as [bb_m|]; [|by apply IH].
  destruct (parse_block lines start i ln bb_m st) as [[st1 j]| |] eqn:Hb;
    simpl; try done.
  apply parse_block_shape in Hb as (Hl & Hs & _).
  intros E. apply IH in E as [E1 E2]; [|done]. split; [congruence|done].
Qed.

Lemma X16_locals_before_first_block_witness :
  let st := PState [mkLocalDecl "_1" "i32" false] ∅ [] ∅ true in
  ∃ st',
    parse_lines 3 ["    let _2: u8;"; "    let mut _3: u8;"] 1 0 st = Ret st'
    ∧ ps_locals st' = ps_locals st ∧ ps_seen_bb st' = true.
Proof.
  intros st.
  assert (∃ st',
            parse_lines 3 ["    let _2: u8;"; "    let mut _3: u8;"] 1 0 st
            = Ret st') as [st' Hst'].
  { eexists. vm_compute. reflexivity. }
  exists st'. split; [done|].
  exact (X16_locals_before_first_block 3 _ 1 0%nat st st' eq_refl Hst').
Defined.

Lemma lines_increasing_snoc bbs bb :
  lines_increasing bbs →
  Forall (λ bb', line_start bb' < line_start bb) bbs →
  lines_increasing (bbs ++ [bb]).
Proof.
  intros Hinc Hall i j b1 b2 Hij H1 H2.
  destruct (decide (j < List.length bbs)%nat) as [Hj|Hj].
  - rewrite lookup_app_l in H1 by lia. rewrite lookup_app_l in H2 by done.
    exact (Hinc i j b1 b2 Hij H1 H2).
  - rewrite lookup_app_r in H2 by lia.
    apply list_lookup_singleton_Some in H2 as [Hj' <-].
    rewrite lookup_app_l in H1 by lia.
    eapply Forall_forall in Hall; [done|]. by eapply list_elem_of_lookup_2.
Qed.

Lemma parse_lines_order fuel lines start :
  ∀ i st st',
    lines_increasing (ps_basic_blocks st) →
    Forall (λ bb, start < line_start bb ≤ start + Z.of_nat i
                  ∧ line_start bb ≤ start + Z.of_nat (List.length lines))
      (ps_basic_blocks st) →
    parse_lines fuel lines start i st = Ret st' →
    lines_increasing (ps_basic_blocks st')
    ∧ Forall (λ bb, start < line_start bb
                    ≤ start + Z.of_nat (List.length lines))
        (ps_basic_blocks st').
Proof.
  induction fuel as [|fuel IH]; intros i st st' Hinc Hall; [done|].
  assert (Forall (λ bb, start < line_start bb ≤ start + Z.of_nat (S i)
                        ∧ line_start bb
                          ≤ start + Z.of_nat (List.length lines))
            (ps_basic_blocks st)) as Hall'.
  { eapply Forall_impl; [done|]. simpl. lia. }
  cbn [parse_lines]. destruct (lines !! i) as [ln|] eqn:Hi.
  2:{ intros [= <-]. split; [done|].
      eapply Forall_impl; [done|]. simpl. lia. }
  apply lookup_lt_Some in Hi.
  case_match; [by apply IH|].
  destruct (re_search let_pattern (strip ln)) as [let_m|],
    (ps_seen_bb st) eqn:Hseen.
  2: { by apply IH. }
  all: destruct (re_match bb_pattern (strip ln)) as [bb_m|]; [|by apply IH].
  all: destruct (parse_block lines start i ln bb_m st) as [[st1 j]| |] eqn:Hb;
    simpl; try done.
  all: apply parse_block_shape in Hb as (_ & _ & Hj & bb & Hbbs & Hline & _).
  all: apply IH; rewrite Hbbs.
  all: try (apply lines_increasing_snoc; [done|];
            eapply Forall_impl; [exact Hall|]; simpl; lia).
  all: apply Forall_app; split;
    [eapply Forall_impl; [exact Hall|]; simpl; lia
    |apply Forall_singleton; lia].
Qed.

(** X17.  The basic blocks of a parsed function are listed in source
    order.  On a body whose numbers have at most 4300 digits
    [_parse_function_body] returns, the [line_start] of the blocks is
    strictly increasing along [basic_blocks], and it lies between the
    line of the header (exclusive) and the last line of the body. *)
Theorem X17_blocks_in_source_order fn_name body start :
  short_numbers body →
  ∃ fn,
    _parse_function_body fn_name body start = Ret fn
    ∧ lines_increasing (basic_blocks fn)
    ∧ Forall (λ bb, start < line_start bb
                    ≤ start + Z.of_nat (List.length (split_lines body)))
        (basic_blocks fn).
Proof.
  intros Hshort.
  destruct (_parse_function_body_total fn_name body start Hshort)
    as (fn & Hfn & _).
  exists fn. split; [done|].
  unfold _parse_function_body in Hfn.
  destruct (parse_lines _ _ _ _ _) as [st| |] eqn:Hst; simpl in Hfn;
    try done.
  injection Hfn as <-. simpl.
  eapply parse_lines_order; [| |exact Hst]; simpl; [|by constructor].
  intros i j bb bb' _ H. by rewrite lookup_nil in H.
Qed.

Lemma X17_blocks_in_source_order_witness :
  let body := String.substring 19 34 mir_helper_only in
  ∃ fn,
    _parse_function_body "helper" body 1 = Ret fn
    ∧ lines_increasing (basic_blocks fn)
    ∧ Forall (λ bb, 1 < line_start bb
                    ≤ 1 + Z.of_nat (List.length (split_lines body)))
        (basic_blocks fn).
Proof.
  apply (X17_blocks_in_source_order "helper"
           (String.substring 19 34 mir_helper_only) 1).
  apply Nat.leb_le. reflexivity.
Defined.

(** *** The brace matcher on a balanced body *)

Lemma brace_scan_app body :
  ∀ i depth rest,
    unbalanced body depth = true →
    brace_scan (body +:+ rest) i depth
    = brace_scan rest (i + String.length body) (depth_after body depth).
Proof.
  induction body as [|c body IH]; intros i depth rest; simpl.
  - intros _. by rewrite Nat.add_0_r.
  - intros [Hd Hu]%andb_true_iff.
    apply Z.ltb_lt in Hd. rewrite (proj2 (Z.gtb_lt depth 0)) by done.
    rewrite IH by done. f_equal. lia.
Qed.

Lemma substring_str_drop a n s :
  String.substring a n s = String.substring 0 n (str_drop a s).
Proof.
  revert s. induction a as [|a IH]; intros s; [by destruct s|].
  destruct s as [|c s]; [by destruct n|]. simpl. apply IH.
Qed.

(** X18.  One turn of the loop of [parse_mir] on a well-formed function.
    When the header is followed by [body], a closing brace and more text,
    [body] is balanced and none of its numbers has more than 4300 digits,
    the function is parsed from exactly [body] (neither brace belongs to
    it) and the search for the next header resumes right after the
    closing brace. *)
Theorem X18_balanced_body text pos m body rest fuel fs :
  re_search_from fn_pattern text pos = Some m →
  str_drop (m_end m) text = body +:+ "}" +:+ rest →
  balanced body →
  short_numbers body →
  ∃ func,
    _parse_function_body (group_str m 1) body
      (Z.of_nat (count_newlines (slice text 0 (m_start m))) + 1)
    = Ret func
    ∧ parse_mir_loop (S fuel) text pos fs
      = parse_mir_loop fuel text (m_end m + String.length body + 1)
          (fs ++ [func]).
Proof.
  intros Hm Hdrop [Hu Hd] Hshort.
  destruct (_parse_function_body_total (group_str m 1) body
              (Z.of_nat (count_newlines (slice text 0 (m_start m))) + 1)
              Hshort)
    as (func & Hfunc & _).
  exists func. split; [done|].
  cbn [parse_mir_loop]. rewrite Hm. cbv zeta.
  assert (brace_scan (str_drop (m_end m) text) (m_end m) 1
          = (m_end m + String.length body + 1)%nat) as ->.
  { rewrite Hdrop, brace_scan_app, Hd by done. simpl.
    destruct rest; simpl; lia. }
  assert (slice text (m_end m) (m_end m + String.length body + 1 - 1) = body)
    as ->.
  { unfold slice. rewrite substring_str_drop, Hdrop.
    replace (m_end m + String.length body + 1 - 1 - m_end m)%nat
      with (String.length body) by lia.
    apply substring_prefix. }
  by rewrite Hfunc.
Qed.

Lemma X18_balanced_body_witness :
  ∃ func,
    _parse_function_body "helper"
      (String.substring 19 34 mir_helper_only) 1
    = Ret func
    ∧ parse_mir_loop 2 mir_helper_only 0 []
      = parse_mir_loop 1 mir_helper_only 54 ([] ++ [func]).
Proof.
  apply (X18_balanced_body mir_helper_only 0
           (MatchObj 0 19 [(1%nat, "helper")])
           (String.substring 19 34 mir_helper_only) "
" 1 []); [reflexivity|reflexivity|by split|].
  apply Nat.leb_le. reflexivity.
Defined.

(* ===================================================================== *)
(** ** Properties of the PNML writer *)
(* ===================================================================== *)

Import PnmlWriter PnmlIndent.

Lemma list_sum_count {A} (f : A → nat) (P : A → Prop)
    `{∀ x, Decision (P x)} (l : list A) :
  Forall (λ x, f x = if decide (P x) then 1%nat else 0%nat) l →
  list_sum (map f l) = List.length (filter P l).
Proof.
  induction 1 as [|x l Hx _ IH]; [done|].
  simpl. rewrite filter_cons, Hx, IH. by destruct (decide (P x)).
Qed.

Lemma list_sum_ones {A} (f : A → nat) (l : list A) :
  Forall (λ x, f x = 1%nat) l → list_sum (map f l) = List.length l.
Proof. induction 1 as [|x l Hx _ IH]; simpl; [done|]. by rewrite Hx, IH. Qed.

Lemma count_tags_place p :
  p_annotations p = [] →
  count_tag "place" (place_elem p) = 1%nat
  ∧ count_tag "transition" (place_elem p) = 0%nat
  ∧ count_tag "arc" (place_elem p) = 0%nat
  ∧ count_tag "toolspecific" (place_elem p) = 0%nat
  ∧ count_tag "initialMarking" (place_elem p)
    = (if decide (0 < init_tokens p) then 1%nat else 0%nat).
Proof.
  intros Ha. unfold place_elem. rewrite Ha.
  destruct (decide (0 < init_tokens p)) as [Hp|Hp].
  - by rewrite (proj2 (Z.gtb_lt _ _) Hp).
  - destruct (init_tokens p >? 0) eqn:E; [|done].
    by apply Z.gtb_lt in E.
Qed.

Lemma count_tags_transition t :
  t_annotations t = [] →
  count_tag "place" (transition_elem t) = 0%nat
  ∧ count_tag "transition" (transition_elem t) = 1%nat
  ∧ count_tag "arc" (transition_elem t) = 0%nat
  ∧ count_tag "toolspecific" (transition_elem t) = 0%nat
  ∧ count_tag "initialMarking" (transition_elem t) = 0%nat.
Proof. intros Ha. unfold transition_elem. by rewrite Ha. Qed.

Lemma count_tags_arc a :
  count_tag "place" (arc_elem a) = 0%nat
  ∧ count_tag "transition" (arc_elem a) = 0%nat
  ∧ count_tag "arc" (arc_elem a) = 1%nat
  ∧ count_tag "toolspecific" (arc_elem a) = 0%nat
  ∧ count_tag "initialMarking" (arc_elem a) = 0%nat.
Proof. unfold arc_elem. by destruct (weight a =? 1). Qed.

(** X19.  The elements of the PNML tree.  For a net whose places and
    transitions carry no annotations (every net [build_petri_net] returns
    is one), the tree [write_pnml] builds has exactly one [place] element
    per place, one [transition] element per transition, one [arc] element
    per arc, one [initialMarking] element per place with a positive token
    count, and no [toolspecific] element. *)
Theorem X19_pnml_element_counts net :
  Forall (λ p, p_annotations p = []) (places net) →
  Forall (λ t, t_annotations t = []) (transitions net) →
  let tree := write_pnml net in
  count_tag "place" tree = List.length (places net)
  ∧ count_tag "transition" tree = List.length (transitions net)
  ∧ count_tag "arc" tree = List.length (arcs net)
  ∧ count_tag "initialMarking" tree
    = List.length (filter (λ p, 0 < init_tokens p) (places net))
  ∧ count_tag "toolspecific" tree = 0%nat.
Proof.
  intros Hp Ht. cbv zeta. unfold write_pnml. simpl.
  rewrite !map_app, !list_sum_app, !map_map.
  assert (Forall (λ a : Arc, True) (arcs net)) as Ha
    by (apply Forall_forall; done).
  split_and!.
  - rewrite (list_sum_ones _ (places net)),
      (list_sum_zero _ (transitions net)), (list_sum_zero _ (arcs net));
      [lia|..].
    + eapply Forall_impl; [exact Ha|]. intros a _. apply count_tags_arc.
    + eapply Forall_impl; [exact Ht|]. intros t E.
      by apply count_tags_transition.
    + eapply Forall_impl; [exact Hp|]. intros p E.
      by apply count_tags_place.
  - rewrite (list_sum_zero _ (places net)),
      (list_sum_ones _ (transitions net)), (list_sum_zero _ (arcs net));
      [lia|..].
    + eapply Forall_impl; [exact Ha|]. intros a _. apply count_tags_arc.
    + eapply Forall_impl; [exact Ht|]. intros t E.
      by apply count_tags_transition.
    + eapply Forall_impl; [exact Hp|]. intros p E.
      by apply count_tags_place.
  - rewrite (list_sum_zero _ (places net)),
      (list_sum_zero _ (transitions net)), (list_sum_ones _ (arcs net));
      [lia|..].
    + eapply Forall_impl; [exact Ha|]. intros a _. apply count_tags_arc.
    + eapply Forall_impl; [exact Ht|]. intros t E.
      by apply count_tags_transition.
    + eapply Forall_impl; [exact Hp|]. intros p E.
      by apply count_tags_place.
  - rewrite (list_sum_count _ (λ p, 0 < init_tokens p) (places net)),
      (list_sum_zero _ (transitions net)), (list_sum_zero _ (arcs net));
      [lia|..].
    + eapply Forall_impl; [exact Ha|]. intros a _. apply count_tags_arc.
    + eapply Forall_impl; [exact Ht|]. intros t E.
      by apply count_tags_transition.
    + eapply Forall_impl; [exact Hp|]. intros p E.
      by apply count_tags_place.
  - rewrite (list_sum_zero _ (places net)),
      (list_sum_zero _ (transitions net)), (list_sum_zero _ (arcs net));
      [lia|..].
    + eapply Forall_impl; [exact Ha|]. intros a _. apply count_tags_arc.
    + eapply Forall_impl; [exact Ht|]. intros t E.
      by apply count_tags_transition.
    + eapply Forall_impl; [exact Hp|]. intros p E.
      by apply count_tags_place.
Qed.

Lemma X19_pnml_element_counts_witness :
  let net := build_petri_net (parsed mir_switch_dup) "f" None in
  let tree := write_pnml net in
  count_tag "place" tree = List.length (places net)
  ∧ count_tag "transition" tree = List.length (transitions net)
  ∧ count_tag "arc" tree = List.length (arcs net)
  ∧ count_tag "initialMarking" tree
    = List.length (filter (λ p, 0 < init_tokens p) (places net))
  ∧ count_tag "toolspecific" tree = 0%nat.
Proof.
  apply (X19_pnml_element_counts
           (build_petri_net (parsed mir_switch_dup) "f" None)).
  - vm_compute. repeat constructor.
  - vm_compute. repeat constructor.
Defined.

Lemma NoDup_fmap_eq {A} (g : A → string) (l : list A) x y :
  NoDup (map g l) → x ∈ l → y ∈ l → g x = g y → x = y.
Proof.
  induction l as [|z l IH]; intros Hnd Hx Hy E; [by apply elem_of_nil in Hx|].
  simpl in Hnd. apply NoDup_cons in Hnd as [Hz Hnd].
  apply elem_of_cons in Hx as [->|Hx]; apply elem_of_cons in Hy as [->|Hy].
  - done.
  - exfalso. apply Hz. rewrite E. by apply list_elem_of_fmap_2.
  - exfalso. apply Hz. rewrite <- E. by apply list_elem_of_fmap_2.
  - by apply IH.
Qed.

Lemma child_text_marking p :
  child_text "initialMarking" (place_elem p)
  = if decide (0 < init_tokens p) then Some (pretty (init_tokens p))
    else None.
Proof.
  unfold place_elem, child_text.
  destruct (decide (0 < init_tokens p)) as [Hp|Hp].
  - by rewrite (proj2 (Z.gtb_lt _ _) Hp).
  - destruct (init_tokens p >? 0) eqn:E; [by apply Z.gtb_lt in E|].
    by destruct (p_annotations p).
Qed.

(** X20.  The marking written is the marking of the net.  [write_pnml]
    reads [init_tokens] of each place, not [net.initial_marking]; on a net
    built by [build_petri_net] the two agree: the [initialMarking] text of
    the element of a place is the decimal of its entry in
    [net.initial_marking], and is absent when the place has no entry. *)
Theorem X20_pnml_marking_agrees functions entry_fn max_fns :
  let net := build_petri_net functions entry_fn max_fns in
  Forall
    (λ p, child_text "initialMarking" (place_elem p)
          = pretty <$> initial_marking net !! p_id p)
    (places net).
Proof.
  cbv zeta. apply Forall_forall. intros p Hp.
  pose proof (Inv_run_builder functions entry_fn max_fns) as HI.
  pose proof (marking_run_builder functions entry_fn max_fns) as HM.
  cbv zeta in HM. unfold build_petri_net in *.
  rewrite child_text_marking.
  destruct (decide (0 < init_tokens p)) as [Hpos|Hpos].
  - rewrite (proj2 (HM (p_id p) (init_tokens p))); [done|].
    by exists p.
  - destruct (initial_marking _ !! p_id p) as [n|] eqn:E; [|done].
    apply HM in E as (q & Hq & Hid & <- & Hn).
    assert (q = p) as -> by
      (eapply (NoDup_fmap_eq p_id); [apply (inv_nodup_p _ _ _ HI)|done..]).
    done.
Qed.

(** *** Indentation *)

Lemma Node_ind_nested (P : Node → Prop) :
  (∀ tag attrib text tail children,
     Forall P children → P (MkNode tag attrib text tail children)) →
  ∀ n, P n.
Proof.
  intros H. fix IH 1. intros [tag attrib text tail children].
  apply H. induction children as [|c children IHc]; constructor.
  - apply IH.
  - apply IHc.
Qed.

Lemma Element_ind_nested (P : Element → Prop) :
  (∀ tag attrib text children,
     Forall P children → P (Elem tag attrib text children)) →
  ∀ e, P e.
Proof.
  intros H. fix IH 1. intros [tag attrib text children].
  apply H. induction children as [|c children IHc]; constructor.
  - apply IH.
  - apply IHc.
Qed.

Lemma content_set_tail t n : content (set_tail t n) = content n.
Proof. by destruct n. Qed.

Lemma map_content_fix_last i l :
  map content (fix_last i l) = map content l.
Proof.
  induction l as [|c l IH]; [done|].
  destruct l as [|c' l]; simpl.
  - destruct (blank (tail_of c)); by rewrite ?content_set_tail.
  - f_equal. apply IH.
Qed.

Lemma fix_last_length i l : List.length (fix_last i l) = List.length l.
Proof.
  induction l as [|c l IH]; [done|].
  destruct l as [|c' l]; simpl in *; [done|]. by rewrite IH.
Qed.

Lemma blank_idem (o : option string) (s : string) :
  blank (if blank o then None else o) = blank o.
Proof. destruct (blank o) eqn:E; done. Qed.

Lemma all_in_space_strip s : all_in CSpace s = true → strip s = "".
Proof.
  intros H. unfold strip.
  assert (lstrip s = "") as ->; [|done].
  induction s as [|c s IH]; [done|].
  simpl in *. apply andb_true_iff in H as [Hc Hs]. rewrite Hc. by apply IH.
Qed.

Lemma all_in_spaces level : all_in CSpace (spaces level) = true.
Proof. induction level as [|level IH]; [done|]. simpl. exact IH. Qed.

Lemma blank_space s : all_in CSpace s = true → blank (Some s) = true.
Proof.
  intros H. unfold blank. rewrite (all_in_space_strip s H). simpl.
  apply orb_true_r.
Qed.

Lemma blank_indent level : blank (Some (indent_str level)) = true.
Proof.
  apply blank_space. unfold indent_str. simpl. apply all_in_spaces.
Qed.

Lemma blank_indent_text level :
  blank (Some (indent_str level +:+ "  ")) = true.
Proof.
  apply blank_space. rewrite all_in_app. unfold indent_str. simpl.
  by rewrite all_in_spaces.
Qed.

(** [_indent] only touches the layout. *)
Lemma content_indent n : ∀ level, content (_indent level n) = content n.
Proof.
  induction n as [tag attrib text tail children IH] using Node_ind_nested.
  intros level. destruct children as [|c children]; [done|].
  cbn [_indent content].
  set (cs := c :: children) in *.
  assert (map content (fix_last (indent_str level) (map (_indent (S level)) cs))
          = map content cs) as Hcs.
  { rewrite map_content_fix_last, map_map.
    apply map_ext_Forall. eapply Forall_impl; [exact IH|].
    intros x Hx. apply Hx. }
  rewrite Hcs.
  pose proof (fix_last_length (indent_str level) (map (_indent (S level)) cs))
    as Hlen.
  rewrite length_map in Hlen.
  destruct (fix_last (indent_str level) (map (_indent (S level)) cs))
    as [|c1 cs1]; [done|].
  f_equal. destruct (blank text) eqn:E; [|by rewrite E].
  by rewrite blank_indent_text.
Qed.

Lemma content_of_element e :
  text_in_leaves e = true → content (of_element e) = e.
Proof.
  induction e as [tag attrib text children IH] using Element_ind_nested.
  cbn [text_in_leaves of_element content].
  intros [Ht Hc]%andb_true_iff.
  assert (map content (map of_element children) = children) as Hcs.
  { rewrite map_map. rewrite <- (map_id children) at 2.
    apply map_ext_Forall. apply Forall_forall. intros x Hx.
    eapply Forall_forall in IH; [|done]. apply IH.
    rewrite forallb_forall in Hc. by apply Hc, list_elem_of_In. }
  rewrite Hcs. destruct children as [|c children]; [done|].
  simpl. apply bool_decide_eq_true in Ht as ->. done.
Qed.

Lemma text_in_leaves_write_pnml net : text_in_leaves (write_pnml net) = true.
Proof.
  unfold write_pnml. cbn [text_in_leaves forallb]. rewrite !andb_true_r.
  assert (forallb text_in_leaves
            (map place_elem (places net) ++ map transition_elem (transitions net)
             ++ map arc_elem (arcs net)) = true) as Hall.
  { rewrite !forallb_app.
    apply andb_true_iff; split; [|apply andb_true_iff; split];
      apply forallb_forall.
    - intros e (p & <- & _)%in_map_iff. unfold place_elem.
      destruct (init_tokens p >? 0), (p_annotations p) as [|kv ann]; try done.
      + simpl. rewrite !andb_true_r. apply forallb_forall.
        by intros x (y & <- & _)%in_map_iff.
      + simpl. rewrite !andb_true_r. apply forallb_forall.
        by intros x (y & <- & _)%in_map_iff.
    - intros e (t & <- & _)%in_map_iff. unfold transition_elem.
      destruct (t_annotations t) as [|kv ann]; try done.
      simpl. rewrite !andb_true_r. apply forallb_forall.
      by intros x (y & <- & _)%in_map_iff.
    - intros e (a & <- & _)%in_map_iff. unfold arc_elem.
      by destruct (weight a =? 1). }
  rewrite Hall.
  by destruct (map place_elem (places net) ++ map transition_elem (transitions net)
               ++ map arc_elem (arcs net)).
Qed.

(** X21.  Indentation changes the layout only.  The tree [write_pnml]
    hands to [tree.write] after [_indent(root)] has the tags, the
    attributes, the children and every text of the tree it built; what
    [_indent] sets is the [tail] of elements and the blank [text] of
    elements that have children. *)
Theorem X21_indent_keeps_content net :
  content (_indent 0 (of_element (write_pnml net))) = write_pnml net.
Proof.
  rewrite content_indent. apply content_of_element.
  apply text_in_leaves_write_pnml.
Qed.

Lemma fix_last_cons i x l :
  l ≠ [] → fix_last i (x :: l) = x :: fix_last i l.
Proof. by destruct l. Qed.

Lemma fix_last_nil i l : fix_last i l = [] ↔ l = [].
Proof.
  split; [|by intros ->].
  intros H. apply (f_equal List.length) in H.
  rewrite fix_last_length in H. by destruct l.
Qed.

Lemma indent_set_tail_blank level t n :
  blank t = true →
  _indent (S level) (set_tail t n)
  = set_tail (Some (indent_str (S level))) (_indent (S level) n).
Proof.
  intros Ht. destruct n as [tag attrib text tail [|c children]];
    cbn [set_tail _indent]; by rewrite Ht.
Qed.

Lemma set_tail_set_tail t t' n : set_tail t (set_tail t' n) = set_tail t n.
Proof. by destruct n. Qed.

Lemma tail_of_set_tail t n : tail_of (set_tail t n) = t.
Proof. by destruct n. Qed.

Lemma fix_last_indent_idem level (l : list Node) :
  Forall (λ x, _indent (S level) (_indent (S level) x) = _indent (S level) x)
    l →
  fix_last (indent_str level)
    (map (_indent (S level))
       (fix_last (indent_str level) (map (_indent (S level)) l)))
  = fix_last (indent_str level) (map (_indent (S level)) l).
Proof.
  induction 1 as [|x l Hx Hl IH]; [done|].
  destruct l as [|x' l].
  - cbn [map fix_last].
    destruct (blank (tail_of (_indent (S level) x))) eqn:E.
    + rewrite indent_set_tail_blank by apply blank_indent.
      rewrite Hx, tail_of_set_tail, blank_indent, set_tail_set_tail.
      done.
    + by rewrite Hx, E.
  - assert (map (_indent (S level)) (x' :: l) ≠ []) as Hne by done.
    rewrite map_cons, (fix_last_cons _ _ _ Hne).
    assert (fix_last (indent_str level) (map (_indent (S level)) (x' :: l))
            ≠ []) as Hne' by (by rewrite fix_last_nil).
    rewrite map_cons, fix_last_cons.
    2:{ intros E. apply Hne'. by apply map_eq_nil in E. }
    by rewrite Hx, IH.
Qed.

(** X22.  [_indent] is idempotent: indenting an indented tree (at the
    same level) changes nothing. *)
Theorem X22_indent_idempotent level n :
  _indent level (_indent level n) = _indent level n.
Proof.
  revert level.
  induction n as [tag attrib text tail children IH] using Node_ind_nested.
  intros level. destruct children as [|c children].
  - cbn [_indent].
    destruct (negb (level =? 0)%nat) eqn:El, (blank tail) eqn:Et;
      cbn [andb]; cbn [_indent]; rewrite ?El, ?Et, ?blank_indent; done.
  - cbn [_indent]. set (cs := c :: children) in *.
    assert (fix_last (indent_str level) (map (_indent (S level)) cs) ≠ [])
      as Hne by (by rewrite fix_last_nil).
    destruct (fix_last (indent_str level) (map (_indent (S level)) cs))
      as [|c1 cs1] eqn:Hcs; [done|].
    cbn [_indent]. rewrite <- Hcs.
    rewrite fix_last_indent_idem.
    2:{ eapply Forall_impl; [exact IH|]. intros x Hx. apply Hx. }
    f_equal.
    + destruct (blank text) eqn:E; [by rewrite blank_indent_text|].
      by rewrite E.
    + destruct (blank tail) eqn:E; [by rewrite blank_indent|]. by rewrite E.
Qed.

(* ===================================================================== *)
(** ** What the groups of a match hold *)
(* ===================================================================== *)

Lemma groups_hold_set (G : nat → string → Prop) n w g :
  G n w → groups_hold G g → groups_hold G (set_group n w g).
Proof.
  intros Hw Hg n' s. unfold set_group. simpl.
  destruct (Nat.eqb_spec n n') as [->|]; [|by apply Hg].
  by intros [= <-].
Qed.

(** A successful run of the matcher leaves in every group a word its
    sub-pattern matches. *)
Lemma exec_groups (G : nat → string → Prop) r :
  ∀ {A} st (k : mstate → option A) x,
    groups_ok G r →
    groups_hold G (ms_groups st) →
    exec r st k = Some x →
    ∃ st' w,
      k st' = Some x
      ∧ advances st st' w
      ∧ matches r w
      ∧ groups_hold G (ms_groups st').
Proof.
  induction r as [l|cc|cc|r1 IH1 r2 IH2|r1 IH1 r2 IH2|r1 IH1|n r1 IH1| |];
    intros A st k x Hd Hg; cbn [exec].
  - intros (prev' & rest' & Hrest & Hk)%lit_go_sound.
    eexists _, l. split; [exact Hk|]. by split_and!.
  - intros (w & prev' & rest' & Hrest & Hw & Hk)%star_go_sound.
    eexists _, w. split; [exact Hk|]. by split_and!.
  - destruct (ms_rest st) as [|a rest] eqn:Hrest; [done|].
    destruct (cc_test cc a) eqn:Ha; [|done].
    intros (w & prev' & rest' & -> & Hw & Hk)%star_go_sound.
    eexists _, (String a w). split; [exact Hk|]. split_and!; try done.
    + split; simpl; [by rewrite Hrest|lia].
    + simpl. by rewrite Ha, Hw.
  - destruct Hd as [Hd1 Hd2].
    intros (st1 & w1 & Hk1 & [Hr1 Hp1] & Hm1 & Hg1)%IH1; [|done..].
    apply IH2 in Hk1 as (st2 & w2 & Hk2 & [Hr2 Hp2] & Hm2 & Hg2); [|done..].
    exists st2, (w1 +:+ w2). split; [done|]. split_and!; try done.
    + split.
      * by rewrite Hr1, Hr2, app_assoc_str.
      * rewrite Hp2, Hp1, app_length. lia.
    + by exists w1, w2.
  - destruct Hd as [Hd1 Hd2].
    destruct (exec r1 st k) as [y|] eqn:H1.
    + intros [= ->].
      apply IH1 in H1 as (st1 & w & Hk & Ha & Hm & Hg1); [|done..].
      exists st1, w. split_and!; try done. by left.
    + intros (st2 & w & Hk & Ha & Hm & Hg2)%IH2; [|done..].
      exists st2, w. split_and!; try done. by right.
  - simpl in Hd. destruct (exec r1 st k) as [y|] eqn:H1.
    + intros [= ->].
      apply IH1 in H1 as (st1 & w & Hk & Ha & Hm & Hg1); [|done..].
      exists st1, w. split_and!; try done. by right.
    + intros Hk. exists st, "".
      split; [done|]. split; [split; [done|simpl; lia]|].
      split; [by left|done].
  - destruct Hd as [Hn Hd].
    intros H1. apply IH1 in H1 as (st1 & w & Hk & [Hr Hp] & Hm & Hg1);
      [|done..].
    eexists _, w. split; [exact Hk|].
    assert (String.substring 0 (ms_pos st1 - ms_pos st) (ms_rest st) = w)
      as ->.
    { rewrite Hp, Hr. replace (ms_pos st + String.length w - ms_pos st)%nat
        with (String.length w) by lia. apply substring_prefix. }
    split_and!; try done.
    simpl. apply groups_hold_set; [by apply Hn|done].
  - destruct (ms_prev st); [done|]. intros Hk.
    exists st, "".
    split; [done|]. split; [split; [done|simpl; lia]|]. by split.
  - case_match; [|done]. intros Hk.
    exists st, "".
    split; [done|]. split; [split; [done|simpl; lia]|]. by split.
Qed.

Lemma match_at_groups G r pos prev rest m :
  groups_ok G r →
  match_at r pos prev rest = Some m →
  groups_hold G (m_groups m).
Proof.
  intros Hd Hm. unfold match_at in Hm.
  apply (exec_groups G) in Hm as (st' & w & [= <-] & _ & _ & Hg); try done.
Qed.

Lemma search_go_groups G r rest :
  ∀ pos prev m,
    groups_ok G r →
    search_go r pos prev rest = Some m →
    groups_hold G (m_groups m).
Proof.
  induction rest as [|a rest IH]; intros pos prev m Hd; cbn [search_go].
  - destruct (match_at r pos prev "") as [m'|] eqn:Hm; [|done].
    intros [= <-]. by eapply match_at_groups.
  - destruct (match_at r pos prev (String a rest)) as [m'|] eqn:Hm.
    + intros [= <-]. by eapply match_at_groups.
    + by apply IH.
Qed.

Lemma re_search_groups G r s m :
  groups_ok G r → re_search r s = Some m → groups_hold G (m_groups m).
Proof. intros Hd. by apply search_go_groups. Qed.

Lemma matches_local w :
  matches (RLit "_" · RPlus CDigit)%re w → is_local w = true.
Proof.
  intros (w1 & w2 & -> & -> & Hne & Hall).
  change (is_literal w2 = true).
  unfold is_literal. rewrite Hall. by destruct w2.
Qed.

Lemma is_local_truthy s : is_local s = true → truthy s = true.
Proof. by destruct s. Qed.

Lemma first_local_is_local args a :
  _extract_first_local args = Some a → is_local a = true.
Proof.
  unfold _extract_first_local.
  destruct (re_search first_local_pattern (strip args)) as [m|] eqn:Hm;
    [|done].
  apply (re_search_groups (λ _ w, is_local w = true)) in Hm.
  - intros Hg. by apply (Hm 1%nat).
  - simpl. split_and!; try done. intros w. apply matches_local.
Qed.

(** X23.  [_extract_first_local] returns [None] or a local name: an
    underscore followed by at least one decimal digit, hence never the
    empty string (the truthiness tests on its result only ever see
    [None]). *)
Theorem X23_first_local_shape args :
  match _extract_first_local args with
  | Some a => is_local a = true ∧ truthy a = true
  | None => True
  end.
Proof.
  destruct (_extract_first_local args) as [a|] eqn:E; [|done].
  apply first_local_is_local in E. split; [done|by apply is_local_truthy].
Qed.

(** *** The tables hold local names *)

Lemma ref_groups_local s m :
  re_search ref_pattern s = Some m →
  is_local (group_str m 1) = true ∧ is_local (group_str m 2) = true.
Proof.
  intros Hm. pose proof Hm as Hm'.
  apply (re_search_groups (λ _ w, is_local w = true)) in Hm.
  2:{ simpl. split_and!; try done; intros w; apply matches_local. }
  apply (re_search_sound []) in Hm' as [_ Hs]; [|reflexivity].
  destruct (Hs 1%nat) as [g1 H1]; [in_list|].
  destruct (Hs 2%nat) as [g2 H2]; [in_list|].
  unfold group_str. rewrite H1, H2. simpl.
  split; [by apply (Hm 1%nat)|by apply (Hm 2%nat)].
Qed.

Lemma scan_block_local tail :
  ∀ j acc (rtb : gmap string string),
    map_Forall (λ k v, is_local k = true ∧ is_local v = true) rtb →
    map_Forall (λ k v, is_local k = true ∧ is_local v = true)
      (scan_block tail j acc rtb).1.2.
Proof.
  induction tail as [|bl tail IH]; intros j acc rtb Hr; cbn [scan_block];
    [done|].
  destruct (bool_decide (is_Some (re_match bb_pattern (strip bl)))); [done|].
  destruct (String.eqb (strip bl) "}"); [done|].
  apply IH.
  destruct (re_search ref_pattern (strip bl)) as [m|] eqn:Hm; [|done].
  apply map_Forall_insert_2; [|done]. by apply ref_groups_local in Hm.
Qed.

Lemma resolve_local a (rtb : gmap string string) :
  is_local a = true →
  map_Forall (λ k v, is_local k = true ∧ is_local v = true) rtb →
  is_local (_resolve_mutex_key a rtb) = true.
Proof.
  intros Ha Hr. unfold _resolve_mutex_key.
  destruct (rtb !! a) as [v|] eqn:E; [|done]. simpl.
  by apply Hr in E as [_ ?].
Qed.

Lemma bind_guard_local lhs callee args (rtb gtm : gmap string string) :
  tables_local rtb gtm →
  map_Forall (λ _ v, is_local v = true)
    (bind_guard lhs callee args rtb gtm).
Proof.
  intros [Hr Hg]. unfold bind_guard.
  destruct (is_lock_callee callee).
  - destruct (_extract_first_local args) as [a|] eqn:Ea; [|done].
    apply first_local_is_local in Ea.
    destruct (truthy a); [|done].
    destruct lhs as [l|]; [|done]. destruct (truthy l); [|done].
    apply map_Forall_insert_2; [|done]. by apply resolve_local.
  - destruct (is_unwrap_callee callee && truthy_opt lhs); [|done].
    destruct (_extract_first_local args) as [a|]; [|done].
    destruct lhs as [l|]; [|done]. destruct (truthy a); [|done].
    destruct (gtm !! a) as [key|] eqn:Ek; [|done].
    apply map_Forall_insert_2; [|done]. by apply Hg in Ek.
Qed.

Lemma find_terminator_local rev_lines (rtb gtm : gmap string string) t gtm' :
  tables_local rtb gtm →
  find_terminator rev_lines rtb gtm = Ret (t, gtm') →
  map_Forall (λ _ v, is_local v = true) gtm'.
Proof.
  intros Ht. induction rev_lines as [|bl rest IH]; cbn [find_terminator];
    intros E.
  - simplify_eq. apply Ht.
  - repeat case_match; try (by apply IH);
      unfold mbind, outcome_bind in E; repeat case_match; simplify_eq;
      try apply Ht; by apply bind_guard_local.
Qed.

Lemma parse_block_local lines start i ln bb_m st st' j :
  tables_local (ps_ref_to_base st) (ps_guard_to_mutex_key st) →
  parse_block lines start i ln bb_m st = Ret (st', j) →
  tables_local (ps_ref_to_base st') (ps_guard_to_mutex_key st').
Proof.
  intros [Hr Hg]. unfold parse_block. intros E.
  destruct (int_of (group_str bb_m 1)) as [k| |]; simpl in E; try done.
  pose proof (scan_block_local (drop (S i) lines) (S i) []
                (ps_ref_to_base st) Hr) as Hr'.
  destruct (scan_block (drop (S i) lines) (S i) [] (ps_ref_to_base st))
    as [[bls rtb] j']. simpl in Hr'.
  destruct (find_terminator (rev bls) rtb (ps_guard_to_mutex_key st))
    as [[t gtm]| |] eqn:Ht; simpl in E; try done.
  simplify_eq. simpl. split; [done|].
  by eapply (find_terminator_local _ rtb (ps_guard_to_mutex_key st)).
Qed.

Lemma parse_lines_local fuel lines start :
  ∀ i st st',
    tables_local (ps_ref_to_base st) (ps_guard_to_mutex_key st) →
    parse_lines fuel lines start i st = Ret st' →
    tables_local (ps_ref_to_base st') (ps_guard_to_mutex_key st').
Proof.
  induction fuel as [|fuel IH]; intros i st st' Ht; [done|].
  cbn [parse_lines]. destruct (lines !! i) as [ln|]; [|by intros [= <-]].
  case_match; [by apply IH|].
  destruct (re_search let_pattern (strip ln)) as [let_m|],
    (ps_seen_bb st) eqn:Hseen.
  2: { by apply IH. }
  all: destruct (re_match bb_pattern (strip ln)) as [bb_m|]; [|by apply IH].
  all: destruct (parse_block lines start i ln bb_m st) as [[st1 j]| |] eqn:Hb;
    simpl; try done.
  all: apply parse_block_local in Hb; [|done].
  all: by apply IH.
Qed.

Lemma parse_function_body_local fn_name body start fn :
  _parse_function_body fn_name body start = Ret fn →
  name fn = fn_name
  ∧ tables_local (ref_to_base fn) (guard_to_mutex_key fn).
Proof.
  unfold _parse_function_body.
  destruct (parse_lines _ _ _ _ _) as [st| |] eqn:Hst; simpl; try done.
  intros [= <-]. simpl. split; [done|].
  eapply parse_lines_local; [|exact Hst]. simpl.
  split; apply map_Forall_empty.
Qed.

(** X24.  The tables of a parsed function hold local names only:
    whenever [_parse_function_body] returns a function, every key and
    every value of its [ref_to_base], and every value of its
    [guard_to_mutex_key], is an underscore followed by decimal digits. *)
Theorem X24_tables_hold_locals fn_name body start fn :
  _parse_function_body fn_name body start = Ret fn →
  tables_local (ref_to_base fn) (guard_to_mutex_key fn).
Proof. intros Hfn. by eapply parse_function_body_local. Qed.

Lemma X24_tables_hold_locals_witness :
  ∃ fn,
    _parse_function_body "main" (str_drop 17 mir_aliasing) 1 = Ret fn
    ∧ ref_to_base fn !! "_3" = Some "_1"
    ∧ tables_local (ref_to_base fn) (guard_to_mutex_key fn).
Proof.
  destruct (_parse_function_body "main" (str_drop 17 mir_aliasing) 1)
    as [fn| |] eqn:Hfn; [|by vm_compute in Hfn..].
  exists fn. split; [done|]. split.
  - revert Hfn. vm_compute. by intros [= <-].
  - exact (X24_tables_hold_locals "main" (str_drop 17 mir_aliasing) 1 fn
             Hfn).
Defined.

(** *** From the text to the keys of the net *)

Lemma parse_mir_loop_local text fuel :
  ∀ pos fs fs',
    Forall (λ fn, tables_local (ref_to_base fn) (guard_to_mutex_key fn)) fs →
    parse_mir_loop fuel text pos fs = Ret fs' →
    Forall (λ fn, tables_local (ref_to_base fn) (guard_to_mutex_key fn)) fs'.
Proof.
  induction fuel as [|fuel IH]; intros pos fs fs' Hfs; [done|].
  cbn [parse_mir_loop].
  destruct (re_search_from fn_pattern text pos) as [m|];
    [|by intros [= <-]].
  cbv zeta.
  destruct (_parse_function_body _ _ _) as [func|e|] eqn:Hf;
    [|by destruct e|done].
  apply IH. apply Forall_app. split; [done|].
  apply Forall_singleton. by apply parse_function_body_local in Hf as [_ ?].
Qed.

Lemma parsed_local text :
  Forall (λ fn, tables_local (ref_to_base fn) (guard_to_mutex_key fn))
    (parsed text).
Proof.
  unfold parsed. destruct (parse_mir text) as [fs| |] eqn:E; try done.
  by eapply parse_mir_loop_local in E.
Qed.

Lemma classify_local f fn bb term b tg lk uk b' :
  tables_local (ref_to_base fn) (guard_to_mutex_key fn) →
  PnBuilder.classify f fn bb term b = (tg, lk, uk, b') →
  opt_local lk ∧ opt_local uk.
Proof.
  intros [Hr Hg]. unfold PnBuilder.classify. intros E.
  destruct term; repeat case_match; simplify_eq; try done.
  - split; [done|]. simpl. by eapply (Hg _ _ ltac:(eassumption)).
  - split; [|done]. simpl. apply resolve_local; [|done].
    by eapply first_local_is_local.
Qed.

Lemma edge_transition_local f bb tgt lk uk :
  opt_local lk → opt_local uk →
  op_local (PnBuilder.edge_transition f bb tgt lk uk).
Proof.
  intros Hl Hu. unfold op_local, PnBuilder.edge_transition, py_or. simpl.
  destruct lk as [k|]; simpl in *.
  - rewrite (is_local_truthy k Hl). simpl. split; [done|by left].
  - destruct uk as [k|]; simpl in *; [|done].
    rewrite (is_local_truthy k Hu). split; [done|by right].
Qed.

(** X25.  Parser and builder together: in a net built from the functions
    [parse_mir] returns, the [op] of every [lock] and [unlock] transition
    is a local name (an underscore followed by decimal digits), and every
    other transition has kind [cfg] and [op] [None]: the empty key that
    the builder allows on arbitrary input never arises. *)
Theorem X25_parsed_keys_local text entry_fn max_fns :
  let net := PnBuilder.build_petri_net (parsed text) entry_fn max_fns in
  Forall op_local (transitions net).
Proof.
  cbv zeta. apply Forall_forall. unfold PnBuilder.build_petri_net.
  apply (TL_run_builder (λ _ t, op_local t)
           (λ fn, tables_local (ref_to_base fn) (guard_to_mutex_key fn))
           (λ lk uk, opt_local lk ∧ opt_local uk)).
  - done.
  - intros b t Hk Ho. unfold op_local. by rewrite Ho.
  - intros f bb src m lk uk b tgt [Hl Hu]. by apply edge_transition_local.
  - intros f fn bb term b tg lk uk b' HF. by apply classify_local.
  - eapply Forall_forall. intros fn Hfn.
    apply (proj1 (Forall_forall _ _) (parsed_local text)).
    unfold PnBuilder.fns_to_process in Hfn. destruct max_fns as [n|]; [|done].
    destruct (py_take_prefix (parsed text) n) as [k Hk].
    rewrite Hk. apply elem_of_app. by left.
Qed.

(* ===================================================================== *)
(** ** Properties of [main] *)
(* ===================================================================== *)

Import Mir2Pnml.

Lemma fns_to_process_zero (functions : list MirFunction) :
  PnBuilder.fns_to_process functions (Some 0) = [].
Proof. reflexivity. Qed.


(** X27.  With [--max-fns 0] the bound is applied after the test for an
    empty parse result: on a readable file holding a function header
    (and no number of more than 4300 digits) [main] still writes a
    document, that of the empty net (a page without children), and
    returns 0. *)
Theorem X27_main_max_fns_zero os args text :
  mir_exists os = true →
  mir_text os = inl text →
  re_search_from fn_pattern text 0 ≠ None →
  short_numbers text →
  pnml_written os = None →
  max_fns args = Some 0 →
  ∃ rest,
    main os args = Ret (0, WritePnml (out args) empty_document :: rest).
Proof.
  intros Hex Htx Hne Hshort Hw Hmx. unfold main. rewrite Hex, Htx. simpl.
  destruct (parse_mir_total text Hshort) as [fs Hfs]. rewrite Hfs.
  apply parse_mir_nil in Hfs.
  destruct fs as [|fn fs]; [by destruct Hne; apply Hfs|].
  cbv zeta. rewrite Hw, Hmx.
  unfold PnBuilder.build_petri_net, PnBuilder.run_builder.
  rewrite fns_to_process_zero.
  change (pnml_tree _) with empty_document.
  destruct (truthy_opt (dump_json args)); [destruct (json_written os)|];
    by eexists.
Qed.

Lemma X27_main_max_fns_zero_witness :
  ∃ rest,
    main (mkOs id true (inl mir_helper_only) None None)
      (mkArgs "in.mir" "out.pnml" None "main" 8 (Some 0))
    = Ret (0, WritePnml "out.pnml" empty_document :: rest).
Proof.
  apply (X27_main_max_fns_zero
           (mkOs id true (inl mir_helper_only) None None)
           (mkArgs "in.mir" "out.pnml" None "main" 8 (Some 0))
           mir_helper_only); try reflexivity.
  - by vm_compute.
  - apply Nat.leb_le. reflexivity.
Defined.

(* ===================================================================== *)
(** ** The search for the terminator of a block *)
(* ===================================================================== *)

Lemma terminator_line_false bs :
  terminator_line bs = false →
  re_search goto_pattern bs = None
  ∧ re_search return_pattern bs = None
  ∧ re_search drop_pattern bs = None
  ∧ re_search switch_pattern bs = None
  ∧ re_search call_pattern bs = None.
Proof.
  unfold terminator_line. intros H.
  repeat (apply orb_false_iff in H as [H ?]).
  repeat match goal with
         | H : bool_decide _ = false |- _ =>
             apply bool_decide_eq_false in H;
             rewrite <- eq_None_not_Some in H
         end.
  done.
Qed.

Lemma find_terminator_skip bl rest (rtb gtm : gmap string string) :
  terminator_line (strip bl) = false →
  find_terminator (bl :: rest) rtb gtm = find_terminator rest rtb gtm.
Proof.
  intros (Hg & Hr & Hd & Hs & Hc)%terminator_line_false.
  cbn [find_terminator]. cbv zeta. by rewrite Hg, Hr, Hd, Hs, Hc.
Qed.

(** On a terminator line the search stops: the lines before it (later in
    the reversed list) are not looked at. *)
Lemma find_terminator_stop bl rest (rtb gtm : gmap string string) :
  terminator_line (strip bl) = true →
  find_terminator (bl :: rest) rtb gtm = find_terminator [bl] rtb gtm.
Proof.
  intros Hl. cbn [find_terminator]. cbv zeta.
  destruct (re_search goto_pattern (strip bl)) as [tm|] eqn:Hg; [done|].
  destruct (re_search return_pattern (strip bl)) as [rm|] eqn:Hr; [done|].
  destruct (re_search drop_pattern (strip bl)) as [dm|] eqn:Hd; [done|].
  destruct (re_search switch_pattern (strip bl)) as [sm|] eqn:Hs; [done|].
  destruct (re_search call_pattern (strip bl)) as [cm|] eqn:Hc; [done|].
  exfalso. unfold terminator_line in Hl.
  rewrite Hg, Hr, Hd, Hs, Hc in Hl. done.
Qed.

Lemma find_terminator_hit bl (rtb gtm : gmap string string) t gtm' :
  terminator_line (strip bl) = true →
  find_terminator [bl] rtb gtm = Ret (t, gtm') →
  is_Some t.
Proof.
  intros Hl. cbn [find_terminator]. cbv zeta. intros E.
  destruct (re_search goto_pattern (strip bl)) as [tm|] eqn:Hg.
  { unfold mbind, outcome_bind in *. repeat case_match; by simplify_eq. }
  destruct (re_search return_pattern (strip bl)) as [rm|] eqn:Hr.
  { by simplify_eq. }
  destruct (re_search drop_pattern (strip bl)) as [dm|] eqn:Hd.
  { unfold mbind, outcome_bind in *. repeat case_match; by simplify_eq. }
  destruct (re_search switch_pattern (strip bl)) as [sm|] eqn:Hs.
  { unfold mbind, outcome_bind in *. repeat case_match; by simplify_eq. }
  destruct (re_search call_pattern (strip bl)) as [cm|] eqn:Hc.
  { unfold mbind, outcome_bind in *. repeat case_match; by simplify_eq. }
  exfalso. unfold terminator_line in Hl.
  rewrite Hg, Hr, Hd, Hs, Hc in Hl. done.
Qed.

(** X28.  The search for the terminator of a block finds none exactly
    when no line of the block matches any of the five terminator
    patterns; it then returns, whatever the lines hold, and leaves the
    guard table as it was.  (This is the only way to the warning
    [no terminator found].) *)
Theorem X28_no_terminator rev_lines (rtb gtm gtm' : gmap string string) :
  find_terminator rev_lines rtb gtm = Ret (None, gtm')
  ↔ Forall (λ bl, terminator_line (strip bl) = false) rev_lines
    ∧ gtm' = gtm.
Proof.
  induction rev_lines as [|bl rest IH].
  - cbn. split; [by intros [= <-]|by intros [_ ->]].
  - destruct (terminator_line (strip bl)) eqn:Hl.
    + rewrite find_terminator_stop by done. split.
      * intros E. by apply find_terminator_hit in E as [? [=]].
      * intros [[H _]%Forall_cons _]. congruence.
    + rewrite find_terminator_skip by done. rewrite IH.
      split; intros [H ->]; (split; [|done]);
        [by constructor|by apply Forall_cons in H as [_ ?]].
Qed.

(** X29.  The last terminator line of a block decides: the lines after it
    are skipped, the lines before it are never looked at, and the outcome
    of the search (the terminator and, for a call, the guard binding; or
    the error of [int]) is that of this line alone.  When the search
    returns it has found a terminator, and [statements] then drops the
    last line of the block, whether or not it is the terminator line.  It
    returns when no number of the line has more than 4300 digits. *)
Theorem X29_last_terminator_line pre bl post
    (rtb gtm : gmap string string) :
  terminator_line (strip bl) = true →
  Forall (λ l, terminator_line (strip l) = false) post →
  find_terminator (rev (pre ++ bl :: post)) rtb gtm
  = find_terminator [bl] rtb gtm
  ∧ (∀ t gtm',
       find_terminator [bl] rtb gtm = Ret (t, gtm') →
       is_Some t
       ∧ statements_of t (pre ++ bl :: post)
         = removelast (pre ++ bl :: post))
  ∧ (short_numbers bl →
     ∃ t gtm', find_terminator [bl] rtb gtm = Ret (Some t, gtm')).
Proof.
  intros Hl Hpost. split; [|split].
  - rewrite rev_app_distr. simpl. rewrite <- app_assoc. simpl.
    apply Forall_rev in Hpost. revert Hpost. generalize (rev post).
    intros ls Hls. induction Hls as [|l ls Hl' _ IH];
      [by apply find_terminator_stop|].
    rewrite <- app_comm_cons. by rewrite find_terminator_skip.
  - intros t gtm' E. apply find_terminator_hit in E as [t' ->]; [|done].
    split; [done|]. unfold statements_of. by destruct pre.
  - intros Hshort.
    destruct (ret_or_limit_short bl (λ _, True)
                (find_terminator [bl] rtb gtm) Hshort)
      as ([t gtm'] & E & _).
    { apply find_terminator_outcome. apply Forall_singleton.
      apply infix_refl. }
    pose proof E as E'. apply find_terminator_hit in E' as [t' ->]; [|done].
    by exists t', gtm'.
Qed.

Lemma X29_last_terminator_line_witness :
  let lines :=
    ["        _1 = const 5_i32;"] ++ "        goto -> bb2;"
    :: ["        nop;"] in
  find_terminator (rev lines) ∅ ∅
  = find_terminator ["        goto -> bb2;"] ∅ ∅
  ∧ (∀ t gtm',
       find_terminator ["        goto -> bb2;"] ∅ ∅ = Ret (t, gtm') →
       is_Some t ∧ statements_of t lines = removelast lines)
  ∧ (short_numbers "        goto -> bb2;" →
     ∃ t gtm',
       find_terminator ["        goto -> bb2;"] ∅ ∅ = Ret (Some t, gtm')).
Proof.
  apply (X29_last_terminator_line ["        _1 = const 5_i32;"]
           "        goto -> bb2;" ["        nop;"] ∅ ∅).
  - by vm_compute.
  - repeat constructor.
Defined.

(* ===================================================================== *)
(** ** The limit of [int] *)
(* ===================================================================== *)


